(** * The lyric-file parser [parseLRC] of utils/lrcParser.ts

    A shallow embedding of the parser and of the JavaScript string
    primitives it calls, followed by the properties of the parser.

    Conventions of the embedding.
    - A JavaScript string is the list of its UTF-16 code units; a code unit
      is a [Z].  The regular expressions of the source carry no [u] flag, so
      they too work on code units.
    - A JavaScript number is a double; it is modelled by the rational that
      is its exact value.  [+], [*] and [/] compute the exact result and
      round it to the nearest double, ties to the even significand
      (module [Double]).  The numbers of the parser stay below 6040, so
      overflow, infinities and NaN do not occur and are not modelled.
      Comparisons, and the sign of a difference of two doubles, are those
      of the exact values.
    - [console.warn] and exceptions are effects: a computation returns a
      [Result] together with the diagnostics it wrote. *)

From Stdlib Require Import List ZArith QArith Qpower Qround Lia Lqa Bool String Ascii.
From Stdlib Require Import Sorted Permutation.
From Stdlib Require Import DecimalString DecimalZ.
Import ListNotations.

Local Open Scope Z_scope.
Local Open Scope list_scope.

(** ** Strings *)

Module JS.

Definition CodeUnit := Z.
Definition JSString := list CodeUnit.

(** A source literal made of ASCII characters. *)
Definition js (s : string) : JSString :=
  map (fun a => Z.of_N (N_of_ascii a)) (list_ascii_of_string s).

(** The one-character literals the parser uses. *)
Definition LF : CodeUnit := 10.
Definition CR : CodeUnit := 13.
Definition ch_lbracket : CodeUnit := 91.
Definition ch_rbracket : CodeUnit := 93.
Definition ch_colon : CodeUnit := 58.
Definition ch_dot : CodeUnit := 46.
Definition ch_zero : CodeUnit := 48.

(** A string is truthy when it is not empty. *)
Definition truthy (s : JSString) : bool :=
  match s with [] => false | _ :: _ => true end.

(** [s.split(sep)] for a separator of one code unit.  The result is never
    empty: the empty string splits into one empty piece. *)
Fixpoint splitOn (sep : CodeUnit) (s : JSString) : list JSString :=
  match s with
  | [] => [[]]
  | c :: s' =>
      if c =? sep then [] :: splitOn sep s'
      else match splitOn sep s' with
           | cur :: rest => (c :: cur) :: rest
           | [] => [[c]]
           end
  end.

(** [s.split('')]: one piece per code unit. *)
Definition splitChars (s : JSString) : list JSString :=
  map (fun c => [c]) s.

(** White space of ECMAScript: the WhiteSpace and LineTerminator
    productions.  Both [String.prototype.trim] and the class [\s] use
    exactly this set. *)
Definition isWhiteSpace (c : CodeUnit) : bool :=
  (c =? 0x0009) || (c =? 0x000A) || (c =? 0x000B) || (c =? 0x000C) ||
  (c =? 0x000D) || (c =? 0x0020) || (c =? 0x00A0) || (c =? 0x1680) ||
  ((0x2000 <=? c) && (c <=? 0x200A)) ||
  (c =? 0x2028) || (c =? 0x2029) || (c =? 0x202F) || (c =? 0x205F) ||
  (c =? 0x3000) || (c =? 0xFEFF).

Fixpoint trimStart (s : JSString) : JSString :=
  match s with
  | [] => []
  | c :: s' => if isWhiteSpace c then trimStart s' else s
  end.

Definition trimEnd (s : JSString) : JSString := rev (trimStart (rev s)).

Definition trim (s : JSString) : JSString := trimEnd (trimStart s).

(** [s.split(/\s+/)].  [inSep] says that the scan is inside a run of white
    space: the run is one separator however long it is.  A separator at the
    very start or end of the string leaves an empty piece there. *)
Fixpoint splitWS (inSep : bool) (s : JSString) : list JSString :=
  match s with
  | [] => [[]]
  | c :: s' =>
      if isWhiteSpace c then
        if inSep then splitWS true s' else [] :: splitWS true s'
      else match splitWS false s' with
           | cur :: rest => (c :: cur) :: rest
           | [] => [[c]]
           end
  end.

Definition splitSpaces (s : JSString) : list JSString := splitWS false s.

(** [s.padEnd(n, c)] for a filler of one code unit. *)
Definition padEnd (n : nat) (c : CodeUnit) (s : JSString) : JSString :=
  s ++ repeat c (n - List.length s).

Definition isDigit (c : CodeUnit) : bool := (48 <=? c) && (c <=? 57).

Fixpoint takeDigits (s : JSString) : JSString :=
  match s with
  | [] => []
  | c :: s' => if isDigit c then c :: takeDigits s' else []
  end.

(** [parseInt(s, 10)] on a string that starts with a digit: the value of
    its leading run of digits.  The parser only calls it on captures of
    [\d{2}] and [\d{2,3}], so the sign, the leading white space and the NaN
    result of [parseInt] never come into play. *)
Definition parseInt10 (s : JSString) : Z :=
  fold_left (fun acc c => acc * 10 + (c - ch_zero)) (takeDigits s) 0.

End JS.
Export JS.

(** ** The regular expression [/\[(\d{2}):(\d{2})(\.(\d{2,3}))?\]/] *)

Module TimeRegex.

(** The result of [exec]: where the match starts, the matched text and the
    captures the parser reads.  Capture 4 is [None] when the optional
    fraction took no part in the match. *)
Record RegExpMatch := mkMatch {
  index : nat;
  matched : JSString;
  group1 : JSString;
  group2 : JSString;
  group4 : option JSString
}.

(** [(\.(\d{2,3}))?\]] at the head of [s]: greedy, so the fraction is tried
    before its absence and three digits before two.  Returns capture 4 and
    the text consumed. *)
Definition matchTail (s : JSString) : option (option JSString * JSString) :=
  let three :=
    match s with
    | d :: f1 :: f2 :: f3 :: r :: _ =>
        (d =? ch_dot) && isDigit f1 && isDigit f2 && isDigit f3 && (r =? ch_rbracket)
    | _ => false
    end in
  let two :=
    match s with
    | d :: f1 :: f2 :: r :: _ =>
        (d =? ch_dot) && isDigit f1 && isDigit f2 && (r =? ch_rbracket)
    | _ => false
    end in
  let none :=
    match s with
    | r :: _ => r =? ch_rbracket
    | _ => false
    end in
  if three then Some (Some (firstn 3 (skipn 1 s)), firstn 5 s)
  else if two then Some (Some (firstn 2 (skipn 1 s)), firstn 4 s)
  else if none then Some (None, firstn 1 s)
  else None.

(** The whole pattern at the head of [s]. *)
Definition matchHere (i : nat) (s : JSString) : option RegExpMatch :=
  match s with
  | l :: m1 :: m2 :: c :: s1 :: s2 :: rest =>
      if (l =? ch_lbracket) && isDigit m1 && isDigit m2 && (c =? ch_colon)
         && isDigit s1 && isDigit s2
      then match matchTail rest with
           | Some (frac, tl) =>
               Some (mkMatch i (l :: m1 :: m2 :: c :: s1 :: s2 :: tl)
                             [m1; m2] [s1; s2] frac)
           | None => None
           end
      else None
  | _ => None
  end.

(** [timeRegex.exec(s)]: the regular expression is not global, so the
    search starts at index 0 and returns the leftmost match. *)
Fixpoint execFrom (i : nat) (s : JSString) : option RegExpMatch :=
  match matchHere i s with
  | Some m => Some m
  | None =>
      match s with
      | [] => None
      | _ :: s' => execFrom (S i) s'
      end
  end.

Definition exec (s : JSString) : option RegExpMatch := execFrom 0 s.

(** [s.replace(timeRegex, '')] when [exec] found [m]: the first match is
    cut out, nothing else is touched. *)
Definition replaceMatch (s : JSString) (m : RegExpMatch) : JSString :=
  firstn (index m) s ++ skipn (index m + List.length (matched m)) s.

(** [/[\u3040-\u309F\u30A0-\u30FF]/.test(text)]: Hiragana or Katakana. *)
Definition isKana (c : CodeUnit) : bool :=
  ((0x3040 <=? c) && (c <=? 0x309F)) || ((0x30A0 <=? c) && (c <=? 0x30FF)).

Definition hasJapanese (text : JSString) : bool := existsb isKana text.

(** [/[\u4E00-\u9FFF]/.test(text)]: CJK Unified Ideographs. *)
Definition isCJK (c : CodeUnit) : bool := (0x4E00 <=? c) && (c <=? 0x9FFF).

Definition hasChineseChars (text : JSString) : bool := existsb isCJK text.

End TimeRegex.
Export TimeRegex.

(** ** Effects: exceptions and the console *)

Module Effects.

(** What a [throw] carries; the parser only passes it on to the console. *)
Definition Exn := string.

Inductive Diagnostic :=
| ConsoleWarn (msg : string) (e : Exn).

Inductive Result (A : Type) :=
| Ok (a : A)
| Throw (e : Exn).
Arguments Ok {A} a.
Arguments Throw {A} e.

(** A computation: how it ended, and what it wrote to the console. *)
Definition M (A : Type) : Type := (Result A * list Diagnostic)%type.

Definition ret {A} (a : A) : M A := (Ok a, []).

Definition bind {A B} (m : M A) (f : A -> M B) : M B :=
  match m with
  | (Ok a, out) => let (r, out') := f a in (r, out ++ out')
  | (Throw e, out) => (Throw e, out)
  end.

(** [try { m } catch (e) { h e }] *)
Definition tryCatch {A} (m : M A) (h : Exn -> M A) : M A :=
  match m with
  | (Ok a, out) => (Ok a, out)
  | (Throw e, out) => let (r, out') := h e in (r, out ++ out')
  end.

Definition consoleWarn (msg : string) (e : Exn) : M unit :=
  (Ok tt, [ConsoleWarn msg e]).

(** A call into the runtime that either returns or throws, silently. *)
Definition call {A} (r : Result A) : M A := (r, []).

End Effects.
Export Effects.

Notation "x <- m ;; k" := (bind m (fun x => k))
  (at level 61, m at next level, right associativity).
Notation "' p <- m ;; k" := (bind m (fun x => match x with p => k end))
  (at level 61, p pattern, m at next level, right associativity).
Notation "m ;;; k" := (bind m (fun _ => k))
  (at level 61, right associativity).

(** ** Numbers *)

Module Double.

(** The exponent of a positive number: the [k] with [2^k <= q < 2^(k+1)]. *)
Definition floorLog2 (q : Q) : Z :=
  let k := Z.log2 (Qnum q) - Z.log2 (Z.pos (Qden q)) in
  if Qle_bool (2 ^ k) q then k else k - 1.

(** The nearest integer, a tie going to the even one. *)
Definition roundHalfEven (x : Q) : Z :=
  let f := Qfloor x in
  match (x - inject_Z f ?= 1 # 2)%Q with
  | Lt => f
  | Gt => f + 1
  | Eq => if Z.even f then f else f + 1
  end.

(** The double nearest to a positive number: a multiple of [2^e], where
    [e] leaves 53 bits to the significand and is at least the exponent of
    the subnormal numbers. *)
Definition nearest (q : Q) : Q :=
  let e := Z.max (floorLog2 q - 52) (-1074) in
  Qred (inject_Z (roundHalfEven (q / 2 ^ e)) * 2 ^ e).

Definition toDouble (q : Q) : Q :=
  match (q ?= 0)%Q with
  | Eq => 0
  | Gt => nearest q
  | Lt => - nearest (- q)
  end.

(** The arithmetic of JavaScript on two doubles. *)
Definition add (a b : Q) : Q := toDouble (a + b).
Definition mul (a b : Q) : Q := toDouble (a * b).
Definition div (a b : Q) : Q := toDouble (a / b).

End Double.

(** ** The parser *)

Module LrcParser.

(** [LyricLine] of types.ts. *)
Record LyricLine := mkLyricLine {
  time : Q;
  text : JSString;
  words : list JSString;
  isJapanese : bool
}.

(** One element of the iterable that [segmenter.segment(text)] returns. *)
Record Segment := mkSegment {
  segment : JSString;
  isWordLike : bool
}.

(** The runtime as the parser probes it: [Intl] is missing or has no
    [Segmenter], or [Intl.Segmenter] is there.  In the second case the
    field is the whole of
    [Array.from(new Intl.Segmenter('ja', {granularity: 'word'}).segment(text))],
    which returns the segments or throws. *)
Inductive IntlEnv :=
| IntlUndefined
| IntlSegmenter (segmentWords : JSString -> Result (list Segment)).

(** [minute * 60 + second + millisecond / 1000], in doubles; the three
    integers are doubles as they stand. *)
Definition timeOf (m : RegExpMatch) : Q :=
  let minute := parseInt10 (group1 m) in
  let second := parseInt10 (group2 m) in
  let millisecond :=
    match group4 m with
    | Some f => parseInt10 (padEnd 3 ch_zero f)
    | None => 0
    end in
  Double.add (Double.add (Double.mul (inject_Z minute) 60) (inject_Z second))
             (Double.div (inject_Z millisecond) 1000).

(** [line.replace(timeRegex, '').trim()] *)
Definition textOf (line : JSString) (m : RegExpMatch) : JSString :=
  trim (replaceMatch line m).

(** The local [isChinese]. *)
Definition isChinese (text : JSString) : bool :=
  hasChineseChars text && negb (hasJapanese text).

(** The branch that fills [words] and [isJapanese], both of which start as
    [[]] and [false]. *)
Definition tokenize (intl : IntlEnv) (text : JSString) : M (list JSString * bool) :=
  if hasJapanese text then
    words <- match intl with
             | IntlSegmenter segmentWords =>
                 tryCatch
                   (segments <- call (segmentWords text) ;;
                    ret (map segment (filter isWordLike segments)))
                   (fun e =>
                      consoleWarn "Intl.Segmenter error" e ;;;
                      ret (splitChars text))
             | IntlUndefined => ret (splitChars text)
             end ;;
    ret (words, true)
  else if negb (isChinese text) then ret (splitSpaces text, false)
  else ret ([], false).

(** The body of the [for] loop; [lyrics.push] appends. *)
Definition processLine (intl : IntlEnv) (lyrics : list LyricLine)
    (line : JSString) : M (list LyricLine) :=
  match exec line with
  | Some m =>
      let time := timeOf m in
      let text := textOf line m in
      if truthy text then
        '(words, isJapanese) <- tokenize intl text ;;
        ret (lyrics ++ [mkLyricLine time text words isJapanese])
      else ret lyrics
  | None => ret lyrics
  end.

(** [for (const line of lines) ...] *)
Fixpoint forLines (intl : IntlEnv) (lines : list JSString)
    (lyrics : list LyricLine) : M (list LyricLine) :=
  match lines with
  | [] => ret lyrics
  | line :: lines' =>
      lyrics' <- processLine intl lyrics line ;;
      forLines intl lines' lyrics'
  end.

(** [Array.prototype.sort] with a comparator: [a] goes after [b] when
    [cmp a b > 0].  The sort is stable, which fixes the result whenever the
    comparator is consistent; insertion from the right computes it. *)
Section Sort.
Context {A : Type} (cmp : A -> A -> Q).

Fixpoint insertSorted (x : A) (l : list A) : list A :=
  match l with
  | [] => [x]
  | y :: l' =>
      match (cmp x y ?= 0)%Q with
      | Gt => y :: insertSorted x l'
      | _ => x :: l
      end
  end.

Fixpoint sortBy (l : list A) : list A :=
  match l with
  | [] => []
  | x :: l' => insertSorted x (sortBy l')
  end.
End Sort.

(** [(a, b) => a.time - b.time].  The sort looks at the sign of the result
    only, and the difference of two doubles rounds to zero only when they
    are equal, so the exact difference stands for the rounded one. *)
Definition byTime (a b : LyricLine) : Q := (time a - time b)%Q.

Definition parseLRC (intl : IntlEnv) (lrcContent : JSString) : M (list LyricLine) :=
  let lines := splitOn LF lrcContent in
  lyrics <- forLines intl lines [] ;;
  ret (sortBy byTime lyrics).

End LrcParser.
Export LrcParser.

(** What the parser produced, once the effects are set aside. *)
Definition lyricsOf (r : M (list LyricLine)) : list LyricLine :=
  match fst r with
  | Ok l => l
  | Throw _ => []
  end.

(** The contribution of one physical line: the loop body run on an empty
    accumulator. *)
Definition lineLyrics (intl : IntlEnv) (line : JSString) : list LyricLine :=
  lyricsOf (processLine intl [] line).

Definition lineLog (intl : IntlEnv) (line : JSString) : list Diagnostic :=
  snd (processLine intl [] line).

(** The order the output is claimed to respect. *)
Definition timeLe (a b : LyricLine) : Prop := (time a <= time b)%Q.

(** A token without any white space in it. *)
Definition noWhiteSpace (t : JSString) : bool :=
  forallb (fun c => negb (isWhiteSpace c)) t.

(** A token made of white space only; the empty token is one. *)
Definition onlyWhiteSpace (t : JSString) : bool := forallb isWhiteSpace t.

(** A line that the loop body skips. *)
Definition dropped (line : JSString) : Prop :=
  exec line = None \/
  exists m, exec line = Some m /\ textOf line m = [].

(** The captures are what the pattern says: two digits, two digits, and
    for the fraction nothing, two digits or three digits. *)
Inductive fractionShape : option JSString -> Prop :=
| frac_none : fractionShape None
| frac_two a b :
    isDigit a = true -> isDigit b = true -> fractionShape (Some [a; b])
| frac_three a b c :
    isDigit a = true -> isDigit b = true -> isDigit c = true ->
    fractionShape (Some [a; b; c]).

(** ** Runtimes and inputs used as examples *)

(** A segmenter that always throws, and inputs used as examples. *)
Definition brokenSegmenter : IntlEnv :=
  IntlSegmenter (fun _ => Throw "RangeError"%string).

(** A segmenter that throws on a text with a CJK ideograph and returns any
    other text as one word-like segment. *)
Definition picky (t : JSString) : Result (list Segment) :=
  if hasChineseChars t then Throw "RangeError"%string
  else Ok [mkSegment t true].

Definition pickySegmenter : IntlEnv := IntlSegmenter picky.

(** A segmenter that returns the whole text as one word-like segment. *)
Definition wholeTextSegmenter : IntlEnv :=
  IntlSegmenter (fun t => Ok [mkSegment t true]).

Definition kana_line : JSString := js "[00:02.00]" ++ [0x3042; 0x3044].

Definition kana_line_match : RegExpMatch :=
  mkMatch 0 (js "[00:02.00]") (js "00") (js "02") (Some (js "00")).

(** Further example inputs: Kana next to an ideograph, ideographs only,
    and Kana around a space. *)
Definition kana_kanji_line : JSString := js "[00:01.00]" ++ [0x3042; 0x4E00].

Definition kana_kanji_match : RegExpMatch :=
  mkMatch 0 (js "[00:01.00]") (js "00") (js "01") (Some (js "00")).

Definition hanzi_line : JSString := js "[00:02.50]" ++ [0x4F60; 0x597D].
Definition kana_space_line : JSString :=
  js "[00:01.00]" ++ [0x3042; 0x0020; 0x3044].

(** A segmenter that returns every code unit as a segment of its own and
    marks it word-like unless it is white space. *)
Definition perCharacter (t : JSString) : Result (list Segment) :=
  Ok (map (fun c => mkSegment [c] (negb (isWhiteSpace c))) t).

Definition charSegmenter : IntlEnv := IntlSegmenter perCharacter.

(** A segmenter that finds no word: the text is one segment that is not
    word-like, which is what a text of punctuation gives.  The Katakana
    middle dot is such a text, and it is in the Kana range. *)
Definition noWordSegmenter : IntlEnv :=
  IntlSegmenter (fun t => Ok [mkSegment t false]).

Definition middle_dot_line : JSString := js "[00:01.00]" ++ [0x30FB].

(** ** types.ts *)

Inductive Language := en | zh.

Module DefinitionData.
Record t := mk {
  word : JSString;
  partOfSpeech : JSString;
  definition : JSString;
  exampleSentence : JSString;
  translation : JSString;
  pronunciation : option JSString;
  romanization : option JSString;
  furigana : option JSString
}.
End DefinitionData.

Module ChatMessage.
Inductive Role := user | model.
Record t := mk {
  role : Role;
  text : JSString
}.
End ChatMessage.

Module Note.
Record t := mk {
  id : JSString;
  word : JSString;
  definitionData : DefinitionData.t;
  contextLine : JSString;
  chatHistory : list ChatMessage.t;
  timestamp : Z
}.
End Note.

(** ** More of JavaScript *)

(** [a === b] on strings. *)
Fixpoint strictEq (a b : JSString) : bool :=
  match a, b with
  | [], [] => true
  | x :: a', y :: b' => (x =? y) && strictEq a' b'
  | _, _ => false
  end.

(** [Array.prototype.findIndex]: the callback gets the element and its
    index; the result is the first index whose element passes, or -1. *)
Fixpoint findIndexFrom {A : Type} (callback : A -> nat -> bool) (i : nat)
    (l : list A) : Z :=
  match l with
  | [] => -1
  | x :: l' =>
      if callback x i then Z.of_nat i else findIndexFrom callback (S i) l'
  end.

Definition findIndex {A : Type} (callback : A -> nat -> bool) (l : list A) : Z :=
  findIndexFrom callback 0 l.

(** [l[i] = x] for an index inside the array.  Past the end JavaScript
    would extend the array; the one use below takes its index from
    [findIndex] on the same array, so that case does not arise, and the
    model leaves the list as it is there. *)
Fixpoint setIndex {A : Type} (i : nat) (x : A) (l : list A) : list A :=
  match l, i with
  | [], _ => []
  | _ :: l', O => x :: l'
  | y :: l', S i' => y :: setIndex i' x l'
  end.

(** [a < b] on numbers. *)
Definition Qlt_bool (a b : Q) : bool := negb (Qle_bool b a).

(** ** App.tsx *)

Module Audio.
(** The [<audio>] element behind [audioRef], as far as the handlers below
    read or change it. *)
Record t := mk {
  currentTime : Q;
  paused : bool
}.

Definition pause (a : t) : t := mk (currentTime a) true.
End Audio.

Module App.

Record Toast := mkToast {
  show : bool;
  message : JSString
}.

Record WordInfo := mkWordInfo {
  word : JSString;
  contextLine : JSString
}.

(** What [setTimeout] has scheduled. *)
Inductive Timer :=
| HideToast (delay : Z).

(** The cells of [useState] that the handlers below read or write, the
    element behind [audioRef], the item ['lyric-notes'] of [localStorage]
    and the pending timers.  The stored
    item is kept as the list that [JSON.stringify] was given: notes hold
    strings, numbers, arrays and optional strings only, and on such values
    [JSON.parse] gives back what [JSON.stringify] was given. *)
Record State := mkState {
  language : Language;
  lyrics : list LyricLine;
  currentTime : Q;
  isPlaying : bool;
  currentLineIndex : Z;
  selectedWordInfo : option WordInfo;
  selectedNote : option Note.t;
  isSidebarOpen : bool;
  notes : list Note.t;
  toast : Toast;
  audioRef : option Audio.t;
  localStorage : option (list Note.t);
  timers : list Timer
}.

Definition set_language (st : State) (v : Language) : State :=
  mkState v (lyrics st) (currentTime st) (isPlaying st) (currentLineIndex
    st) (selectedWordInfo st) (selectedNote st) (isSidebarOpen st) (notes
    st) (toast st) (audioRef st) (localStorage st) (timers st).

Definition set_lyrics (st : State) (v : list LyricLine) : State :=
  mkState (language st) v (currentTime st) (isPlaying st) (currentLineIndex
    st) (selectedWordInfo st) (selectedNote st) (isSidebarOpen st) (notes
    st) (toast st) (audioRef st) (localStorage st) (timers st).

Definition set_currentTime (st : State) (v : Q) : State :=
  mkState (language st) (lyrics st) v (isPlaying st) (currentLineIndex st)
    (selectedWordInfo st) (selectedNote st) (isSidebarOpen st) (notes st)
    (toast st) (audioRef st) (localStorage st) (timers st).

Definition set_isPlaying (st : State) (v : bool) : State :=
  mkState (language st) (lyrics st) (currentTime st) v (currentLineIndex st)
    (selectedWordInfo st) (selectedNote st) (isSidebarOpen st) (notes st)
    (toast st) (audioRef st) (localStorage st) (timers st).

Definition set_currentLineIndex (st : State) (v : Z) : State :=
  mkState (language st) (lyrics st) (currentTime st) (isPlaying st) v
    (selectedWordInfo st) (selectedNote st) (isSidebarOpen st) (notes st)
    (toast st) (audioRef st) (localStorage st) (timers st).

Definition set_selectedWordInfo (st : State) (v : option WordInfo) : State :=
  mkState (language st) (lyrics st) (currentTime st) (isPlaying st)
    (currentLineIndex st) v (selectedNote st) (isSidebarOpen st) (notes st)
    (toast st) (audioRef st) (localStorage st) (timers st).

Definition set_selectedNote (st : State) (v : option Note.t) : State :=
  mkState (language st) (lyrics st) (currentTime st) (isPlaying st)
    (currentLineIndex st) (selectedWordInfo st) v (isSidebarOpen st) (notes
    st) (toast st) (audioRef st) (localStorage st) (timers st).

Definition set_isSidebarOpen (st : State) (v : bool) : State :=
  mkState (language st) (lyrics st) (currentTime st) (isPlaying st)
    (currentLineIndex st) (selectedWordInfo st) (selectedNote st) v (notes
    st) (toast st) (audioRef st) (localStorage st) (timers st).

Definition set_notes (st : State) (v : list Note.t) : State :=
  mkState (language st) (lyrics st) (currentTime st) (isPlaying st)
    (currentLineIndex st) (selectedWordInfo st) (selectedNote st)
    (isSidebarOpen st) v (toast st) (audioRef st) (localStorage st) (timers
    st).

Definition set_toast (st : State) (v : Toast) : State :=
  mkState (language st) (lyrics st) (currentTime st) (isPlaying st)
    (currentLineIndex st) (selectedWordInfo st) (selectedNote st)
    (isSidebarOpen st) (notes st) v (audioRef st) (localStorage st) (timers
    st).

Definition set_audioRef (st : State) (v : option Audio.t) : State :=
  mkState (language st) (lyrics st) (currentTime st) (isPlaying st)
    (currentLineIndex st) (selectedWordInfo st) (selectedNote st)
    (isSidebarOpen st) (notes st) (toast st) v (localStorage st) (timers
    st).

Definition set_localStorage (st : State) (v : option (list Note.t)) : State :=
  mkState (language st) (lyrics st) (currentTime st) (isPlaying st)
    (currentLineIndex st) (selectedWordInfo st) (selectedNote st)
    (isSidebarOpen st) (notes st) (toast st) (audioRef st) v (timers st).

Definition set_timers (st : State) (v : list Timer) : State :=
  mkState (language st) (lyrics st) (currentTime st) (isPlaying st)
    (currentLineIndex st) (selectedWordInfo st) (selectedNote st)
    (isSidebarOpen st) (notes st) (toast st) (audioRef st) (localStorage st)
    v.


(** The state after the first render: the initial values of the cells,
    the audio element in place, and whatever the browser has stored. *)
Definition initialState (audio : Audio.t) (stored : option (list Note.t)) : State :=
  mkState zh [] 0 false 0 None None false [] (mkToast false []) (Some audio)
          stored [].

(** [showToastMessage] *)
Definition showToastMessage (st : State) (msg : JSString) : State :=
  let st := set_toast st (mkToast true msg) in
  set_timers st (timers st ++ [HideToast 3000]).

(** The two toast texts of [saveNoteToStorage]. *)
Definition addedToNotes_zh : JSString :=
  [0x5DF2; 0x6DFB; 0x52A0; 0x5230; 0x7B14; 0x8BB0; 0xFF01].
Definition addedToNotes_en : JSString := js "Added to notes!".

(** The effect that runs once on mount. *)
Definition loadNotes (st : State) : State :=
  match localStorage st with
  | Some savedNotes => set_notes st savedNotes
  | None => st
  end.

Definition saveNoteToStorage (st : State) (newNote : Note.t) : State :=
  let existingIndex :=
    findIndex (fun n _ => strictEq (Note.id n) (Note.id newNote)) (notes st) in
  let updatedNotes :=
    if 0 <=? existingIndex
    then setIndex (Z.to_nat existingIndex) newNote (notes st)
    else newNote :: notes st in
  let st := set_notes st updatedNotes in
  let st := set_localStorage st (Some updatedNotes) in
  let st := showToastMessage st
              (match language st with
               | zh => addedToNotes_zh
               | en => addedToNotes_en
               end) in
  set_selectedNote st (Some newNote).

Definition deleteNote (st : State) (id : JSString) : State :=
  let updatedNotes :=
    filter (fun n => negb (strictEq (Note.id n) id)) (notes st) in
  let st := set_notes st updatedNotes in
  set_localStorage st (Some updatedNotes).

(** The callback of [reader.onload] in [handleLrcUpload]; [intl] is the
    runtime the parser finds. *)
Definition onLrcLoad (intl : IntlEnv) (st : State) (text : JSString) : State :=
  let parsed := lyricsOf (parseLRC intl text) in
  set_lyrics st parsed.

(** The callback that [onTimeUpdate] gives to [findIndex]. *)
Definition isActiveLine (lyrics : list LyricLine) (time : Q)
    (line : LyricLine) (i : nat) : bool :=
  let nextLine := nth_error lyrics (i + 1) in
  Qle_bool (LrcParser.time line) time &&
  match nextLine with
  | None => true
  | Some nextLine => Qlt_bool time (LrcParser.time nextLine)
  end.

Definition onTimeUpdate (st : State) : State :=
  match audioRef st with
  | Some audio =>
      let time := Audio.currentTime audio in
      let st := set_currentTime st time in
      let index := findIndex (isActiveLine (lyrics st) time) (lyrics st) in
      if negb (index =? -1) && negb (index =? currentLineIndex st)
      then set_currentLineIndex st index
      else st
  | None => st
  end.

(** The character class of [handleWordClick]: full stop, comma,
    exclamation mark, question mark, semicolon, colon, double quote and
    the two round brackets. *)
Definition isPunctuation (c : CodeUnit) : bool :=
  (c =? 46) || (c =? 44) || (c =? 33) || (c =? 63) || (c =? 59) ||
  (c =? 58) || (c =? 34) || (c =? 40) || (c =? 41).

(** [word.trim()] with every character of that class removed (the
    regular expression is global and the replacement is empty). *)
Definition cleanWord (word : JSString) : JSString :=
  filter (fun c => negb (isPunctuation c)) (trim word).

(** [if (audioRef.current && isPlaying) { pause(); setIsPlaying(false) }] *)
Definition pauseIfPlaying (st : State) : State :=
  match audioRef st with
  | Some audio =>
      if isPlaying st
      then set_isPlaying (set_audioRef st (Some (Audio.pause audio))) false
      else st
  | None => st
  end.

Definition handleWordClick (st : State) (word contextLine : JSString) : State :=
  let cleanWord := cleanWord word in
  if (0 <? List.length cleanWord)%nat then
    let st := pauseIfPlaying st in
    let st := set_selectedNote st None in
    set_selectedWordInfo st (Some (mkWordInfo cleanWord contextLine))
  else st.

Definition handleNoteClick (st : State) (note : Note.t) : State :=
  let st := pauseIfPlaying st in
  let st := set_selectedNote st (Some note) in
  let st := set_selectedWordInfo st
              (Some (mkWordInfo (Note.word note) (Note.contextLine note))) in
  set_isSidebarOpen st false.

(** A line is shown as clickable tokens when
    [line.words && line.words.length > 0], as one block otherwise. *)
Definition showsTokens (line : LyricLine) : bool :=
  (0 <? List.length (words line))%nat.

End App.

(** ** Promises and [console.error] *)

Module Async.

(** An entry of [console.error]: a label, when the call gives one, and
    the error. *)
Inductive Logged :=
| ConsoleError (label : option string) (error : Exn).

(** An [async] function run to its end: how the promise settled
    ([Throw] is a rejection) and what was logged on the way. *)
Definition IO (A : Type) : Type := (Result A * list Logged)%type.

Definition ioRet {A} (a : A) : IO A := (Ok a, []).

Definition ioThrow {A} (e : Exn) : IO A := (Throw e, []).

Definition ioBind {A B} (m : IO A) (f : A -> IO B) : IO B :=
  match m with
  | (Ok a, out) => let (r, out') := f a in (r, out ++ out')
  | (Throw e, out) => (Throw e, out)
  end.

Definition ioTry {A} (m : IO A) (h : Exn -> IO A) : IO A :=
  match m with
  | (Ok a, out) => (Ok a, out)
  | (Throw e, out) => let (r, out') := h e in (r, out ++ out')
  end.

Definition consoleError (label : option string) (error : Exn) : IO unit :=
  (Ok tt, [ConsoleError label error]).

(** [await] on a call into the SDK, which logs nothing itself. *)
Definition await {A} (r : Result A) : IO A := (r, []).

(** A value of type [string | undefined] used as a condition. *)
Definition truthyOpt (o : option JSString) : bool :=
  match o with
  | Some s => truthy s
  | None => false
  end.

End Async.

(** ** services/geminiService.ts *)

Module GenerateRequest.
Inductive SchemaType := OBJECT | STRING.
Record Schema := mkSchema {
  type : SchemaType;
  properties : list (string * SchemaType);
  required : list string
}.
Record t := mk {
  model : string;
  contents : JSString;
  responseMimeType : string;
  responseSchema : Schema
}.
End GenerateRequest.

Module ChatRequest.
Record Part := mkPart { text : JSString }.
Record Content := mkContent {
  role : ChatMessage.Role;
  parts : list Part
}.
Record t := mk {
  model : string;
  systemInstruction : JSString;
  history : list Content;
  message : JSString
}.
End ChatRequest.

Module GeminiService.
Import Async.

(** The SDK and the runtime as the two functions meet them.
    [newGoogleGenAI] is what [new GoogleGenAI(...)] throws, if it throws.
    [generateContent] is the awaited call with the [text] of its
    response; [chatSendMessage] is [ai.chats.create] followed by the
    awaited [chat.sendMessage], with the [text] of its result.  Both may
    reject.  [jsonParse] is [JSON.parse] read as a [DefinitionData]. *)
Record Env := mkEnv {
  newGoogleGenAI : option Exn;
  generateContent : GenerateRequest.t -> Result (option JSString);
  jsonParse : JSString -> Result DefinitionData.t;
  chatSendMessage : ChatRequest.t -> Result (option JSString)
}.

Definition definitionSchema : GenerateRequest.Schema :=
  GenerateRequest.mkSchema GenerateRequest.OBJECT
    [("word", GenerateRequest.STRING);
     ("partOfSpeech", GenerateRequest.STRING);
     ("definition", GenerateRequest.STRING);
     ("exampleSentence", GenerateRequest.STRING);
     ("translation", GenerateRequest.STRING);
     ("pronunciation", GenerateRequest.STRING);
     ("romanization", GenerateRequest.STRING);
     ("furigana", GenerateRequest.STRING)]%string
    ["word"; "partOfSpeech"; "definition"; "exampleSentence"; "translation"]%string.

(** The template literal [prompt]. *)
Definition prompt (word contextLine : JSString) : JSString :=
  [LF] ++
  js "    Analyze the word " ++
  [34] ++
  word ++
  [34] ++
  js " found in the song lyric: " ++
  [34] ++
  contextLine ++
  [34] ++
  js "." ++
  [LF] ++
  js "    Provide the following details in JSON format:" ++
  [LF] ++
  js "    1. partOfSpeech: The grammatical part of speech." ++
  [LF] ++
  js "    2. definition: A concise definition." ++
  [LF] ++
  js "    3. translation: Translation of the word to Chinese." ++
  [LF] ++
  js "    4. exampleSentence: A new simple example sentence containing the word." ++
  [LF] ++
  js "    5. pronunciation: IPA or phonetic notation (e.g., /.../)." ++
  [LF] ++
  js "    6. romanization: Pinyin (for Chinese) or Romaji (for Japanese)." ++
  [LF] ++
  js "    7. furigana: The Hiragana reading if the word contains Japanese Kanji (e.g., " ++
  [34; 0x3072; 0x3068; 0x308A; 34] ++
  js " for " ++
  [34; 0x4E00; 0x4EBA; 34] ++
  js "), otherwise empty string." ++
  [LF] ++
  js "  ".

Definition definitionRequest (word contextLine : JSString) : GenerateRequest.t :=
  GenerateRequest.mk "gemini-2.5-flash"%string (prompt word contextLine)
                     "application/json"%string definitionSchema.

Definition getWordDefinition (env : Env) (word contextLine : JSString)
    : IO DefinitionData.t :=
  match newGoogleGenAI env with
  | Some e => ioThrow e
  | None =>
      ioTry
        (ioBind (await (generateContent env (definitionRequest word contextLine)))
           (fun text =>
              match text with
              | Some text =>
                  if truthy text then await (jsonParse env text)
                  else ioThrow "No response from AI"%string
              | None => ioThrow "No response from AI"%string
              end))
        (fun error =>
           ioBind (consoleError (Some "Error fetching definition:"%string) error)
                  (fun _ => ioThrow error))
  end.

(** The template literal [systemInstruction]. *)
Definition systemInstructionFor (wordContext : JSString) : JSString :=
  js "You are a helpful language tutor. The user is learning the word " ++
  [34] ++ wordContext ++ [34] ++
  js ". Keep answers concise and helpful.".

Definition historyForModel (history : list ChatMessage.t) : list ChatRequest.Content :=
  map (fun msg => ChatRequest.mkContent (ChatMessage.role msg)
                    [ChatRequest.mkPart (ChatMessage.text msg)])
      history.

(** What [getChatResponse] hands to the SDK. *)
Definition chatRequest (history : list ChatMessage.t)
    (newMessage wordContext : JSString) : ChatRequest.t :=
  ChatRequest.mk "gemini-2.5-flash"%string (systemInstructionFor wordContext)
                 (historyForModel history) newMessage.

Definition noResponseGenerated : JSString :=
  js "I couldn't generate a response.".

Definition sorryError : JSString := js "Sorry, I encountered an error.".

Definition getChatResponse (env : Env) (history : list ChatMessage.t)
    (newMessage wordContext : JSString) : IO JSString :=
  match newGoogleGenAI env with
  | Some e => ioThrow e
  | None =>
      ioTry
        (ioBind (await (chatSendMessage env
                          (chatRequest history newMessage wordContext)))
           (fun text =>
              ioRet (if truthyOpt text
                     then match text with Some t => t | None => [] end
                     else noResponseGenerated)))
        (fun error =>
           ioBind (consoleError (Some "Error in chat:"%string) error)
                  (fun _ => ioRet sorryError))
  end.

End GeminiService.

(** ** components/WordDetailModal.tsx *)

(** [n.toString()] for an integer [n]. *)
Definition numberToString (n : Z) : JSString :=
  js (DecimalString.NilZero.string_of_int (Z.to_int n)).

Module WordDetailModal.
Import Async.

Record Props := mkProps {
  word : JSString;
  contextLine : JSString;
  isOpen : bool;
  initialData : option Note.t;
  language : Language
}.

Record State := mkState {
  loading : bool;
  definitionData : option DefinitionData.t;
  chatHistory : list ChatMessage.t;
  chatInput : JSString;
  chatLoading : bool
}.

Definition initialState : State := mkState true None [] [] false.

(** What the effect on [isOpen, word, contextLine, initialData] starts. *)
Inductive Started :=
| NoFetch
| Fetch (word contextLine : JSString).

(** The synchronous part of that effect. *)
Definition openEffect (props : Props) (st : State) : State * Started :=
  let fetchNew :=
    (mkState true None [] (chatInput st) (chatLoading st),
     Fetch (word props) (contextLine props)) in
  if isOpen props && truthy (word props) then
    match initialData props with
    | Some saved =>
        if strictEq (Note.word saved) (word props)
        then (mkState false (Some (Note.definitionData saved))
                      (Note.chatHistory saved) (chatInput st) (chatLoading st),
              NoFetch)
        else fetchNew
    | None => fetchNew
    end
  else (st, NoFetch).

(** The [then] and [catch] callbacks of the fetch, run on the state the
    modal has when the promise settles. *)
Definition fetchSettled (st : State) (r : Result DefinitionData.t) : IO State :=
  match r with
  | Ok data =>
      ioRet (mkState false (Some data) (chatHistory st) (chatInput st)
                     (chatLoading st))
  | Throw err =>
      ioBind (consoleError None err)
             (fun _ => ioRet (mkState false (definitionData st) (chatHistory st)
                                      (chatInput st) (chatLoading st)))
  end.

(** [handleSave]: the note handed to [onSaveNote], if any.  [idNow] and
    [timestampNow] are what the two calls of [Date.now()] return. *)
Definition handleSave (idNow timestampNow : Z) (props : Props) (st : State)
    : option Note.t :=
  match definitionData st with
  | Some definitionData =>
      let id :=
        match initialData props with
        | Some saved =>
            if truthy (Note.id saved) then Note.id saved
            else numberToString idNow
        | None => numberToString idNow
        end in
      Some (Note.mk id (word props) definitionData (contextLine props)
                    (chatHistory st) timestampNow)
  | None => None
  end.

Inductive Lang := ja_JP | zh_CN | en_US.

Record Utterance := mkUtterance {
  utteranceText : JSString;
  lang : Lang
}.

(** [handlePlayAudio]: what is spoken once the pending speech is
    cancelled; nothing when the word is empty. *)
Definition handlePlayAudio (props : Props) (st : State) : option Utterance :=
  if negb (truthy (word props)) then None
  else
    let furigana :=
      match definitionData st with
      | Some d => DefinitionData.furigana d
      | None => None
      end in
    Some (mkUtterance (word props)
            (if truthyOpt furigana then ja_JP
             else if hasJapanese (word props) then ja_JP
             else if hasChineseChars (word props) then zh_CN
             else en_US)).

(** What [handleSendMessage] asks of the service. *)
Record ChatCall := mkChatCall {
  callHistory : list ChatMessage.t;
  callMessage : JSString;
  callWord : JSString
}.

(** [handleSendMessage] up to its [await]: nothing for a blank input,
    else the state with the user's message added and the call made. *)
Definition sendStart (props : Props) (st : State) : option (State * ChatCall) :=
  if negb (truthy (trim (chatInput st))) then None
  else
    let userMsg := ChatMessage.mk ChatMessage.user (chatInput st) in
    Some (mkState (loading st) (definitionData st) (chatHistory st ++ [userMsg])
                  [] true,
          mkChatCall (chatHistory st ++ [userMsg]) (chatInput st) (word props)).

(** [handleSendMessage] after its [await], run on the state the modal has
    by then: the updates are functions of the previous state. *)
Definition sendSettled (st : State) (r : Result JSString) : IO State :=
  let finally (st : State) :=
    mkState (loading st) (definitionData st) (chatHistory st) (chatInput st)
            false in
  match r with
  | Ok responseText =>
      let aiMsg := ChatMessage.mk ChatMessage.model responseText in
      ioRet (finally (mkState (loading st) (definitionData st)
                              (chatHistory st ++ [aiMsg]) (chatInput st)
                              (chatLoading st)))
  | Throw e =>
      ioBind (consoleError (Some "Chat error"%string) e)
             (fun _ => ioRet (finally st))
  end.

(** [handleSendMessage] when nothing else touches the modal while the
    request is pending. *)
Definition handleSendMessage (env : GeminiService.Env) (props : Props)
    (st : State) : IO State :=
  match sendStart props st with
  | None => ioRet st
  | Some (st, call) =>
      let (r, out) :=
        GeminiService.getChatResponse env (callHistory call) (callMessage call)
                                      (callWord call) in
      let (r', out') := sendSettled st r in
      (r', out ++ out')
  end.

End WordDetailModal.

(** ** How App.tsx wires the modal *)

(** The props that [App] gives to [WordDetailModal]. *)
Definition modalProps (app : App.State) : WordDetailModal.Props :=
  WordDetailModal.mkProps
    (match App.selectedWordInfo app with
     | Some info => App.word info
     | None => []
     end)
    (match App.selectedWordInfo app with
     | Some info => App.contextLine info
     | None => []
     end)
    (match App.selectedWordInfo app with
     | Some _ => true
     | None => false
     end)
    (App.selectedNote app)
    (App.language app).

(** A click on the save button: [handleSave] with [onSaveNote] bound to
    [saveNoteToStorage]. *)
Definition saveFromModal (idNow timestampNow : Z) (app : App.State)
    (modal : WordDetailModal.State) : App.State :=
  match WordDetailModal.handleSave idNow timestampNow (modalProps app) modal with
  | Some note => App.saveNoteToStorage app note
  | None => app
  end.

(** ** Notions used to describe the handlers *)

(** A character that [handleWordClick] keeps. *)
Definition isPunctuationFree (c : CodeUnit) : Prop := App.isPunctuation c = false.

(** The first note with a given id. *)
Definition noteById (id : JSString) (notes : list Note.t) : option Note.t :=
  find (fun n => strictEq (Note.id n) id) notes.

(** What can happen to the notes. *)
Inductive NotesOp :=
| SaveNote (newNote : Note.t)
| DeleteNote (id : JSString)
| Reload.

Definition applyNotesOp (st : App.State) (op : NotesOp) : App.State :=
  match op with
  | SaveNote newNote => App.saveNoteToStorage st newNote
  | DeleteNote id => App.deleteNote st id
  | Reload => App.loadNotes (App.initialState (Audio.mk 0 true) (App.localStorage st))
  end.

(** A note, as an example. *)
Definition example_definition : DefinitionData.t :=
  DefinitionData.mk (js "world") (js "noun") (js "the earth") (js "Hello, world")
                    [0x4E16; 0x754C] None None None.

Definition example_note : Note.t :=
  Note.mk (js "1700000000000") (js "world") example_definition
          (js "Hello world") [] 1700000000000.

(** A service that can be reached and answers every chat message. *)
Definition answeringService : GeminiService.Env :=
  GeminiService.mkEnv None (fun _ => Ok None)
                      (fun _ => Throw "SyntaxError"%string)
                      (fun _ => Ok (Some (js "It means the earth."))).

(** Three lines in order of time, and a player at 1.7 seconds. *)
Definition three_lines : list LyricLine :=
  [mkLyricLine 1 (js "a") [js "a"] false;
   mkLyricLine (3 # 2) (js "b") [js "b"] false;
   mkLyricLine 2 (js "c") [js "c"] false].

Definition playing_at (t : Q) (lyrics : list LyricLine) : App.State :=
  App.set_lyrics (App.initialState (Audio.mk t false) None) lyrics.

(** ** Further notions used to describe the parser *)

(** The test of the loop body: the line has a marker and some text is
    left once the marker is cut out and the rest trimmed. *)
Definition kept (line : JSString) : bool :=
  match exec line with
  | Some m => truthy (textOf line m)
  | None => false
  end.

(** The text the loop body extracts from a line with a marker. *)
Definition lineText (line : JSString) : JSString :=
  match exec line with
  | Some m => textOf line m
  | None => []
  end.

(** The tokens of a line are the characters of its text, one by one: a
    token is one code unit, every code unit of the text is a token, and
    the token is white space exactly when the code unit is. *)
Definition tokenPerCharacter (l : LyricLine) : Prop :=
  words l = map (fun c => [c]) (text l) /\
  (forall t, In t (words l) <-> exists c, t = [c] /\ In c (text l)) /\
  (forall t, In t (words l) -> t <> []) /\
  (forall c, In c (text l) ->
             In [c] (words l) /\ onlyWhiteSpace [c] = isWhiteSpace c).

(** A segmenter result in which whatever is marked word-like is a word:
    not empty and not made of white space only. *)
Definition properWord (sg : Segment) : Prop :=
  isWordLike sg = true -> segment sg <> [] /\ onlyWhiteSpace (segment sg) = false.

(** The exception that the segmenter throws on the text of an emitted
    line, if the line is Japanese and the segmenter is there and throws;
    and the warning that goes with it. *)
Definition failureOf (intl : IntlEnv) (l : LyricLine) : option Exn :=
  match intl with
  | IntlSegmenter seg =>
      if isJapanese l then
        match seg (text l) with
        | Throw e => Some e
        | Ok _ => None
        end
      else None
  | IntlUndefined => None
  end.

Definition segmenterFails (intl : IntlEnv) (l : LyricLine) : bool :=
  match failureOf intl l with
  | Some _ => true
  | None => false
  end.

Definition warningsOf (intl : IntlEnv) (l : LyricLine) : list Diagnostic :=
  match failureOf intl l with
  | Some e => [ConsoleWarn "Intl.Segmenter error" e]
  | None => []
  end.

(** The value of a digit, and the whole seconds of a marker:
    [minute * 60 + second] of the two groups of digits. *)
Definition digitValue (c : CodeUnit) : Z := c - ch_zero.

Definition wholeSeconds (g1 g2 : JSString) : Q :=
  Double.add (Double.mul (inject_Z (parseInt10 g1)) 60) (inject_Z (parseInt10 g2)).

(** The emitted lines in the order of the file, before the sort. *)
Definition inFileOrder (intl : IntlEnv) (lrcContent : JSString) : list LyricLine :=
  flat_map (lineLyrics intl) (splitOn LF lrcContent).

(** The lines that become active at time [t]. *)
Definition sameTime (t : Q) (l : LyricLine) : bool := Qeq_bool (time l) t.

(** What a line holds apart from its tokens. *)
Definition untokenized (l : LyricLine) : Q * JSString * bool :=
  (time l, text l, isJapanese l).

(** The three outcomes of a line, console included: nothing; one element
    and a silent console; one element that fell back to its characters and
    one warning. *)
Inductive LineOutcome (intl : IntlEnv) (line : JSString) : Prop :=
| line_skipped :
    lineLyrics intl line = [] -> lineLog intl line = [] ->
    LineOutcome intl line
| line_quiet (l : LyricLine) :
    lineLyrics intl line = [l] -> lineLog intl line = [] ->
    (forall seg e, intl = IntlSegmenter seg -> isJapanese l = true ->
                   seg (text l) <> Throw e) ->
    LineOutcome intl line
| line_degraded (l : LyricLine) seg e :
    lineLyrics intl line = [l] ->
    lineLog intl line = [ConsoleWarn "Intl.Segmenter error" e] ->
    intl = IntlSegmenter seg -> isJapanese l = true ->
    seg (text l) = Throw e ->
    LineOutcome intl line.

(** * Properties of the rounding *)

Section DoubleFacts.
Local Open Scope Q_scope.

Lemma roundHalfEven_bounds (x : Q) :
  inject_Z (Double.roundHalfEven x) <= x + (1 # 2) /\
  x - (1 # 2) <= inject_Z (Double.roundHalfEven x) /\
  (0 <= x -> (0 <= Double.roundHalfEven x)%Z).
Proof.
  unfold Double.roundHalfEven.
  pose proof (Qfloor_le x) as Hlo; pose proof (Qlt_floor x) as Hhi.
  rewrite inject_Z_plus in Hhi; change (inject_Z 1) with 1 in Hhi.
  assert (Hnn : 0 <= x -> (0 <= Qfloor x)%Z).
  { intros H; apply (Qfloor_resp_le 0 x) in H; exact H. }
  destruct (x - inject_Z (Qfloor x) ?= 1 # 2) eqn:E.
  - apply Qeq_alt in E.
    destruct (Z.even (Qfloor x)); rewrite ?inject_Z_plus;
      change (inject_Z 1) with 1;
      (split; [lra | split; [lra | intros H; specialize (Hnn H); lia]]).
  - apply Qlt_alt in E; split; [lra | split; [lra | exact Hnn]].
  - apply Qgt_alt in E; rewrite inject_Z_plus; change (inject_Z 1) with 1.
    split; [lra | split; [lra | intros H; specialize (Hnn H); lia]].
Qed.

Lemma pow2_pos (e : Z) : 0 < 2 ^ e.
Proof. apply Qpower_0_lt; reflexivity. Qed.

Lemma Qmake_as_div (a : Z) (b : positive) :
  a # b == inject_Z a / inject_Z (Z.pos b).
Proof. apply Qmake_Qdiv. Qed.

Lemma floorLog2_spec (q : Q) :
  0 < q -> 2 ^ Double.floorLog2 q <= q /\ q < 2 ^ (Double.floorLog2 q + 1).
Proof.
  intros Hq; unfold Double.floorLog2.
  destruct q as [a b]; cbn [Qnum Qden].
  assert (Ha : (0 < a)%Z) by (unfold Qlt in Hq; simpl in Hq; lia).
  destruct (Z.log2_spec a Ha) as [Ha1 Ha2].
  destruct (Z.log2_spec (Z.pos b) eq_refl) as [Hb1 Hb2].
  pose proof (Z.log2_nonneg a) as Hla; pose proof (Z.log2_nonneg (Z.pos b)) as Hlb.
  set (la := Z.log2 a) in *; set (lb := Z.log2 (Z.pos b)) in *.
  assert (Qa1 : 2 ^ la <= inject_Z a).
  { rewrite <- (Zpower_Qpower 2 la) by lia; now rewrite <- Zle_Qle. }
  assert (Qa2 : inject_Z a < 2 ^ (la + 1)).
  { rewrite <- (Zpower_Qpower 2 (la + 1)) by lia.
    rewrite <- Zlt_Qlt; replace (la + 1)%Z with (Z.succ la) by lia; exact Ha2. }
  assert (Qb1 : 2 ^ lb <= inject_Z (Z.pos b)).
  { rewrite <- (Zpower_Qpower 2 lb) by lia; now rewrite <- Zle_Qle. }
  assert (Qb2 : inject_Z (Z.pos b) < 2 ^ (lb + 1)).
  { rewrite <- (Zpower_Qpower 2 (lb + 1)) by lia.
    rewrite <- Zlt_Qlt; replace (lb + 1)%Z with (Z.succ lb) by lia; exact Hb2. }
  assert (Hb0 : 0 < inject_Z (Z.pos b)) by reflexivity.
  assert (Hlow : 2 ^ (la - lb - 1) <= a # b).
  { rewrite (Qmake_as_div a b).
    apply Qle_shift_div_l; [exact Hb0|].
    apply Qle_trans with (2 ^ (la - lb - 1) * 2 ^ (lb + 1)).
    - apply Qmult_le_l; [apply pow2_pos | apply Qlt_le_weak, Qb2].
    - rewrite <- Qpower_plus by discriminate.
      replace (la - lb - 1 + (lb + 1))%Z with la by lia; exact Qa1. }
  assert (Hupp : a # b < 2 ^ (la - lb + 1)).
  { rewrite (Qmake_as_div a b).
    apply Qlt_shift_div_r; [exact Hb0|].
    apply Qlt_le_trans with (2 ^ (la + 1)); [exact Qa2|].
    replace (la + 1)%Z with (la - lb + 1 + lb)%Z by lia.
    rewrite Qpower_plus by discriminate.
    apply Qmult_le_l; [apply pow2_pos | exact Qb1]. }
  destruct (Qle_bool (2 ^ (la - lb)) (a # b)) eqn:T.
  - apply Qle_bool_iff in T; split; assumption.
  - split; [exact Hlow|].
    replace (la - lb - 1 + 1)%Z with (la - lb)%Z by lia.
    apply Qnot_le_lt; intros H; apply Qle_bool_iff in H; congruence.
Qed.

Lemma pow2_le (n m : Z) : (n <= m)%Z -> 2 ^ n <= 2 ^ m.
Proof.
  intros H; replace m with (n + (m - n))%Z by lia.
  rewrite Qpower_plus by discriminate.
  rewrite <- (Qmult_1_r (2 ^ n)) at 1.
  apply Qmult_le_l; [apply pow2_pos|].
  apply Qpower_1_le; [discriminate | lia].
Qed.

Lemma floorLog2_unique (q : Q) (L : Z) :
  2 ^ L <= q -> q < 2 ^ (L + 1) -> Double.floorLog2 q = L.
Proof.
  intros H1 H2.
  assert (Hq : 0 < q) by (apply Qlt_le_trans with (2 ^ L); [apply pow2_pos | exact H1]).
  destruct (floorLog2_spec q Hq) as [S1 S2].
  destruct (Z.lt_trichotomy (Double.floorLog2 q) L) as [Hlt|[Heq|Hgt]]; [|exact Heq|].
  - exfalso; pose proof (pow2_le (Double.floorLog2 q + 1) L ltac:(lia)); lra.
  - exfalso; pose proof (pow2_le (L + 1) (Double.floorLog2 q) ltac:(lia)); lra.
Qed.

Lemma floorLog2_comp (q q' : Q) :
  0 < q -> q == q' -> Double.floorLog2 q = Double.floorLog2 q'.
Proof.
  intros Hq E; symmetry; apply floorLog2_unique;
    destruct (floorLog2_spec q Hq); rewrite <- E; assumption.
Qed.

Lemma roundHalfEven_comp (x x' : Q) :
  x == x' -> Double.roundHalfEven x = Double.roundHalfEven x'.
Proof.
  intros E; unfold Double.roundHalfEven.
  rewrite (Qfloor_comp x x' E).
  assert (E' : x - inject_Z (Qfloor x') == x' - inject_Z (Qfloor x')) by now rewrite E.
  now rewrite (Qcompare_comp _ _ E' (1 # 2) (1 # 2) (Qeq_refl _)).
Qed.

Lemma nearest_comp (q q' : Q) : 0 < q -> q == q' -> Double.nearest q = Double.nearest q'.
Proof.
  intros Hq E; unfold Double.nearest.
  rewrite <- (floorLog2_comp q q' Hq E).
  set (e := Z.max (Double.floorLog2 q - 52) (-1074)).
  apply Qred_complete.
  rewrite (roundHalfEven_comp (q / 2 ^ e) (q' / 2 ^ e)); [reflexivity|].
  now rewrite E.
Qed.

(** The double of a number does not depend on how the number is written. *)
Lemma toDouble_comp (q q' : Q) : q == q' -> Double.toDouble q = Double.toDouble q'.
Proof.
  intros E; unfold Double.toDouble.
  rewrite <- (Qcompare_comp q q' E 0 0 (Qeq_refl 0)).
  destruct (q ?= 0) eqn:C; [reflexivity| |].
  - apply Qlt_alt in C; f_equal; apply nearest_comp; [lra | now rewrite E].
  - apply Qgt_alt in C; now apply nearest_comp.
Qed.

Lemma nearest_bounds (q : Q) :
  0 < q ->
  0 <= Double.nearest q /\
  Double.nearest q <= q + q * 2 ^ (-53) + 2 ^ (-1075) /\
  q - q * 2 ^ (-53) - 2 ^ (-1075) <= Double.nearest q.
Proof.
  intros Hq; unfold Double.nearest; rewrite Qred_correct.
  destruct (floorLog2_spec q Hq) as [HL _].
  set (L := Double.floorLog2 q) in *.
  set (e := Z.max (L - 52) (-1074)).
  pose proof (pow2_pos e) as HP.
  destruct (roundHalfEven_bounds (q / 2 ^ e)) as (Hup & Hlo & Hnn).
  set (m := Double.roundHalfEven (q / 2 ^ e)) in *.
  assert (Hx : q / 2 ^ e * 2 ^ e == q) by (field; lra).
  assert (He : 2 ^ e * (1 # 2) <= q * 2 ^ (-53) + 2 ^ (-1075)).
  { assert (H53 : 2 ^ (L - 52) * (1 # 2) == 2 ^ L * 2 ^ (-53)).
    { replace (L - 52)%Z with (L + (-52))%Z by lia.
      rewrite Qpower_plus by discriminate.
      setoid_replace (2 ^ (-53)) with (2 ^ (-52) * (1 # 2)) by reflexivity.
      ring. }
    pose proof (pow2_pos (-53)) as H53p; pose proof (pow2_pos (-1075)) as Htp.
    assert (Hm : 2 ^ L * 2 ^ (-53) <= q * 2 ^ (-53)).
    { apply Qmult_le_compat_r; [exact HL | lra]. }
    unfold e; destruct (Z.max_spec (L - 52) (-1074)) as [[_ ->]|[_ ->]].
    - setoid_replace (2 ^ (-1074) * (1 # 2)) with (2 ^ (-1075)) by reflexivity.
      assert (0 <= q * 2 ^ (-53)) by (apply Qmult_le_0_compat; lra). lra.
    - rewrite H53; lra. }
  assert (Hmul1 : inject_Z m * 2 ^ e <= (q / 2 ^ e + (1 # 2)) * 2 ^ e).
  { apply Qmult_le_compat_r; lra. }
  assert (Hmul2 : (q / 2 ^ e - (1 # 2)) * 2 ^ e <= inject_Z m * 2 ^ e).
  { apply Qmult_le_compat_r; lra. }
  split; [|split].
  - apply Qmult_le_0_compat; [|lra].
    change 0 with (inject_Z 0); rewrite <- Zle_Qle; apply Hnn.
    apply Qle_shift_div_l; lra.
  - rewrite Qmult_plus_distr_l, Hx in Hmul1; lra.
  - assert (E : (q / 2 ^ e - (1 # 2)) * 2 ^ e == q - 2 ^ e * (1 # 2)).
    { rewrite <- Hx at 2; ring. }
    rewrite E in Hmul2; lra.
Qed.

Lemma toDouble_bounds (q : Q) :
  0 <= q ->
  0 <= Double.toDouble q /\
  Double.toDouble q <= q + q * 2 ^ (-53) + 2 ^ (-1075).
Proof.
  intros Hq; unfold Double.toDouble.
  destruct (q ?= 0) eqn:C.
  - apply Qeq_alt in C; rewrite C; split; [lra|].
    pose proof (pow2_pos (-1075)); pose proof (pow2_pos (-53)).
    setoid_replace (0 * 2 ^ (-53)) with 0 by ring. lra.
  - apply Qlt_alt in C; lra.
  - apply Qgt_alt in C; destruct (nearest_bounds q C) as (H1 & H2 & _); auto.
Qed.

Lemma toDouble_slack (q : Q) :
  0 <= q -> q <= 10000 ->
  0 <= Double.toDouble q /\ Double.toDouble q <= q + (1 # 1000000000).
Proof.
  intros H0 H1; destruct (toDouble_bounds q H0) as [Ha Hb]; split; [exact Ha|].
  assert (Hd : 2 ^ (-53) <= 1 # 1000000000000000) by (apply Qle_bool_iff; vm_compute; reflexivity).
  assert (Ht : 2 ^ (-1075) <= 1 # 1000000000000000) by (apply Qle_bool_iff; vm_compute; reflexivity).
  pose proof (pow2_pos (-53)) as Hp.
  assert (Hm : q * 2 ^ (-53) <= 10000 * (1 # 1000000000000000)).
  { apply Qle_trans with (10000 * 2 ^ (-53)).
    - apply Qmult_le_compat_r; lra.
    - apply Qmult_le_l; [reflexivity | exact Hd]. }
  lra.
Qed.

End DoubleFacts.

(** * Properties of the string primitives *)

Section StringFacts.

Lemma trimStart_head (s : JSString) (c : CodeUnit) (r : JSString) :
  trimStart s = c :: r -> isWhiteSpace c = false.
Proof.
  induction s as [|a s IH]; simpl; [discriminate|].
  destruct (isWhiteSpace a) eqn:Ha; [exact IH|].
  intros [= <- _]; exact Ha.
Qed.

Lemma trimStart_snoc (s : JSString) (h : CodeUnit) :
  isWhiteSpace h = false -> trimStart (s ++ [h]) = trimStart s ++ [h].
Proof.
  intros Hh; induction s as [|a s IH]; simpl.
  - now rewrite Hh.
  - destruct (isWhiteSpace a); [exact IH | reflexivity].
Qed.

Lemma trimEnd_last (s : JSString) (d : CodeUnit) :
  trimEnd s <> [] -> isWhiteSpace (last (trimEnd s) d) = false.
Proof.
  unfold trimEnd; intros Hne.
  destruct (trimStart (rev s)) as [|c r] eqn:E; [now elim Hne|].
  simpl; rewrite last_last.
  exact (trimStart_head _ _ _ E).
Qed.

Lemma trimEnd_head (c : CodeUnit) (s : JSString) :
  isWhiteSpace c = false -> exists r, trimEnd (c :: s) = c :: r.
Proof.
  intros Hc; unfold trimEnd; simpl.
  rewrite (trimStart_snoc _ _ Hc), rev_app_distr; simpl.
  eauto.
Qed.

(** A trimmed text that is not empty starts and ends with a character
    that is not white space. *)
Lemma trim_ends (s : JSString) (d : CodeUnit) :
  trim s <> [] ->
  isWhiteSpace (hd d (trim s)) = false /\
  isWhiteSpace (last (trim s) d) = false.
Proof.
  unfold trim; intros Hne; split; [|now apply trimEnd_last].
  destruct (trimStart s) as [|c r] eqn:E; [now elim Hne|].
  destruct (trimEnd_head c r (trimStart_head _ _ _ E)) as [r' ->].
  exact (trimStart_head _ _ _ E).
Qed.

(** [trim] removes a trailing carriage return. *)
Lemma trim_never_ends_with_CR (s : JSString) :
  last (trim s) 0 <> CR /\ hd 0 (trim s) <> CR.
Proof.
  destruct (trim s) as [|c r] eqn:E; [split; discriminate|].
  assert (Hne : trim s <> []) by now rewrite E.
  destruct (trim_ends s 0 Hne) as [Hh Hl]; rewrite E in Hh, Hl.
  split; intros Hc; [rewrite Hc in Hl | simpl in Hc, Hh; rewrite Hc in Hh];
    discriminate.
Qed.

Lemma splitOn_not_nil (sep : CodeUnit) (s : JSString) : splitOn sep s <> [].
Proof.
  destruct s as [|c s]; simpl; [discriminate|].
  destruct (c =? sep); [discriminate|].
  destruct (splitOn sep s); discriminate.
Qed.

(** Splitting loses nothing but the separators: putting one back between
    the pieces gives the string again. *)
Lemma splitOn_join (sep : CodeUnit) (s : JSString) :
  match splitOn sep s with
  | [] => False
  | p :: ps => p ++ flat_map (fun q => sep :: q) ps = s
  end.
Proof.
  induction s as [|c s IH]; simpl; [reflexivity|].
  destruct (Z.eqb_spec c sep) as [->|Hc].
  - destruct (splitOn sep s) as [|p ps]; [contradiction|].
    simpl; now rewrite IH.
  - destruct (splitOn sep s) as [|p ps]; [contradiction|].
    simpl; now rewrite IH.
Qed.

(** Only the separator cuts: no piece holds one, and every other
    character of the string stays in its piece. *)
Lemma splitOn_pieces (sep : CodeUnit) (s : JSString) :
  Forall (fun p => ~ In sep p) (splitOn sep s).
Proof.
  induction s as [|c s IH]; simpl.
  - constructor; [intros []|constructor].
  - destruct (Z.eqb_spec c sep) as [->|Hc].
    + constructor; [intros []|exact IH].
    + pose proof (splitOn_not_nil sep s) as Hn.
      destruct (splitOn sep s) as [|p ps]; [now elim Hn|].
      inversion IH; subst.
      constructor; [|assumption].
      intros [<-|Hin]; [now apply Hc | contradiction].
Qed.

Lemma splitWS_not_nil (b : bool) (s : JSString) : splitWS b s <> [].
Proof.
  revert b; induction s as [|c s IH]; intros b; simpl; [discriminate|].
  destruct (isWhiteSpace c).
  - destruct b; [apply IH | discriminate].
  - destruct (splitWS false s); discriminate.
Qed.

Lemma splitWS_noWhiteSpace (b : bool) (s : JSString) :
  Forall (fun t => noWhiteSpace t = true) (splitWS b s).
Proof.
  revert b; induction s as [|c s IH]; intros b; simpl.
  - repeat constructor.
  - destruct (isWhiteSpace c) eqn:Hc.
    + destruct b; [apply IH | constructor; [reflexivity | apply IH]].
    + specialize (IH false).
      pose proof (splitWS_not_nil false s) as Hn.
      destruct (splitWS false s) as [|p ps]; [now elim Hn|].
      inversion IH; subst.
      constructor; [|assumption].
      unfold noWhiteSpace in *; simpl; now rewrite Hc.
Qed.

(** When the string ends with a character that is not white space, only
    the first piece can be empty, and only when no run of white space was
    being skipped. *)
Lemma splitWS_pieces (s : JSString) :
  isWhiteSpace (last s 32) = false ->
  Forall (fun t => t <> []) (splitWS true s) /\
  Forall (fun t => t <> []) (tl (splitWS false s)).
Proof.
  induction s as [|c s IH]; [discriminate|].
  intros Hlast.
  assert (Hs : s = [] \/ isWhiteSpace (last s 32) = false).
  { destruct s; [now left | right; exact Hlast]. }
  simpl splitWS.
  destruct (isWhiteSpace c) eqn:Hc.
  - destruct Hs as [->|Hs]; [simpl in Hlast; congruence|].
    destruct (IH Hs) as [IH1 _]; split; assumption.
  - destruct Hs as [->|Hs].
    + simpl; split; repeat constructor; discriminate.
    + destruct (IH Hs) as [_ IH2].
      destruct (splitWS false s) as [|p ps]; simpl in *;
        split; repeat constructor; try discriminate; assumption.
Qed.

(** Splitting a trimmed, non-empty text at white space gives at least
    one piece, and every piece is non-empty and free of white space. *)
Lemma splitSpaces_trimmed (s : JSString) :
  trim s <> [] ->
  splitSpaces (trim s) <> [] /\
  Forall (fun t => t <> [] /\ noWhiteSpace t = true) (splitSpaces (trim s)).
Proof.
  intros Hne; split; [apply splitWS_not_nil|].
  destruct (trim_ends s 32 Hne) as [Hh Hl].
  destruct (splitWS_pieces _ Hl) as [_ Htl].
  pose proof (splitWS_noWhiteSpace false (trim s)) as Hws.
  unfold splitSpaces in *.
  destruct (trim s) as [|c r]; [now elim Hne|].
  simpl in Hh; simpl splitWS in *; rewrite Hh in *.
  destruct (splitWS false r) as [|p ps]; simpl in *.
  - repeat constructor; [discriminate | now inversion Hws].
  - inversion Hws; subst; constructor; [split; [discriminate|assumption]|].
    rewrite Forall_forall in *; intros t Ht; split; auto.
Qed.

End StringFacts.

(** * Properties of the regular expression *)

Section RegexFacts.

Lemma matchTail_prefix (s : JSString) (f : option JSString) (tl : JSString) :
  matchTail s = Some (f, tl) -> s = tl ++ skipn (List.length tl) s.
Proof.
  unfold matchTail.
  destruct s as [|a [|b [|c [|d [|e s]]]]]; cbn [firstn skipn];
    repeat match goal with
           | |- context [if ?b then _ else _] => destruct b
           end;
    intros [= <- <-]; reflexivity.
Qed.

Lemma matchHere_prefix (i : nat) (s : JSString) (m : RegExpMatch) :
  matchHere i s = Some m ->
  index m = i /\ s = matched m ++ skipn (List.length (matched m)) s.
Proof.
  unfold matchHere.
  destruct s as [|l [|m1 [|m2 [|c [|s1 [|s2 rest]]]]]]; try discriminate.
  destruct (_ && _); [|discriminate].
  destruct (matchTail rest) as [[frac tl]|] eqn:E; [|discriminate].
  intros [= <-]; split; [reflexivity|].
  cbn [matched List.length skipn app].
  now rewrite <- (matchTail_prefix _ _ _ E).
Qed.

Lemma execFrom_split (s : JSString) (i : nat) (m : RegExpMatch) :
  execFrom i s = Some m ->
  exists pre post,
    s = pre ++ matched m ++ post /\ index m = (i + List.length pre)%nat.
Proof.
  revert i; induction s as [|c s IH]; intros i.
  - discriminate.
  - change (execFrom i (c :: s))
      with (match matchHere i (c :: s) with
            | Some m' => Some m'
            | None => execFrom (S i) s
            end).
    destruct (matchHere i (c :: s)) eqn:E.
    + intros [= ->]; apply matchHere_prefix in E; destruct E as [Hi Hs].
      exists [], (skipn (List.length (matched m)) (c :: s)).
      simpl; split; [exact Hs|lia].
    + intros H; destruct (IH _ H) as (pre & post & -> & Hi).
      exists (c :: pre), post; simpl; split; [reflexivity|lia].
Qed.

(** [replace] cuts the text that [exec] matched out of the line and
    keeps what stands before and after it. *)
Lemma exec_replace (s : JSString) (m : RegExpMatch) :
  exec s = Some m ->
  exists pre post,
    s = pre ++ matched m ++ post /\ replaceMatch s m = pre ++ post.
Proof.
  intros H; destruct (execFrom_split _ _ _ H) as (pre & post & Hs & Hi).
  exists pre, post; split; [exact Hs|].
  unfold replaceMatch; rewrite Hi; simpl Nat.add.
  rewrite Hs at 1 2.
  rewrite firstn_app, Nat.sub_diag, firstn_all, firstn_O, app_nil_r.
  rewrite app_assoc, <- length_app, skipn_app, skipn_all, Nat.sub_diag.
  reflexivity.
Qed.

Lemma isDigit_range (c : CodeUnit) :
  isDigit c = true -> 0 <= c - ch_zero <= 9.
Proof.
  unfold isDigit, ch_zero; rewrite andb_true_iff, !Z.leb_le; lia.
Qed.

Lemma parseInt10_two (a b : CodeUnit) :
  isDigit a = true -> isDigit b = true ->
  parseInt10 [a; b] = (a - ch_zero) * 10 + (b - ch_zero).
Proof.
  intros Ha Hb; unfold parseInt10; cbn [takeDigits].
  rewrite Ha, Hb; cbn [fold_left]; lia.
Qed.

Lemma parseInt10_three (a b c : CodeUnit) :
  isDigit a = true -> isDigit b = true -> isDigit c = true ->
  parseInt10 [a; b; c] =
    (a - ch_zero) * 100 + (b - ch_zero) * 10 + (c - ch_zero).
Proof.
  intros Ha Hb Hc; unfold parseInt10; cbn [takeDigits].
  rewrite Ha, Hb, Hc; cbn [fold_left]; lia.
Qed.

Lemma matchTail_shape (s : JSString) (f : option JSString) (tl : JSString) :
  matchTail s = Some (f, tl) -> fractionShape f.
Proof.
  unfold matchTail.
  destruct s as [|d [|f1 [|f2 [|f3 [|r s]]]]]; cbn [firstn skipn];
    repeat match goal with
           | |- context [if ?b then _ else _] => destruct b eqn:?
           end;
    intros [= <- <-]; try constructor;
    repeat match goal with
           | H : _ && _ = true |- _ => apply andb_true_iff in H; destruct H
           end; assumption.
Qed.

Lemma exec_shape (s : JSString) (m : RegExpMatch) :
  exec s = Some m ->
  (exists a b, group1 m = [a; b] /\ isDigit a = true /\ isDigit b = true) /\
  (exists a b, group2 m = [a; b] /\ isDigit a = true /\ isDigit b = true) /\
  fractionShape (group4 m).
Proof.
  unfold exec; generalize 0%nat; induction s as [|c s IH]; intros i.
  - discriminate.
  - change (execFrom i (c :: s))
      with (match matchHere i (c :: s) with
            | Some m' => Some m'
            | None => execFrom (S i) s
            end).
    destruct (matchHere i (c :: s)) eqn:E; [|apply IH].
    intros [= ->]; revert E; unfold matchHere.
    destruct s as [|m1 [|m2 [|k [|s1 [|s2 rest]]]]]; try discriminate.
    destruct (_ && _) eqn:B; [|discriminate].
    destruct (matchTail rest) as [[frac tl]|] eqn:T; [|discriminate].
    intros [= <-]; cbn [group1 group2 group4].
    repeat match goal with
           | H : _ && _ = true |- _ => apply andb_true_iff in H; destruct H
           end.
    repeat split; eauto using matchTail_shape.
Qed.

(** The three integers of a marker: two digits of minutes, two digits of
    seconds, and the fraction counted in thousandths. *)
Lemma timeOf_parts (s : JSString) (m : RegExpMatch) :
  exec s = Some m ->
  exists minute second millisecond,
    0 <= minute <= 99 /\ 0 <= second <= 99 /\ 0 <= millisecond <= 999 /\
    timeOf m =
      Double.add (Double.add (Double.mul (inject_Z minute) 60) (inject_Z second))
                 (Double.div (inject_Z millisecond) 1000).
Proof.
  intros H; unfold timeOf.
  destruct (exec_shape _ _ H) as ((a & b & -> & Ha & Hb) &
                                  (c & d & -> & Hc & Hd) & Hf).
  rewrite (parseInt10_two a b Ha Hb), (parseInt10_two c d Hc Hd).
  apply isDigit_range in Ha, Hb, Hc, Hd.
  exists ((a - ch_zero) * 10 + (b - ch_zero)), ((c - ch_zero) * 10 + (d - ch_zero)).
  destruct Hf as [|e f He Hf|e f g He Hf Hg].
  - exists 0; repeat split; lia.
  - unfold padEnd; cbn [List.length Nat.sub repeat app].
    rewrite (parseInt10_three e f ch_zero He Hf eq_refl).
    apply isDigit_range in He, Hf.
    eexists; repeat split; try lia; unfold ch_zero in *; lia.
  - unfold padEnd; cbn [List.length Nat.sub repeat app].
    rewrite (parseInt10_three e f g He Hf Hg).
    apply isDigit_range in He, Hf, Hg.
    eexists; repeat split; lia.
Qed.

(** Such a sum of doubles is at least 0 and stays below 6040. *)
Lemma time_sum_range (minute second millisecond : Z) :
  0 <= minute <= 99 -> 0 <= second <= 99 -> 0 <= millisecond <= 999 ->
  (0 <= Double.add (Double.add (Double.mul (inject_Z minute) 60) (inject_Z second))
                   (Double.div (inject_Z millisecond) 1000) < 6040)%Q.
Proof.
  intros [Hm0 Hm1] [Hs0 Hs1] [Hf0 Hf1].
  rewrite Zle_Qle in Hm0, Hm1, Hs0, Hs1, Hf0, Hf1.
  change (inject_Z 0) with 0%Q in *.
  change (inject_Z 99) with 99%Q in *; change (inject_Z 999) with 999%Q in *.
  unfold Double.add, Double.mul, Double.div, Qdiv.
  change (/ 1000)%Q with (1 # 1000)%Q.
  generalize dependent (inject_Z minute); intros mm Hm0 Hm1.
  generalize dependent (inject_Z second); intros ss Hs0 Hs1.
  generalize dependent (inject_Z millisecond); intros ms Hf0 Hf1.
  destruct (toDouble_slack (mm * 60) ltac:(lra) ltac:(lra)) as [A0 A1].
  set (A := Double.toDouble (mm * 60)) in *.
  destruct (toDouble_slack (A + ss) ltac:(lra) ltac:(lra)) as [B0 B1].
  set (B := Double.toDouble (A + ss)) in *.
  destruct (toDouble_slack (ms * (1 # 1000)) ltac:(lra) ltac:(lra)) as [C0 C1].
  set (C := Double.toDouble (ms * (1 # 1000))) in *.
  destruct (toDouble_slack (B + C) ltac:(lra) ltac:(lra)) as [T0 T1].
  split; lra.
Qed.

Lemma timeOf_range (s : JSString) (m : RegExpMatch) :
  exec s = Some m -> (0 <= timeOf m < 6040)%Q.
Proof.
  intros H; destruct (timeOf_parts s m H) as (mm & ss & ms & Hm & Hs & Hf & ->).
  now apply time_sum_range.
Qed.

(** The sum is rounded as the source rounds it: the time of [[00:01.14]] is
    the double above the number 1.14, and the time of [[00:01.118]] is the
    double below the number 1.118. *)
Example rounded_times :
  timeOf (mkMatch 0 (js "[00:01.14]") (js "00") (js "01") (Some (js "14"))) =
    (2567051787601183 # 2251799813685248)%Q /\
  (Double.toDouble 1.14 <
   timeOf (mkMatch 0 (js "[00:01.14]") (js "00") (js "01") (Some (js "14"))))%Q /\
  (timeOf (mkMatch 0 (js "[00:01.118]") (js "00") (js "01") (Some (js "118"))) <
   Double.toDouble 1.118)%Q /\
  timeOf (mkMatch 0 (js "[00:01.118]") (js "00") (js "01") (Some (js "118"))) =
    Double.toDouble 1.1179999999999999.
Proof.
  split; [vm_compute; reflexivity|].
  split; [vm_compute; reflexivity|].
  split; vm_compute; reflexivity.
Qed.

End RegexFacts.

(** * Properties of the sort *)

Section SortFacts.

Lemma insertSorted_perm {A : Type} (cmp : A -> A -> Q) (x : A) (l : list A) :
  Permutation (x :: l) (insertSorted cmp x l).
Proof.
  induction l as [|y l IH]; simpl; [reflexivity|].
  destruct (cmp x y ?= 0)%Q; try reflexivity.
  rewrite perm_swap; now constructor.
Qed.

Lemma sortBy_perm {A : Type} (cmp : A -> A -> Q) (l : list A) :
  Permutation l (sortBy cmp l).
Proof.
  induction l as [|x l IH]; simpl; [constructor|].
  rewrite <- insertSorted_perm; now constructor.
Qed.

Lemma byTime_after (a b : LyricLine) :
  (byTime a b ?= 0)%Q = Gt -> timeLe b a.
Proof.
  unfold byTime, timeLe; rewrite <- Qgt_alt; intros H; lra.
Qed.

Lemma byTime_before (a b : LyricLine) :
  (byTime a b ?= 0)%Q <> Gt -> timeLe a b.
Proof.
  unfold byTime, timeLe; rewrite <- Qle_alt; intros H; lra.
Qed.

Lemma insertSorted_HdRel (x y : LyricLine) (l : list LyricLine) :
  HdRel timeLe y l -> timeLe y x -> HdRel timeLe y (insertSorted byTime x l).
Proof.
  intros Hy Hyx; destruct l as [|z l]; simpl; [now constructor|].
  destruct (byTime x z ?= 0)%Q; constructor; try assumption;
    now inversion Hy.
Qed.

Lemma insertSorted_sorted (x : LyricLine) (l : list LyricLine) :
  Sorted timeLe l -> Sorted timeLe (insertSorted byTime x l).
Proof.
  induction 1 as [|y l Hs IH Hd]; simpl; [repeat constructor|].
  destruct (byTime x y ?= 0)%Q eqn:E.
  - repeat constructor; try assumption.
    apply byTime_before; congruence.
  - repeat constructor; try assumption.
    apply byTime_before; congruence.
  - constructor; [exact IH|].
    apply insertSorted_HdRel; [exact Hd | now apply byTime_after].
Qed.

Lemma sortBy_sorted (l : list LyricLine) : Sorted timeLe (sortBy byTime l).
Proof.
  induction l as [|x l IH]; simpl; [constructor|].
  now apply insertSorted_sorted.
Qed.

(** [Sorted] read as a statement on neighbours. *)
Lemma Sorted_neighbours (l : list LyricLine) :
  Sorted timeLe l ->
  forall (i : nat) (a b : LyricLine),
    nth_error l i = Some a -> nth_error l (S i) = Some b -> timeLe a b.
Proof.
  induction 1 as [|y l Hs IH Hd]; intros i a b Ha Hb.
  - destruct i; discriminate.
  - destruct i as [|i]; simpl in Ha, Hb.
    + injection Ha as <-.
      destruct l as [|z l]; [discriminate|].
      injection Hb as <-; now inversion Hd.
    + exact (IH i a b Ha Hb).
Qed.

End SortFacts.

(** * Properties of the loop *)

Section ParserFacts.

Variable intl : IntlEnv.

(** The tokenizer never throws, whatever the segmenter does; the flag it
    returns is the Kana test. *)
Lemma tokenize_returns (text : JSString) :
  exists w log, tokenize intl text = (Ok (w, hasJapanese text), log).
Proof.
  unfold tokenize.
  destruct (hasJapanese text); [|destruct (negb (isChinese text)); eexists _, _; reflexivity].
  destruct intl as [|seg]; [eexists _, _; reflexivity|].
  unfold call; destruct (seg text) as [segs|e]; eexists _, _; reflexivity.
Qed.

(** The three ways the tokenizer fills [words]. *)
Lemma tokenize_cases (text : JSString) (w : list JSString) (j : bool)
    (log : list Diagnostic) :
  tokenize intl text = (Ok (w, j), log) ->
  j = hasJapanese text /\
  (hasJapanese text = false ->
     log = [] /\ w = if isChinese text then [] else splitSpaces text) /\
  (hasJapanese text = true ->
     match intl with
     | IntlUndefined => w = splitChars text /\ log = []
     | IntlSegmenter seg =>
         match seg text with
         | Ok segs => w = map segment (filter isWordLike segs) /\ log = []
         | Throw e =>
             w = splitChars text /\
             log = [ConsoleWarn "Intl.Segmenter error" e]
         end
     end).
Proof.
  unfold tokenize.
  destruct (hasJapanese text) eqn:K.
  - destruct intl as [|seg].
    + intros [= <- <- <-]; repeat split; discriminate.
    + unfold call; destruct (seg text) as [segs|e]; simpl;
        intros [= <- <- <-]; repeat split; discriminate.
  - destruct (isChinese text); simpl; intros [= <- <- <-];
      repeat split; discriminate.
Qed.

(** The loop body only appends, and what it appends does not depend on
    what was collected before. *)
Lemma processLine_acc (lyrics : list LyricLine) (line : JSString) :
  processLine intl lyrics line =
  (Ok (lyrics ++ lineLyrics intl line), lineLog intl line).
Proof.
  unfold lineLyrics, lineLog, lyricsOf, processLine.
  destruct (exec line) as [m|]; [|now rewrite app_nil_r].
  destruct (truthy (textOf line m)); [|now rewrite app_nil_r].
  destruct (tokenize_returns (textOf line m)) as (w & log & ->).
  simpl; now rewrite app_nil_r.
Qed.

Lemma forLines_eq (lines : list JSString) (lyrics : list LyricLine) :
  forLines intl lines lyrics =
  (Ok (lyrics ++ flat_map (lineLyrics intl) lines),
   flat_map (lineLog intl) lines).
Proof.
  revert lyrics; induction lines as [|line lines IH]; intros lyrics; simpl.
  - now rewrite app_nil_r.
  - rewrite processLine_acc; simpl.
    rewrite IH; now rewrite <- app_assoc.
Qed.

(** The parser as a whole: every physical line is parsed on its own, the
    results are collected in the order of the lines and then sorted. *)
Lemma parseLRC_eq (s : JSString) :
  parseLRC intl s =
  (Ok (sortBy byTime (flat_map (lineLyrics intl) (splitOn LF s))),
   flat_map (lineLog intl) (splitOn LF s)).
Proof.
  unfold parseLRC; rewrite forLines_eq; simpl.
  now rewrite app_nil_r.
Qed.

(** What is known of a line the loop body emitted. *)
Lemma lineLyrics_inv (line : JSString) (l : LyricLine) :
  In l (lineLyrics intl line) ->
  exists m log,
    exec line = Some m /\
    textOf line m <> [] /\
    tokenize intl (textOf line m) = (Ok (words l, isJapanese l), log) /\
    time l = timeOf m /\
    text l = textOf line m.
Proof.
  unfold lineLyrics, lyricsOf, processLine.
  destruct (exec line) as [m|]; [|intros []].
  destruct (textOf line m) as [|c r] eqn:T; [intros []|].
  simpl truthy; cbv iota.
  destruct (tokenize_returns (c :: r)) as (w & log & E).
  rewrite E; simpl.
  intros [<-|[]]; exists m, log; simpl.
  rewrite T; repeat split; try assumption; discriminate.
Qed.

Lemma parseLRC_inv (s : JSString) (lyrics : list LyricLine)
    (log : list Diagnostic) (l : LyricLine) :
  parseLRC intl s = (Ok lyrics, log) ->
  In l lyrics ->
  exists line, In line (splitOn LF s) /\ In l (lineLyrics intl line).
Proof.
  rewrite parseLRC_eq; intros [= <- _] Hin.
  apply (Permutation_in _ (Permutation_sym (sortBy_perm byTime _))) in Hin.
  apply in_flat_map in Hin; exact Hin.
Qed.

(** Both facts together, in the form the properties below use. *)
Lemma emitted_inv (s : JSString) (lyrics : list LyricLine)
    (log : list Diagnostic) (l : LyricLine) :
  parseLRC intl s = (Ok lyrics, log) ->
  In l lyrics ->
  exists x log',
    text l = trim x /\ trim x <> [] /\
    tokenize intl (text l) = (Ok (words l, isJapanese l), log').
Proof.
  intros Hp Hin.
  destruct (parseLRC_inv _ _ _ _ Hp Hin) as (line & _ & Hl).
  destruct (lineLyrics_inv _ _ Hl) as (m & log' & _ & Hne & Ht & _ & Htx).
  exists (replaceMatch line m), log'; unfold textOf in *.
  rewrite Htx; auto.
Qed.

End ParserFacts.

(** * The properties of [parseLRC] *)

Lemma Sorted_adjacent_pairs (l : list LyricLine) :
  Sorted timeLe l ->
  Forall (fun p => timeLe (fst p) (snd p)) (combine l (tl l)).
Proof.
  induction 1 as [|y l Hs IH Hd]; simpl; [constructor|].
  destruct l as [|z l]; simpl in *; [constructor|].
  constructor; [now inversion Hd | exact IH].
Qed.

(** C1. For every input string and every runtime, [parseLRC] returns a
    sequence that is sorted non-decreasing by [time]: each element paired
    with its successor has a [time] that is at most the successor's. *)
Theorem parseLRC_sorted_by_time (intl : IntlEnv) (s : JSString) :
  exists lyrics log,
    parseLRC intl s = (Ok lyrics, log) /\
    Sorted timeLe lyrics /\
    Forall (fun p => (time (fst p) <= time (snd p))%Q)
           (combine lyrics (tl lyrics)).
Proof.
  eexists _, _; split; [apply parseLRC_eq|].
  pose proof (sortBy_sorted (flat_map (lineLyrics intl) (splitOn LF s))) as H.
  split; [exact H | exact (Sorted_adjacent_pairs _ H)].
Qed.

(** C2. For every input string and every runtime, [parseLRC] returns a
    sequence and does not throw.  Each physical line is parsed on its own:
    the result holds exactly what every line contributes, sorted, and the
    console holds what every line wrote.  When the segmenter throws on the
    text of a line with Kana, that line contributes one element, which is
    in the result: its tokens are the characters of its text, one token of
    one character for each position of the text, and the console holds a
    warning that carries the exception.  When the segmenter returns, the
    line contributes the word-like segments and writes nothing.  What a
    line contributes depends on the segmenter through the text of that line
    only, so a failure on one line leaves the others as they are without
    it. *)
Theorem parseLRC_never_throws (intl : IntlEnv) (s : JSString) :
  exists lyrics log,
    parseLRC intl s = (Ok lyrics, log) /\
    lyrics = sortBy byTime (flat_map (lineLyrics intl) (splitOn LF s)) /\
    Permutation lyrics (flat_map (lineLyrics intl) (splitOn LF s)) /\
    log = flat_map (lineLog intl) (splitOn LF s) /\
    (forall seg line m e,
       intl = IntlSegmenter seg ->
       exec line = Some m ->
       textOf line m <> [] ->
       hasJapanese (textOf line m) = true ->
       seg (textOf line m) = Throw e ->
       exists l,
         lineLyrics intl line = [l] /\
         lineLog intl line = [ConsoleWarn "Intl.Segmenter error" e] /\
         time l = timeOf m /\
         text l = textOf line m /\
         isJapanese l = true /\
         words l = map (fun c => [c]) (text l) /\
         List.length (words l) = List.length (text l) /\
         (forall i c, nth_error (text l) i = Some c ->
                      nth_error (words l) i = Some [c]) /\
         (In line (splitOn LF s) ->
          In l lyrics /\ In (ConsoleWarn "Intl.Segmenter error" e) log)) /\
    (forall seg line m segs,
       intl = IntlSegmenter seg ->
       exec line = Some m ->
       textOf line m <> [] ->
       hasJapanese (textOf line m) = true ->
       seg (textOf line m) = Ok segs ->
       lineLyrics intl line =
         [mkLyricLine (timeOf m) (textOf line m)
                      (map segment (filter isWordLike segs)) true] /\
       lineLog intl line = [] /\
       (In line (splitOn LF s) ->
        In (mkLyricLine (timeOf m) (textOf line m)
                        (map segment (filter isWordLike segs)) true) lyrics)) /\
    (forall seg seg' line,
       intl = IntlSegmenter seg ->
       (forall m, exec line = Some m -> seg' (textOf line m) = seg (textOf line m)) ->
       lineLyrics (IntlSegmenter seg') line = lineLyrics intl line /\
       lineLog (IntlSegmenter seg') line = lineLog intl line).
Proof.
  exists (sortBy byTime (flat_map (lineLyrics intl) (splitOn LF s))),
         (flat_map (lineLog intl) (splitOn LF s)).
  split; [apply parseLRC_eq|].
  split; [reflexivity|].
  split; [apply Permutation_sym, sortBy_perm|].
  split; [reflexivity|].
  assert (Hin : forall line l,
            In line (splitOn LF s) -> lineLyrics intl line = [l] ->
            In l (sortBy byTime (flat_map (lineLyrics intl) (splitOn LF s)))).
  { intros line l Hline Hl.
    apply (Permutation_in _ (sortBy_perm byTime _)).
    apply in_flat_map; exists line; split; [exact Hline|].
    rewrite Hl; now left. }
  split; [|split].
  - intros seg line m e Hi Hm Hne Hk He.
    assert (Hl : lineLyrics intl line =
                   [mkLyricLine (timeOf m) (textOf line m)
                                (splitChars (textOf line m)) true] /\
                 lineLog intl line = [ConsoleWarn "Intl.Segmenter error" e]).
    { subst intl; unfold lineLyrics, lineLog, lyricsOf, processLine, tokenize.
      rewrite Hm; destruct (textOf line m) as [|c r] eqn:T; [now elim Hne|].
      simpl truthy; cbv iota; rewrite Hk, He; simpl; auto. }
    destruct Hl as [Hl Hlog].
    eexists; split; [exact Hl|]; split; [exact Hlog|].
    cbn [time text words isJapanese]; unfold splitChars.
    repeat split.
    + apply length_map.
    + intros i c Hc; rewrite nth_error_map, Hc; reflexivity.
    + eapply Hin; eassumption.
    + apply in_flat_map; exists line; split; [assumption|].
      rewrite Hlog; now left.
  - intros seg line m segs Hi Hm Hne Hk Hs.
    assert (Hl : lineLyrics intl line =
                   [mkLyricLine (timeOf m) (textOf line m)
                                (map segment (filter isWordLike segs)) true] /\
                 lineLog intl line = []).
    { subst intl; unfold lineLyrics, lineLog, lyricsOf, processLine, tokenize.
      rewrite Hm; destruct (textOf line m) as [|c r] eqn:T; [now elim Hne|].
      simpl truthy; cbv iota; rewrite Hk, Hs; simpl; auto. }
    destruct Hl as [Hl Hlog].
    split; [exact Hl|]; split; [exact Hlog|].
    intros Hline; eapply Hin; eassumption.
  - intros seg seg' line -> Hagree.
    unfold lineLyrics, lineLog, lyricsOf, processLine, tokenize.
    destruct (exec line) as [m|]; [|auto].
    now rewrite (Hagree m eq_refl).
Qed.

Lemma parseLRC_never_throws_witness :
  exists lyrics log,
    parseLRC pickySegmenter (kana_line ++ [LF] ++ kana_kanji_line) = (Ok lyrics, log) /\
    (exists l,
       In l lyrics /\
       text l = [0x3042; 0x4E00] /\
       words l = [[0x3042]; [0x4E00]] /\
       In (ConsoleWarn "Intl.Segmenter error" "RangeError"%string) log) /\
    In (mkLyricLine 2 [0x3042; 0x3044] [[0x3042; 0x3044]] true) lyrics /\
    lineLyrics wholeTextSegmenter kana_line = lineLyrics pickySegmenter kana_line.
Proof.
  destruct (parseLRC_never_throws pickySegmenter (kana_line ++ [LF] ++ kana_kanji_line))
    as (lyrics & log & Hp & _ & _ & _ & Hthrow & Hok & Hloc).
  exists lyrics, log; split; [exact Hp|]; split; [|split].
  - destruct (Hthrow picky kana_kanji_line kana_kanji_match "RangeError"%string)
      as (l & _ & _ & _ & Ht & _ & Hw & _ & _ & Hin).
    + reflexivity.
    + vm_compute; reflexivity.
    + vm_compute; discriminate.
    + vm_compute; reflexivity.
    + vm_compute; reflexivity.
    + destruct Hin as [Hl Hlog]; [vm_compute; auto|].
      exists l; split; [exact Hl|].
      rewrite Hw, Ht; split; [|split]; [vm_compute; reflexivity .. | exact Hlog].
  - destruct (Hok picky kana_line kana_line_match [mkSegment [0x3042; 0x3044] true])
      as (_ & _ & Hin).
    + reflexivity.
    + vm_compute; reflexivity.
    + vm_compute; discriminate.
    + vm_compute; reflexivity.
    + vm_compute; reflexivity.
    + apply Hin; vm_compute; auto.
  - destruct (Hloc picky (fun t => Ok [mkSegment t true]) kana_line) as [H _].
    + reflexivity.
    + intros m Hm; vm_compute in Hm; injection Hm as <-.
      vm_compute; reflexivity.
    + exact H.
Defined.

(** Two lines, out of order; the segmenter fails on the second one only.
    The first line is segmented, the second falls back to its characters,
    one warning is written, and the result is in the order of the times. *)
Example failure_stays_in_its_line :
  parseLRC pickySegmenter (kana_line ++ [LF] ++ kana_kanji_line) =
    (Ok [mkLyricLine 1 [0x3042; 0x4E00] [[0x3042]; [0x4E00]] true;
         mkLyricLine 2 [0x3042; 0x3044] [[0x3042; 0x3044]] true],
     [ConsoleWarn "Intl.Segmenter error" "RangeError"%string]).
Proof. vm_compute; reflexivity. Qed.

(** C3. The input ["[00:01.50]Hello world"] gives exactly one line, with
    time 1.5, text ["Hello world"], the two tokens ["Hello"] and
    ["world"], the Japanese flag off and no Chinese classification; the
    console stays empty. *)
Theorem parseLRC_hello_world (intl : IntlEnv) :
  exists l,
    parseLRC intl (js "[00:01.50]Hello world") = (Ok [l], []) /\
    (time l == 1.5)%Q /\
    text l = js "Hello world" /\
    words l = [js "Hello"; js "world"] /\
    isJapanese l = false /\
    isChinese (text l) = false.
Proof.
  eexists; split; [vm_compute; reflexivity|].
  repeat split.
Qed.

(** The fraction as the parser reads it: two digits padded to three. *)
Lemma millisecond_two_digits (f1 f2 : CodeUnit) :
  isDigit f1 = true -> isDigit f2 = true ->
  parseInt10 (padEnd 3 ch_zero [f1; f2]) =
    (digitValue f1 * 10 + digitValue f2) * 10 /\
  parseInt10 (padEnd 3 ch_zero [f1; f2; ch_zero]) =
    (digitValue f1 * 10 + digitValue f2) * 10.
Proof.
  intros H1 H2; unfold parseInt10, padEnd, digitValue.
  cbn [List.length Nat.sub repeat app takeDigits].
  rewrite H1, H2; change (isDigit ch_zero) with true.
  cbn [fold_left]; unfold ch_zero; split; lia.
Qed.

(** Three digits are read as they stand. *)
Lemma millisecond_three_digits (f1 f2 f3 : CodeUnit) :
  isDigit f1 = true -> isDigit f2 = true -> isDigit f3 = true ->
  parseInt10 (padEnd 3 ch_zero [f1; f2; f3]) =
    digitValue f1 * 100 + digitValue f2 * 10 + digitValue f3.
Proof.
  intros H1 H2 H3; unfold padEnd, digitValue.
  cbn [List.length Nat.sub repeat app].
  now apply parseInt10_three.
Qed.

(** C4, as the specification words it, fails: a fraction of one digit is
    not a fraction the regular expression accepts, so the marker [[00:01.5]]
    is no marker and the line is skipped. *)
Lemma one_digit_fraction_is_no_marker :
  parseLRC IntlUndefined (js "[00:01.5]text") = (Ok [], []) /\
  ~ (exists lyrics log l,
       parseLRC IntlUndefined (js "[00:01.5]text") = (Ok lyrics, log) /\
       In l lyrics /\ (time l == 1.5)%Q).
Proof.
  split; [vm_compute; reflexivity|].
  intros (lyrics & log & l & H & Hin & _).
  vm_compute in H; injection H as <- _; exact Hin.
Qed.

(** C4, amended.  A fraction has two or three digits.  Two digits are
    padded with a zero on the right and then read as milliseconds, so a
    fraction [ff] counts hundredths of a second and gives the same time as
    the fraction [ff0]; three digits [fff] count thousandths, each of the
    three digits with its weight.  The time is the whole seconds plus that
    fraction, in doubles.  ["[00:01.50]text"] and ["[00:01.500]text"] both
    give time 1.5; ["[00:01.05]text"] gives the double 1.05, not 1.105;
    ["[00:01.123]text"] gives the double 1.123, not 1.12.  A fraction of
    one digit is not recognized: ["[00:01.5]text"] gives no line. *)
Theorem fraction_digits (intl : IntlEnv) :
  (exists l, parseLRC intl (js "[00:01.50]text") = (Ok [l], []) /\
             (time l == 1.5)%Q) /\
  (exists l, parseLRC intl (js "[00:01.500]text") = (Ok [l], []) /\
             (time l == 1.5)%Q) /\
  (exists l, parseLRC intl (js "[00:01.05]text") = (Ok [l], []) /\
             (time l == Double.toDouble 1.05)%Q /\
             ~ (time l == Double.toDouble 1.105)%Q) /\
  (exists l, parseLRC intl (js "[00:01.123]text") = (Ok [l], []) /\
             (time l == Double.toDouble 1.123)%Q /\
             ~ (time l == Double.toDouble 1.12)%Q) /\
  parseLRC intl (js "[00:01.5]text") = (Ok [], []) /\
  (forall (i : nat) (mt g1 g2 : JSString) (f1 f2 f3 : CodeUnit),
     isDigit f1 = true -> isDigit f2 = true -> isDigit f3 = true ->
     timeOf (mkMatch i mt g1 g2 (Some [f1; f2])) =
       Double.add (wholeSeconds g1 g2)
         (Double.div (inject_Z (digitValue f1 * 10 + digitValue f2)) 100) /\
     timeOf (mkMatch i mt g1 g2 (Some [f1; f2])) =
       timeOf (mkMatch i mt g1 g2 (Some [f1; f2; ch_zero])) /\
     timeOf (mkMatch i mt g1 g2 (Some [f1; f2; f3])) =
       Double.add (wholeSeconds g1 g2)
         (Double.div
            (inject_Z (digitValue f1 * 100 + digitValue f2 * 10 + digitValue f3))
            1000)).
Proof.
  split; [eexists; split; [vm_compute; reflexivity | reflexivity]|].
  split; [eexists; split; [vm_compute; reflexivity | reflexivity]|].
  split; [eexists; split; [vm_compute; reflexivity |
            split; [vm_compute; reflexivity | intros H; vm_compute in H; discriminate]]|].
  split; [eexists; split; [vm_compute; reflexivity |
            split; [vm_compute; reflexivity | intros H; vm_compute in H; discriminate]]|].
  split; [vm_compute; reflexivity|].
  intros i mt g1 g2 f1 f2 f3 H1 H2 H3.
  destruct (millisecond_two_digits f1 f2 H1 H2) as [E2 E3].
  pose proof (millisecond_three_digits f1 f2 f3 H1 H2 H3) as E.
  unfold timeOf, wholeSeconds; cbn [group1 group2 group4]; rewrite E2, E3, E.
  split; [|split; reflexivity].
  unfold Double.div; f_equal; apply toDouble_comp.
  generalize (digitValue f1 * 10 + digitValue f2); intros x.
  unfold Qeq, Qdiv, Qinv, Qmult, inject_Z; cbn [Qnum Qden]; lia.
Qed.

Lemma fraction_digits_witness :
  timeOf (mkMatch 0 (js "[00:01.123]") (js "00") (js "01") (Some [49; 50])) =
    Double.add (wholeSeconds (js "00") (js "01"))
      (Double.div (inject_Z (digitValue 49 * 10 + digitValue 50)) 100) /\
  timeOf (mkMatch 0 (js "[00:01.123]") (js "00") (js "01") (Some [49; 50])) =
    timeOf (mkMatch 0 (js "[00:01.123]") (js "00") (js "01") (Some [49; 50; ch_zero])) /\
  timeOf (mkMatch 0 (js "[00:01.123]") (js "00") (js "01") (Some [49; 50; 51])) =
    Double.add (wholeSeconds (js "00") (js "01"))
      (Double.div
         (inject_Z (digitValue 49 * 100 + digitValue 50 * 10 + digitValue 51))
         1000).
Proof.
  destruct (fraction_digits IntlUndefined) as (_ & _ & _ & _ & _ & H).
  apply (H 0%nat (js "[00:01.123]") (js "00") (js "01") 49 50 51); reflexivity.
Defined.

(** C5. A line whose text holds both a Kana character and a CJK ideograph
    is emitted with the Japanese flag on, and the test for Chinese is off
    for its text. *)
Theorem kana_takes_precedence (intl : IntlEnv) (s : JSString)
    (lyrics : list LyricLine) (log : list Diagnostic) (l : LyricLine) :
  parseLRC intl s = (Ok lyrics, log) ->
  In l lyrics ->
  hasJapanese (text l) = true ->
  hasChineseChars (text l) = true ->
  isJapanese l = true /\ isChinese (text l) = false.
Proof.
  intros Hp Hin Hk Hc.
  destruct (emitted_inv intl _ _ _ _ Hp Hin) as (x & log' & _ & _ & Ht).
  apply tokenize_cases in Ht; destruct Ht as (Hj & _).
  unfold isChinese; rewrite Hj, Hk, Hc; auto.
Qed.

Lemma kana_takes_precedence_witness :
  isJapanese (mkLyricLine 1 [0x3042; 0x4E00] [[0x3042]; [0x4E00]] true) = true /\
  isChinese (text (mkLyricLine 1 [0x3042; 0x4E00] [[0x3042]; [0x4E00]] true)) = false.
Proof.
  apply (kana_takes_precedence IntlUndefined kana_kanji_line
           [mkLyricLine 1 [0x3042; 0x4E00] [[0x3042]; [0x4E00]] true] []).
  - vm_compute; reflexivity.
  - left; reflexivity.
  - reflexivity.
  - reflexivity.
Defined.

(** C6. A line whose text holds a CJK ideograph and no Kana is emitted
    with no tokens and with the Japanese flag off. *)
Theorem chinese_line_has_no_tokens (intl : IntlEnv) (s : JSString)
    (lyrics : list LyricLine) (log : list Diagnostic) (l : LyricLine) :
  parseLRC intl s = (Ok lyrics, log) ->
  In l lyrics ->
  hasChineseChars (text l) = true ->
  hasJapanese (text l) = false ->
  words l = [] /\ isJapanese l = false.
Proof.
  intros Hp Hin Hc Hk.
  destruct (emitted_inv intl _ _ _ _ Hp Hin) as (x & log' & _ & _ & Ht).
  apply tokenize_cases in Ht; destruct Ht as (Hj & Hlatin & _).
  destruct (Hlatin Hk) as [_ Hw].
  unfold isChinese in Hw; rewrite Hc, Hk in Hw; simpl in Hw.
  split; congruence.
Qed.

Lemma chinese_line_has_no_tokens_witness :
  words (mkLyricLine (5 # 2) [0x4F60; 0x597D] [] false) = [] /\
  isJapanese (mkLyricLine (5 # 2) [0x4F60; 0x597D] [] false) = false.
Proof.
  apply (chinese_line_has_no_tokens IntlUndefined hanzi_line
           [mkLyricLine (5 # 2) [0x4F60; 0x597D] [] false] []).
  - vm_compute; reflexivity.
  - left; reflexivity.
  - reflexivity.
  - reflexivity.
Defined.

(** C7. A line without a timestamp marker, and a line whose text is empty
    once the first marker is cut out and the rest trimmed, leaves the
    collected lines as they are, writes nothing and throws nothing; an
    input made of such lines only gives the empty sequence, as do
    ["no timestamp here"] and ["[00:05]   "]. *)
Theorem dropped_lines_emit_nothing (intl : IntlEnv) :
  (forall line lyrics,
     dropped line -> processLine intl lyrics line = (Ok lyrics, [])) /\
  (forall s,
     Forall dropped (splitOn LF s) -> parseLRC intl s = (Ok [], [])) /\
  parseLRC intl (js "no timestamp here") = (Ok [], []) /\
  parseLRC intl (js "[00:05]   ") = (Ok [], []).
Proof.
  assert (Hline : forall line lyrics,
            dropped line -> processLine intl lyrics line = (Ok lyrics, [])).
  { intros line lyrics [Hn|(m & Hm & Ht)]; unfold processLine.
    - now rewrite Hn.
    - now rewrite Hm, Ht. }
  split; [exact Hline|].
  split; [|split; vm_compute; reflexivity].
  intros s Hall; unfold parseLRC.
  assert (Hloop : forall lines lyrics,
            Forall dropped lines -> forLines intl lines lyrics = (Ok lyrics, [])).
  { induction lines as [|line lines IH]; intros lyrics Hd; simpl; [reflexivity|].
    inversion Hd; subst.
    rewrite Hline by assumption; simpl.
    now rewrite IH. }
  now rewrite Hloop.
Qed.

Lemma dropped_lines_emit_nothing_witness :
  processLine IntlUndefined [] (js "[ti:Song]") = (Ok [], []) /\
  parseLRC IntlUndefined (js "[ti:Song]" ++ [LF] ++ js "[00:05]   ") = (Ok [], []).
Proof.
  destruct (dropped_lines_emit_nothing IntlUndefined) as (H1 & H2 & _).
  split.
  - apply H1; left; reflexivity.
  - apply H2.
    change (Forall dropped [js "[ti:Song]"; js "[00:05]   "]).
    constructor; [left; reflexivity|].
    constructor; [|constructor].
    right; exists (mkMatch 0 (js "[00:05]") (js "00") (js "05") None).
    split; reflexivity.
Defined.

Lemma noWhiteSpace_not_only (t : JSString) :
  t <> [] -> noWhiteSpace t = true -> onlyWhiteSpace t = false.
Proof.
  destruct t as [|c t]; [now intros []|].
  unfold noWhiteSpace, onlyWhiteSpace; simpl; intros _ H.
  apply andb_true_iff in H; destruct H as [H _].
  now destruct (isWhiteSpace c).
Qed.

(** C8, as the specification words it, fails on the per-character path:
    without a segmenter, and likewise when the segmenter throws, a text
    with a space between two Kana gives the space as a token of its own. *)
Lemma fallback_emits_whitespace_token :
  map words (lyricsOf (parseLRC IntlUndefined kana_space_line)) =
    [[[0x3042]; [0x0020]; [0x3044]]] /\
  map words (lyricsOf (parseLRC brokenSegmenter kana_space_line)) =
    [[[0x3042]; [0x0020]; [0x3044]]] /\
  onlyWhiteSpace [0x0020] = true /\
  ~ (forall intl s lyrics log l t,
       parseLRC intl s = (Ok lyrics, log) ->
       In l lyrics -> In t (words l) ->
       t <> [] /\ onlyWhiteSpace t = false).
Proof.
  split; [vm_compute; reflexivity|].
  split; [vm_compute; reflexivity|].
  split; [reflexivity|].
  intros H.
  destruct (H IntlUndefined kana_space_line
              [mkLyricLine 1 [0x3042; 0x0020; 0x3044]
                           [[0x3042]; [0x0020]; [0x3044]] true]
              [] _ [0x0020]
              ltac:(vm_compute; reflexivity)
              (or_introl eq_refl)
              (or_intror (or_introl eq_refl))) as [_ Hw].
  discriminate Hw.
Qed.

(** C8, amended.  The tokens of an emitted line are fixed by its path.
    On the path that splits at white space they are the pieces of the text
    between runs of white space; no token is empty and no token holds a
    white-space character.  On the segmenter path they are the segments
    that the segmenter marks word-like, in its order; no token is empty or
    made of white space only as long as the segmenter marks no such
    segment word-like.  On the per-character path of a Japanese line (no
    segmenter, or the segmenter threw) they are the code units of the
    text, one token for each: no token is empty, but every white-space
    character of the text is a token.  A Chinese line has no tokens. *)
Theorem token_shapes (intl : IntlEnv) (s : JSString)
    (lyrics : list LyricLine) (log : list Diagnostic) (l : LyricLine) :
  parseLRC intl s = (Ok lyrics, log) ->
  In l lyrics ->
  if isJapanese l then
    match intl with
    | IntlUndefined => tokenPerCharacter l
    | IntlSegmenter seg =>
        match seg (text l) with
        | Throw _ => tokenPerCharacter l
        | Ok segs =>
            words l = map segment (filter isWordLike segs) /\
            (Forall properWord segs ->
             Forall (fun t => t <> [] /\ onlyWhiteSpace t = false) (words l))
        end
    end
  else if isChinese (text l) then words l = []
  else
    words l = splitSpaces (text l) /\
    Forall (fun t => t <> [] /\ noWhiteSpace t = true /\ onlyWhiteSpace t = false)
           (words l).
Proof.
  intros Hp Hin.
  destruct (emitted_inv intl _ _ _ _ Hp Hin) as (x & log' & Hx & Hne & Htok).
  apply tokenize_cases in Htok; destruct Htok as (Hj & Hlatin & Hja).
  assert (Hchars : words l = splitChars (text l) -> tokenPerCharacter l).
  { unfold splitChars, tokenPerCharacter; intros ->.
    split; [reflexivity|]; split; [|split].
    - intros t; rewrite in_map_iff; split; intros (c & H1 & H2); eauto.
    - intros t Ht; apply in_map_iff in Ht; destruct Ht as (c & <- & _); discriminate.
    - intros c Hc; split; [apply in_map_iff; eauto|].
      simpl; apply andb_true_r. }
  destruct (isJapanese l); symmetry in Hj.
  - specialize (Hja Hj); destruct intl as [|seg].
    + destruct Hja as [Hw _]; auto.
    + destruct (seg (text l)) as [segs|e]; destruct Hja as [Hw _]; auto.
      split; [exact Hw|].
      rewrite Hw, !Forall_forall; intros Hall t Ht.
      apply in_map_iff in Ht; destruct Ht as (sg & <- & Hsg).
      apply filter_In in Hsg; destruct Hsg as [Hsg Hword].
      exact (Hall sg Hsg Hword).
  - destruct (Hlatin Hj) as [_ Hw].
    destruct (isChinese (text l)); [exact Hw|].
    split; [exact Hw|].
    rewrite Hw, Hx.
    destruct (splitSpaces_trimmed x Hne) as [_ Hall].
    rewrite Forall_forall in *; intros t Ht; destruct (Hall t Ht) as [H1 H2].
    auto using noWhiteSpace_not_only.
Qed.

Lemma token_shapes_witness :
  tokenPerCharacter
    (mkLyricLine 1 [0x3042; 0x0020; 0x3044] [[0x3042]; [0x0020]; [0x3044]] true) /\
  Forall (fun t => t <> [] /\ onlyWhiteSpace t = false) [[0x3042]; [0x3044]] /\
  ([js "Hello"; js "world"] = splitSpaces (js "Hello world") /\
   Forall (fun t => t <> [] /\ noWhiteSpace t = true /\ onlyWhiteSpace t = false)
          [js "Hello"; js "world"]).
Proof.
  split; [|split].
  - apply (token_shapes IntlUndefined kana_space_line
             [mkLyricLine 1 [0x3042; 0x0020; 0x3044]
                          [[0x3042]; [0x0020]; [0x3044]] true]
             []
             (mkLyricLine 1 [0x3042; 0x0020; 0x3044]
                          [[0x3042]; [0x0020]; [0x3044]] true)).
    + vm_compute; reflexivity.
    + left; reflexivity.
  - apply (token_shapes charSegmenter kana_space_line
             [mkLyricLine 1 [0x3042; 0x0020; 0x3044] [[0x3042]; [0x3044]] true]
             []
             (mkLyricLine 1 [0x3042; 0x0020; 0x3044] [[0x3042]; [0x3044]] true)).
    + vm_compute; reflexivity.
    + left; reflexivity.
    + repeat constructor; try discriminate.
  - apply (token_shapes IntlUndefined (js "[00:01.50]Hello world")
             [mkLyricLine (3 # 2) (js "Hello world") [js "Hello"; js "world"] false]
             []
             (mkLyricLine (3 # 2) (js "Hello world") [js "Hello"; js "world"] false)).
    + vm_compute; reflexivity.
    + left; reflexivity.
Defined.

(** C9, as the specification words it, fails: the line keeps its carriage
    return through the split, but [trim] then takes it off the text. *)
Lemma trailing_CR_is_trimmed :
  splitOn LF (js "[00:01.00]Hello" ++ [CR; LF]) =
    [js "[00:01.00]Hello" ++ [CR]; []] /\
  map text (lyricsOf (parseLRC IntlUndefined (js "[00:01.00]Hello" ++ [CR; LF]))) =
    [js "Hello"] /\
  ~ (exists lyrics log l,
       parseLRC IntlUndefined (js "[00:01.00]Hello" ++ [CR; LF]) = (Ok lyrics, log) /\
       In l lyrics /\ last (text l) 0 = CR).
Proof.
  split; [vm_compute; reflexivity|].
  split; [vm_compute; reflexivity|].
  intros (lyrics & log & l & H & Hin & Hl).
  vm_compute in H; injection H as <- _.
  destruct Hin as [<-|[]]; discriminate Hl.
Qed.

(** C9, amended.  Splitting into lines cuts at the line feed only: no
    piece holds a line feed, and the pieces joined by line feeds are the
    input again, so a carriage return stays in the content of its line.
    The text of an emitted line is trimmed, and a carriage return is white
    space: no emitted text starts or ends with one, and
    ["[00:01.00]Hello\r\n"] gives the text ["Hello"].  A carriage return
    inside the text stays: ["[00:01.00]Hello\rworld"] gives the text
    ["Hello\rworld"]. *)
Theorem carriage_return_handling (intl : IntlEnv) :
  (forall s,
     Forall (fun p => ~ In LF p) (splitOn LF s) /\
     hd [] (splitOn LF s) ++ flat_map (fun q => LF :: q) (tl (splitOn LF s)) = s) /\
  (forall s lyrics log l,
     parseLRC intl s = (Ok lyrics, log) ->
     In l lyrics ->
     last (text l) 0 <> CR /\ hd 0 (text l) <> CR) /\
  (exists l,
     parseLRC intl (js "[00:01.00]Hello" ++ [CR; LF]) = (Ok [l], []) /\
     text l = js "Hello") /\
  (exists l,
     parseLRC intl (js "[00:01.00]Hello" ++ [CR] ++ js "world") = (Ok [l], []) /\
     text l = js "Hello" ++ [CR] ++ js "world").
Proof.
  split; [|split; [|split; eexists; split; try (vm_compute; reflexivity); reflexivity]].
  - intros s; split; [apply splitOn_pieces|].
    pose proof (splitOn_join LF s) as H.
    destruct (splitOn LF s); [contradiction | exact H].
  - intros s lyrics log l Hp Hin.
    destruct (emitted_inv intl _ _ _ _ Hp Hin) as (x & _ & -> & _).
    apply trim_never_ends_with_CR.
Qed.

Lemma carriage_return_handling_witness :
  last (js "Hello") 0 <> CR /\ hd 0 (js "Hello") <> CR.
Proof.
  destruct (carriage_return_handling IntlUndefined) as (_ & H & _).
  apply (H (js "[00:01.00]Hello" ++ [CR; LF])
           [mkLyricLine 1 (js "Hello") [js "Hello"] false] []
           (mkLyricLine 1 (js "Hello") [js "Hello"] false)).
  - vm_compute; reflexivity.
  - left; reflexivity.
Defined.

Lemma filter_none {A : Type} (f : A -> bool) (l : list A) :
  filter f l = [] <-> Forall (fun x => f x = false) l.
Proof.
  induction l as [|x l IH]; simpl; [split; auto|].
  destruct (f x) eqn:E; split.
  - discriminate.
  - intros H; inversion H; congruence.
  - intros H; constructor; [exact E | now apply IH].
  - intros H; inversion H; now apply IH.
Qed.

(** C10, as the specification words it, fails in its last part: a line
    need not be classified Chinese to come out without tokens.  A line
    with Kana in which the segmenter finds no word has none either. *)
Lemma kana_line_without_tokens :
  parseLRC noWordSegmenter middle_dot_line =
    (Ok [mkLyricLine 1 [0x30FB] [] true], []) /\
  hasJapanese [0x30FB] = true /\
  isChinese [0x30FB] = false /\
  ~ (forall intl s lyrics log l,
       parseLRC intl s = (Ok lyrics, log) ->
       In l lyrics -> words l = [] -> isChinese (text l) = true).
Proof.
  split; [vm_compute; reflexivity|].
  split; [reflexivity|].
  split; [reflexivity|].
  intros H.
  specialize (H noWordSegmenter middle_dot_line
                [mkLyricLine 1 [0x30FB] [] true] []
                (mkLyricLine 1 [0x30FB] [] true)
                ltac:(vm_compute; reflexivity)
                (or_introl eq_refl) eq_refl).
  discriminate H.
Qed.

(** C10, amended.  A line whose text holds neither Kana nor a CJK
    ideograph is emitted with the pieces of its text between runs of white
    space as tokens; there is at least one token, and no token is empty or
    holds white space.  An emitted line has no tokens in two cases and in
    no other: its text tests as Chinese, or its text holds Kana and the
    segmenter returned without any word-like segment. *)
Theorem latin_line_has_tokens (intl : IntlEnv) (s : JSString)
    (lyrics : list LyricLine) (log : list Diagnostic) (l : LyricLine) :
  parseLRC intl s = (Ok lyrics, log) ->
  In l lyrics ->
  (hasJapanese (text l) = false ->
   hasChineseChars (text l) = false ->
   words l = splitSpaces (text l) /\
   words l <> [] /\
   Forall (fun t => t <> [] /\ noWhiteSpace t = true) (words l)) /\
  (words l = [] <->
   isChinese (text l) = true \/
   (hasJapanese (text l) = true /\
    exists seg segs,
      intl = IntlSegmenter seg /\ seg (text l) = Ok segs /\
      Forall (fun sg => isWordLike sg = false) segs)).
Proof.
  intros Hp Hin.
  destruct (emitted_inv intl _ _ _ _ Hp Hin) as (x & log' & Hx & Hne & Htok).
  apply tokenize_cases in Htok; destruct Htok as (Hj & Hlatin & Hja).
  destruct (splitSpaces_trimmed x Hne) as [Hnil Hall].
  rewrite <- Hx in Hnil, Hall, Hne.
  split.
  - intros Hk Hc; destruct (Hlatin Hk) as [_ Hw].
    unfold isChinese in Hw; rewrite Hc in Hw; simpl in Hw.
    rewrite Hw; auto.
  - assert (Hnochars : splitChars (text l) <> []).
    { unfold splitChars; destruct (text l); [now elim Hne | discriminate]. }
    destruct (hasJapanese (text l)) eqn:K.
    + assert (Hc : isChinese (text l) = false)
        by (unfold isChinese; rewrite K; apply andb_false_r).
      specialize (Hja eq_refl); split.
      * intros Hw; right; split; [reflexivity|].
        destruct intl as [|seg]; [destruct Hja; congruence|].
        destruct (seg (text l)) as [segs|e] eqn:S; [|destruct Hja; congruence].
        destruct Hja as [Hw' _]; rewrite Hw in Hw'; symmetry in Hw'.
        exists seg, segs; repeat split; [exact S|].
        apply filter_none; now apply map_eq_nil in Hw'.
      * intros [Hch|(_ & seg & segs & -> & S & Hno)]; [congruence|].
        rewrite S in Hja; destruct Hja as [-> _].
        apply filter_none in Hno; now rewrite Hno.
    + destruct (Hlatin eq_refl) as [_ Hw]; split.
      * intros Hnone; left.
        destruct (isChinese (text l)); [reflexivity | congruence].
      * intros [Hch|(Hk & _)]; [|discriminate].
        now rewrite Hch in Hw.
Qed.

Lemma latin_line_has_tokens_witness :
  ([js "Hello"; js "world"] = splitSpaces (js "Hello world") /\
   [js "Hello"; js "world"] <> [] /\
   Forall (fun t => t <> [] /\ noWhiteSpace t = true) [js "Hello"; js "world"]) /\
  (isChinese [0x30FB] = true \/
   (hasJapanese [0x30FB] = true /\
    exists seg segs,
      noWordSegmenter = IntlSegmenter seg /\ seg [0x30FB] = Ok segs /\
      Forall (fun sg => isWordLike sg = false) segs)).
Proof.
  split.
  - apply (latin_line_has_tokens IntlUndefined (js "[00:01.50]Hello world")
             [mkLyricLine (3 # 2) (js "Hello world") [js "Hello"; js "world"] false] []
             (mkLyricLine (3 # 2) (js "Hello world") [js "Hello"; js "world"] false)).
    + vm_compute; reflexivity.
    + left; reflexivity.
    + reflexivity.
    + reflexivity.
  - apply (latin_line_has_tokens noWordSegmenter middle_dot_line
             [mkLyricLine 1 [0x30FB] [] true] []
             (mkLyricLine 1 [0x30FB] [] true)).
    + vm_compute; reflexivity.
    + left; reflexivity.
    + reflexivity.
Defined.

(** * Further properties of the parser *)

Section MoreStringFacts.

Lemma trimStart_In (c : CodeUnit) (s : JSString) :
  In c (trimStart s) -> In c s.
Proof.
  induction s as [|a s IH]; simpl; [tauto|].
  destruct (isWhiteSpace a); [auto|].
  simpl; tauto.
Qed.

Lemma trim_In (c : CodeUnit) (s : JSString) : In c (trim s) -> In c s.
Proof.
  unfold trim, trimEnd; intros H.
  apply trimStart_In.
  apply in_rev in H; apply trimStart_In in H; now apply in_rev in H.
Qed.

Lemma splitOn_In (sep c : CodeUnit) (s p : JSString) :
  In p (splitOn sep s) -> In c p -> In c s.
Proof.
  revert p; induction s as [|a s IH]; intros p; simpl.
  - intros [<-|[]] [].
  - pose proof (splitOn_not_nil sep s) as Hn.
    destruct (a =? sep).
    + intros [<-|Hp] Hc; [destruct Hc | right; eauto].
    + destruct (splitOn sep s) as [|q qs]; [now elim Hn|].
      intros [<-|Hp] Hc.
      * destruct Hc as [->|Hc]; [now left | right; apply (IH q); simpl; auto].
      * right; apply (IH p); simpl; auto.
Qed.

(** The pieces between runs of white space, put together again, are the
    string without its white space. *)
Lemma concat_splitWS (b : bool) (s : JSString) :
  List.concat (splitWS b s) = filter (fun c => negb (isWhiteSpace c)) s.
Proof.
  revert b; induction s as [|c s IH]; intros b; simpl; [reflexivity|].
  destruct (isWhiteSpace c); simpl.
  - destruct b; simpl; apply IH.
  - specialize (IH false); pose proof (splitWS_not_nil false s) as Hn.
    destruct (splitWS false s) as [|p ps]; [now elim Hn|].
    simpl in *; now rewrite IH.
Qed.

Lemma concat_splitChars (s : JSString) : List.concat (splitChars s) = s.
Proof.
  unfold splitChars; induction s as [|c s IH]; simpl; congruence.
Qed.

End MoreStringFacts.

Section MoreRegexFacts.

Lemma matchHere_index_irrelevant (i j : nat) (s : JSString) :
  matchHere i s = None -> matchHere j s = None.
Proof.
  unfold matchHere.
  destruct s as [|l [|m1 [|m2 [|c [|s1 [|s2 rest]]]]]]; try reflexivity.
  destruct (_ && _); [|reflexivity].
  destruct (matchTail rest) as [[frac tl]|]; [discriminate | reflexivity].
Qed.

Lemma execFrom_leftmost (s : JSString) (i : nat) (m : RegExpMatch) :
  execFrom i s = Some m ->
  exists pre post,
    s = pre ++ matched m ++ post /\
    index m = (i + List.length pre)%nat /\
    matchHere (index m) (matched m ++ post) = Some m /\
    forall j, (j < List.length pre)%nat -> matchHere j (skipn j s) = None.
Proof.
  revert i; induction s as [|c s IH]; intros i.
  - discriminate.
  - change (execFrom i (c :: s))
      with (match matchHere i (c :: s) with
            | Some m' => Some m'
            | None => execFrom (S i) s
            end).
    destruct (matchHere i (c :: s)) eqn:E.
    + intros [= ->]; destruct (matchHere_prefix _ _ _ E) as [Hi Hs].
      exists [], (skipn (List.length (matched m)) (c :: s)).
      cbn [app List.length]; rewrite <- Hs, Hi, Nat.add_0_r.
      repeat split; [exact E | intros j Hj; inversion Hj].
    + intros H; destruct (IH _ H) as (pre & post & -> & Hi & Hm & Hleft).
      exists (c :: pre), post; cbn [app List.length].
      repeat split; [lia | exact Hm |].
      intros [|j] Hj.
      * exact (matchHere_index_irrelevant _ _ _ E).
      * cbn [skipn]; apply (matchHere_index_irrelevant j), Hleft; lia.
Qed.

End MoreRegexFacts.

(** X1. The parser uses the leftmost marker of a line and nothing but it:
    no marker starts before it, and the text of the line is what stands
    before the marker joined to what stands after it, trimmed, so that
    later markers stay in the text. *)
Theorem only_first_marker_is_used (line : JSString) (m : RegExpMatch) :
  exec line = Some m ->
  exists pre post,
    line = pre ++ matched m ++ post /\
    index m = List.length pre /\
    matchHere (index m) (matched m ++ post) = Some m /\
    (forall j, (j < List.length pre)%nat -> matchHere j (skipn j line) = None) /\
    textOf line m = trim (pre ++ post).
Proof.
  intros H; destruct (execFrom_leftmost _ _ _ H) as (pre & post & Hs & Hi & Hm & Hl).
  destruct (exec_replace _ _ H) as (pre' & post' & Hs' & Hr).
  exists pre, post; repeat split; auto.
  unfold textOf, replaceMatch; rewrite Hi; simpl Nat.add.
  rewrite Hs at 1 2.
  rewrite firstn_app, Nat.sub_diag, firstn_all, firstn_O, app_nil_r.
  rewrite app_assoc, <- length_app, skipn_app, skipn_all, Nat.sub_diag.
  reflexivity.
Qed.

Lemma only_first_marker_is_used_witness :
  exists pre post,
    js "x[00:01.00][00:02.00] y" =
      pre ++ matched (mkMatch 1 (js "[00:01.00]") (js "00") (js "01") (Some (js "00"))) ++ post /\
    index (mkMatch 1 (js "[00:01.00]") (js "00") (js "01") (Some (js "00"))) = List.length pre /\
    matchHere (index (mkMatch 1 (js "[00:01.00]") (js "00") (js "01") (Some (js "00"))))
              (matched (mkMatch 1 (js "[00:01.00]") (js "00") (js "01") (Some (js "00"))) ++ post) =
      Some (mkMatch 1 (js "[00:01.00]") (js "00") (js "01") (Some (js "00"))) /\
    (forall j, (j < List.length pre)%nat ->
               matchHere j (skipn j (js "x[00:01.00][00:02.00] y")) = None) /\
    textOf (js "x[00:01.00][00:02.00] y")
           (mkMatch 1 (js "[00:01.00]") (js "00") (js "01") (Some (js "00"))) =
      trim (pre ++ post).
Proof.
  apply only_first_marker_is_used; vm_compute; reflexivity.
Defined.

Section MoreParserFacts.

Variable intl : IntlEnv.

Lemma emitted_from_line (s : JSString) (lyrics : list LyricLine)
    (log : list Diagnostic) (l : LyricLine) :
  parseLRC intl s = (Ok lyrics, log) ->
  In l lyrics ->
  exists line m,
    In line (splitOn LF s) /\ exec line = Some m /\
    time l = timeOf m /\ text l = textOf line m /\ text l <> [].
Proof.
  intros Hp Hin.
  destruct (parseLRC_inv intl _ _ _ _ Hp Hin) as (line & Hline & Hl).
  destruct (lineLyrics_inv intl _ _ Hl) as (m & log' & Hm & Hne & _ & Ht & Htx).
  exists line, m; rewrite Htx; auto.
Qed.

(** What one line gives: nothing, or one element whose text, time and flag
    do not depend on the runtime. *)
Lemma lineLyrics_untokenized (line : JSString) :
  map untokenized (lineLyrics intl line) =
  match exec line with
  | Some m =>
      if truthy (textOf line m)
      then [(timeOf m, textOf line m, hasJapanese (textOf line m))]
      else []
  | None => []
  end.
Proof.
  unfold lineLyrics, lyricsOf, processLine.
  destruct (exec line) as [m|]; [|reflexivity].
  destruct (truthy (textOf line m)); [|reflexivity].
  destruct (tokenize_returns intl (textOf line m)) as (w & log & ->).
  reflexivity.
Qed.

Lemma lineLyrics_text (line : JSString) :
  map text (lineLyrics intl line) = if kept line then [lineText line] else [].
Proof.
  pose proof (lineLyrics_untokenized line) as H.
  apply (f_equal (map (fun p => snd (fst p)))) in H.
  rewrite map_map in H; cbn [untokenized fst snd] in H.
  rewrite (map_ext _ text) in H by reflexivity; rewrite H.
  unfold kept, lineText; destruct (exec line) as [m|]; [|reflexivity].
  now destruct (truthy (textOf line m)).
Qed.

Lemma inFileOrder_text (lines : list JSString) :
  map text (flat_map (lineLyrics intl) lines) =
  map lineText (filter kept lines).
Proof.
  induction lines as [|line lines IH]; simpl; [reflexivity|].
  rewrite map_app, lineLyrics_text, IH.
  now destruct (kept line).
Qed.

End MoreParserFacts.

Lemma line_outcome (intl : IntlEnv) (line : JSString) : LineOutcome intl line.
Proof.
  destruct (exec line) as [m|] eqn:Hm.
  2:{ apply line_skipped; unfold lineLyrics, lineLog, lyricsOf, processLine;
      now rewrite Hm. }
  destruct (truthy (textOf line m)) eqn:Ht.
  2:{ apply line_skipped; unfold lineLyrics, lineLog, lyricsOf, processLine;
      now rewrite Hm, Ht. }
  destruct (hasJapanese (textOf line m)) eqn:K.
  - destruct intl as [|seg].
    + eapply line_quiet;
        try (unfold lineLyrics, lineLog, lyricsOf, processLine, tokenize;
             rewrite Hm, Ht, K; reflexivity).
      discriminate.
    + destruct (seg (textOf line m)) as [segs|e] eqn:Hs.
      * eapply line_quiet;
          try (unfold lineLyrics, lineLog, lyricsOf, processLine, tokenize, call;
               rewrite Hm, Ht, K, Hs; reflexivity).
        simpl; intros seg' e' [= <-] _ H; congruence.
      * eapply (line_degraded _ _ _ seg e);
          try (unfold lineLyrics, lineLog, lyricsOf, processLine, tokenize, call;
               rewrite Hm, Ht, K, Hs; reflexivity);
          try reflexivity.
        exact Hs.
  - destruct (negb (isChinese (textOf line m))) eqn:C;
      eapply line_quiet;
      try (unfold lineLyrics, lineLog, lyricsOf, processLine, tokenize;
           rewrite Hm, Ht, K, C; reflexivity);
      simpl; discriminate.
Qed.

(** X2. The time of every emitted line is the double
    [minute * 60 + second + millisecond / 1000] of three whole numbers:
    minutes and seconds between 0 and 99, milliseconds between 0 and 999.
    It is at least 0 and below 6040 seconds.  Being a double it need not be
    a whole number of milliseconds. *)
Theorem emitted_time_range (intl : IntlEnv) (s : JSString)
    (lyrics : list LyricLine) (log : list Diagnostic) (l : LyricLine) :
  parseLRC intl s = (Ok lyrics, log) ->
  In l lyrics ->
  (0 <= time l)%Q /\ (time l < 6040)%Q /\
  exists minute second millisecond,
    0 <= minute <= 99 /\ 0 <= second <= 99 /\ 0 <= millisecond <= 999 /\
    time l =
      Double.add (Double.add (Double.mul (inject_Z minute) 60) (inject_Z second))
                 (Double.div (inject_Z millisecond) 1000).
Proof.
  intros Hp Hin.
  destruct (emitted_from_line intl _ _ _ _ Hp Hin) as (line & m & _ & Hm & Ht & _).
  rewrite Ht; destruct (timeOf_range _ _ Hm) as [H0 H1].
  split; [exact H0 | split; [exact H1 | exact (timeOf_parts _ _ Hm)]].
Qed.

Lemma emitted_time_range_witness :
  (0 <= time (mkLyricLine (2567051787601183 # 2251799813685248)
                          (js "Hello") [js "Hello"] false))%Q /\
  (time (mkLyricLine (2567051787601183 # 2251799813685248)
                     (js "Hello") [js "Hello"] false) < 6040)%Q /\
  exists minute second millisecond,
    0 <= minute <= 99 /\ 0 <= second <= 99 /\ 0 <= millisecond <= 999 /\
    time (mkLyricLine (2567051787601183 # 2251799813685248)
                      (js "Hello") [js "Hello"] false) =
      Double.add (Double.add (Double.mul (inject_Z minute) 60) (inject_Z second))
                 (Double.div (inject_Z millisecond) 1000).
Proof.
  apply (emitted_time_range IntlUndefined (js "[00:01.14]Hello")
           [mkLyricLine (2567051787601183 # 2251799813685248)
                        (js "Hello") [js "Hello"] false] []).
  - vm_compute; reflexivity.
  - left; reflexivity.
Defined.

(** X3. The text of every emitted line is not empty, starts and ends with
    a character that is not white space, holds no line feed, and is made
    of characters of the input. *)
Theorem emitted_text_shape (intl : IntlEnv) (s : JSString)
    (lyrics : list LyricLine) (log : list Diagnostic) (l : LyricLine) :
  parseLRC intl s = (Ok lyrics, log) ->
  In l lyrics ->
  text l <> [] /\
  isWhiteSpace (hd 32 (text l)) = false /\
  isWhiteSpace (last (text l) 32) = false /\
  ~ In LF (text l) /\
  (forall c, In c (text l) -> In c s).
Proof.
  intros Hp Hin.
  destruct (emitted_from_line intl _ _ _ _ Hp Hin)
    as (line & m & Hline & Hm & _ & Htx & Hne).
  assert (Hsub : forall c, In c (text l) -> In c line).
  { intros c Hc; rewrite Htx in Hc; apply trim_In in Hc.
    destruct (exec_replace _ _ Hm) as (pre & post & Hs & Hr).
    rewrite Hr in Hc; rewrite Hs.
    apply in_app_or in Hc; rewrite !in_app_iff; tauto. }
  split; [exact Hne|].
  unfold textOf in Htx; rewrite Htx in Hne |- *.
  destruct (trim_ends _ 32 Hne) as [Hh Hl].
  repeat split; try assumption.
  - intros Hc; rewrite <- Htx in Hc; apply Hsub in Hc.
    pose proof (splitOn_pieces LF s) as Hall.
    rewrite Forall_forall in Hall; exact (Hall line Hline Hc).
  - intros c Hc; rewrite <- Htx in Hc.
    exact (splitOn_In LF c s line Hline (Hsub c Hc)).
Qed.

Lemma emitted_text_shape_witness :
  js "Hello" <> [] /\
  isWhiteSpace (hd 32 (js "Hello")) = false /\
  isWhiteSpace (last (js "Hello") 32) = false /\
  ~ In LF (js "Hello") /\
  (forall c, In c (js "Hello") -> In c (js " [00:01.00]  Hello " ++ [CR; LF])).
Proof.
  apply (emitted_text_shape IntlUndefined (js " [00:01.00]  Hello " ++ [CR; LF])
           [mkLyricLine 1 (js "Hello") [js "Hello"] false] []
           (mkLyricLine 1 (js "Hello") [js "Hello"] false)).
  - vm_compute; reflexivity.
  - left; reflexivity.
Defined.

(** X4. Every physical line with a marker and a text that is not blank
    gives exactly one element, every other line gives none: the texts of
    the result are, up to order, the texts of the kept lines, and the
    result is as long as there are kept lines. *)
Theorem one_element_per_kept_line (intl : IntlEnv) (s : JSString) :
  exists lyrics log,
    parseLRC intl s = (Ok lyrics, log) /\
    Permutation (map text lyrics) (map lineText (filter kept (splitOn LF s))) /\
    List.length lyrics = List.length (filter kept (splitOn LF s)) /\
    (List.length lyrics <= List.length (splitOn LF s))%nat.
Proof.
  eexists _, _; split; [apply parseLRC_eq|].
  assert (HP : Permutation
                 (map text (sortBy byTime (flat_map (lineLyrics intl) (splitOn LF s))))
                 (map lineText (filter kept (splitOn LF s)))).
  { rewrite <- (inFileOrder_text intl).
    apply Permutation_map, Permutation_sym, sortBy_perm. }
  split; [exact HP|].
  apply Permutation_length in HP; rewrite !length_map in HP.
  split; [exact HP|].
  rewrite HP; apply filter_length_le.
Qed.

Section MoreSortFacts.

Lemma byTime_after_strict (a b : LyricLine) :
  (byTime a b ?= 0)%Q = Gt -> ~ (time a == time b)%Q.
Proof.
  unfold byTime; rewrite <- Qgt_alt; intros H E; lra.
Qed.

Lemma insertSorted_sameTime (t : Q) (x : LyricLine) (l : list LyricLine) :
  filter (sameTime t) (insertSorted byTime x l) = filter (sameTime t) (x :: l).
Proof.
  induction l as [|y l IH]; [reflexivity|].
  cbn [insertSorted].
  destruct (byTime x y ?= 0)%Q eqn:E; try reflexivity.
  cbn [filter] in *; rewrite IH.
  destruct (sameTime t x) eqn:Hx, (sameTime t y) eqn:Hy; try reflexivity.
  exfalso; apply (byTime_after_strict _ _ E).
  unfold sameTime in Hx, Hy; apply Qeq_bool_iff in Hx, Hy.
  now rewrite Hx, Hy.
Qed.

Lemma sortBy_sameTime (t : Q) (l : list LyricLine) :
  filter (sameTime t) (sortBy byTime l) = filter (sameTime t) l.
Proof.
  induction l as [|x l IH]; [reflexivity|].
  cbn [sortBy]; rewrite insertSorted_sameTime; cbn [filter]; now rewrite IH.
Qed.

Lemma sortBy_of_sorted (l : list LyricLine) :
  Sorted timeLe l -> sortBy byTime l = l.
Proof.
  induction 1 as [|x l Hs IH Hd]; [reflexivity|].
  cbn [sortBy]; rewrite IH.
  destruct Hd as [|y l Hxy]; [reflexivity|].
  cbn [insertSorted].
  destruct (byTime x y ?= 0)%Q eqn:E; try reflexivity.
  exfalso; apply byTime_after_strict in E as Hne.
  unfold byTime in E; rewrite <- Qgt_alt in E; unfold timeLe in Hxy; lra.
Qed.

(** Sorting and then forgetting the tokens is forgetting the tokens and
    then sorting: the comparator reads the time only. *)
Lemma sortBy_map {A B : Type} (f : A -> B) (cmpA : A -> A -> Q)
    (cmpB : B -> B -> Q) (l : list A) :
  (forall x y, cmpA x y = cmpB (f x) (f y)) ->
  map f (sortBy cmpA l) = sortBy cmpB (map f l).
Proof.
  intros Hc.
  assert (Hi : forall x l', map f (insertSorted cmpA x l') =
                            insertSorted cmpB (f x) (map f l')).
  { intros x l'; induction l' as [|y l' IH]; [reflexivity|].
    cbn [insertSorted map]; rewrite <- Hc.
    destruct (cmpA x y ?= 0)%Q; cbn [map]; now rewrite ?IH. }
  induction l as [|x l IH]; [reflexivity|].
  cbn [sortBy map]; now rewrite Hi, IH.
Qed.

End MoreSortFacts.

(** X5. The sort is stable on the parser's output: for every time, the
    lines with that time come out in the order they have in the file; and
    the result as a whole is a rearrangement of the lines in file order. *)
Theorem equal_times_keep_file_order (intl : IntlEnv) (s : JSString) (t : Q) :
  exists lyrics log,
    parseLRC intl s = (Ok lyrics, log) /\
    Permutation (inFileOrder intl s) lyrics /\
    filter (sameTime t) lyrics = filter (sameTime t) (inFileOrder intl s).
Proof.
  eexists _, _; split; [apply parseLRC_eq|].
  split; [apply sortBy_perm | apply sortBy_sameTime].
Qed.

(** X6. A file whose lines already come in non-decreasing order of time is
    not rearranged: the result is the emitted lines in file order. *)
Theorem ordered_file_is_not_rearranged (intl : IntlEnv) (s : JSString) :
  Sorted timeLe (inFileOrder intl s) ->
  lyricsOf (parseLRC intl s) = inFileOrder intl s.
Proof.
  intros H; rewrite parseLRC_eq; unfold lyricsOf; cbn [fst].
  now apply sortBy_of_sorted.
Qed.

Lemma ordered_file_is_not_rearranged_witness :
  lyricsOf (parseLRC IntlUndefined
              (js "[00:01.00]a" ++ [LF] ++ js "[00:01.00]b" ++ [LF] ++ js "[00:02.00]c")) =
  inFileOrder IntlUndefined
              (js "[00:01.00]a" ++ [LF] ++ js "[00:01.00]b" ++ [LF] ++ js "[00:02.00]c").
Proof.
  apply ordered_file_is_not_rearranged.
  change (Sorted timeLe [mkLyricLine 1 (js "a") [js "a"] false;
                         mkLyricLine 1 (js "b") [js "b"] false;
                         mkLyricLine 2 (js "c") [js "c"] false]).
  repeat constructor; unfold timeLe; cbn [time]; discriminate.
Defined.

(** X7. Time, text and Japanese flag of the result do not depend on the
    runtime: with or without a segmenter, and whatever the segmenter
    returns or throws, the result holds the same lines in the same order
    and differs in the tokens only. *)
Theorem runtime_changes_tokens_only (intl intl' : IntlEnv) (s : JSString) :
  map untokenized (lyricsOf (parseLRC intl s)) =
  map untokenized (lyricsOf (parseLRC intl' s)).
Proof.
  rewrite !parseLRC_eq; unfold lyricsOf; cbn [fst].
  set (cmp := fun p q : Q * JSString * bool => (fst (fst p) - fst (fst q))%Q).
  rewrite !(sortBy_map untokenized byTime cmp) by reflexivity.
  f_equal.
  induction (splitOn LF s) as [|line lines IH]; [reflexivity|].
  cbn [flat_map]; rewrite !map_app, IH, !lineLyrics_untokenized; reflexivity.
Qed.

Lemma hasJapanese_sub (s t : JSString) :
  hasJapanese s = false -> (forall c, In c t -> In c s) -> hasJapanese t = false.
Proof.
  unfold hasJapanese; intros Hs Hsub.
  destruct (existsb isKana t) eqn:E; [|reflexivity].
  apply existsb_exists in E; destruct E as (c & Hc & Hk).
  rewrite <- Hs; symmetry; apply existsb_exists; eauto.
Qed.

Lemma line_without_kana (intl : IntlEnv) (s line : JSString) :
  hasJapanese s = false ->
  In line (splitOn LF s) ->
  processLine intl [] line = processLine IntlUndefined [] line /\
  lineLog intl line = [].
Proof.
  intros Hs Hline; unfold lineLog, processLine.
  destruct (exec line) as [m|] eqn:Hm; [|auto].
  destruct (truthy (textOf line m)); [|auto].
  assert (K : hasJapanese (textOf line m) = false).
  { apply (hasJapanese_sub s); [exact Hs|].
    intros c Hc; apply trim_In in Hc.
    destruct (exec_replace _ _ Hm) as (pre & post & Hl & Hr).
    rewrite Hr in Hc; apply (splitOn_In LF c s line Hline).
    rewrite Hl; apply in_app_or in Hc; rewrite !in_app_iff; tauto. }
  unfold tokenize; rewrite K.
  destruct (negb (isChinese (textOf line m))); auto.
Qed.

(** X8. An input without any Hiragana or Katakana is parsed the same way
    by every runtime, tokens included, and nothing is written to the
    console. *)
Theorem input_without_kana_ignores_runtime (intl : IntlEnv) (s : JSString) :
  hasJapanese s = false ->
  parseLRC intl s = parseLRC IntlUndefined s /\
  snd (parseLRC intl s) = [].
Proof.
  intros Hs; rewrite !parseLRC_eq; cbn [snd].
  assert (H : forall lines, (forall line, In line lines -> In line (splitOn LF s)) ->
            flat_map (lineLyrics intl) lines = flat_map (lineLyrics IntlUndefined) lines /\
            flat_map (lineLog intl) lines = [] /\
            flat_map (lineLog IntlUndefined) lines = []).
  { induction lines as [|line lines IH]; intros Hsub; [auto|].
    destruct IH as (IH1 & IH2 & IH3); [intros; apply Hsub; now right|].
    destruct (line_without_kana intl s line Hs) as [E1 E2]; [apply Hsub; now left|].
    destruct (line_without_kana IntlUndefined s line Hs) as [_ E3]; [apply Hsub; now left|].
    cbn [flat_map]; rewrite IH1, IH2, IH3, E2, E3.
    unfold lineLyrics; rewrite E1; auto. }
  destruct (H (splitOn LF s)) as (E1 & E2 & E3); [auto|].
  now rewrite E1, E2, E3.
Qed.

Lemma input_without_kana_ignores_runtime_witness :
  parseLRC brokenSegmenter (js "[00:01.50]Hello world" ++ [LF] ++ hanzi_line) =
    parseLRC IntlUndefined (js "[00:01.50]Hello world" ++ [LF] ++ hanzi_line) /\
  snd (parseLRC brokenSegmenter (js "[00:01.50]Hello world" ++ [LF] ++ hanzi_line)) = [].
Proof.
  apply input_without_kana_ignores_runtime; vm_compute; reflexivity.
Defined.

(** X9. The tokens spell the text.  On the path that splits at white
    space the tokens put together are the text without its white space; on
    the per-character path of a Japanese line (no segmenter, or the
    segmenter threw) they are the text itself; a Chinese line has no
    tokens. *)
Theorem tokens_spell_the_text (intl : IntlEnv) (s : JSString)
    (lyrics : list LyricLine) (log : list Diagnostic) (l : LyricLine) :
  parseLRC intl s = (Ok lyrics, log) ->
  In l lyrics ->
  if isJapanese l then
    match intl with
    | IntlUndefined => List.concat (words l) = text l
    | IntlSegmenter seg =>
        match seg (text l) with
        | Throw _ => List.concat (words l) = text l
        | Ok segs => words l = map segment (filter isWordLike segs)
        end
    end
  else if isChinese (text l) then words l = []
  else List.concat (words l) = filter (fun c => negb (isWhiteSpace c)) (text l).
Proof.
  intros Hp Hin.
  destruct (emitted_inv intl _ _ _ _ Hp Hin) as (x & log' & _ & _ & Htok).
  apply tokenize_cases in Htok; destruct Htok as (Hj & Hlatin & Hja).
  destruct (isJapanese l); symmetry in Hj.
  - specialize (Hja Hj); destruct intl as [|seg].
    + destruct Hja as [-> _]; apply concat_splitChars.
    + destruct (seg (text l)); destruct Hja as [-> _];
        [reflexivity | apply concat_splitChars].
  - destruct (Hlatin Hj) as [_ ->].
    destruct (isChinese (text l)); [reflexivity | apply concat_splitWS].
Qed.

Lemma tokens_spell_the_text_witness :
  List.concat [js "a"; js "b"] =
  filter (fun c => negb (isWhiteSpace c)) (js "a  b").
Proof.
  apply (tokens_spell_the_text IntlUndefined (js "[00:03]  a  b ")
           [mkLyricLine 3 (js "a  b") [js "a"; js "b"] false] []
           (mkLyricLine 3 (js "a  b") [js "a"; js "b"] false)).
  - vm_compute; reflexivity.
  - left; reflexivity.
Defined.

(** What a line writes is the warning of what it contributes. *)
Lemma lineLog_warnings (intl : IntlEnv) (line : JSString) :
  lineLog intl line = flat_map (warningsOf intl) (lineLyrics intl line).
Proof.
  destruct (line_outcome intl line) as [H1 H2|l H1 H2 Hq|l seg e H1 H2 Hi Hj Hs];
    rewrite H1, H2; cbn [flat_map]; [reflexivity| |].
  - unfold warningsOf, failureOf.
    destruct intl as [|seg]; [reflexivity|].
    destruct (isJapanese l) eqn:J; [|reflexivity].
    destruct (seg (text l)) as [segs|e] eqn:S; [reflexivity|].
    elim (Hq seg e eq_refl eq_refl S).
  - unfold warningsOf, failureOf; rewrite Hi, Hj, Hs; reflexivity.
Qed.

Lemma flat_map_lineLog (intl : IntlEnv) (lines : list JSString) :
  flat_map (lineLog intl) lines =
  flat_map (warningsOf intl) (flat_map (lineLyrics intl) lines).
Proof.
  induction lines as [|line lines IH]; [reflexivity|].
  cbn [flat_map]; rewrite flat_map_app, <- IH, lineLog_warnings; reflexivity.
Qed.

Lemma warnings_count (intl : IntlEnv) (ls : list LyricLine) :
  List.length (flat_map (warningsOf intl) ls) =
  List.length (filter (segmenterFails intl) ls).
Proof.
  induction ls as [|l ls IH]; [reflexivity|].
  cbn [flat_map filter]; rewrite length_app, IH.
  unfold warningsOf, segmenterFails; destruct (failureOf intl l); reflexivity.
Qed.

(** X10. The console holds exactly one warning for every emitted line on
    whose text the segmenter threw, and nothing else.  Read in the order of
    the file, the console is the list of those warnings, each with the
    exception its line caught; against the sorted result it is the same
    list up to the order, so there are as many entries as failing lines.
    Every entry is the warning of such a line, every such line has its
    entry, there are never more entries than lines, and without a
    segmenter the console stays empty. *)
Theorem warnings_match_failures (intl : IntlEnv) (s : JSString)
    (lyrics : list LyricLine) (log : list Diagnostic) :
  parseLRC intl s = (Ok lyrics, log) ->
  log = flat_map (warningsOf intl) (inFileOrder intl s) /\
  Permutation log (flat_map (warningsOf intl) lyrics) /\
  List.length log = List.length (filter (segmenterFails intl) lyrics) /\
  (intl = IntlUndefined -> log = []) /\
  (forall d, In d log ->
     exists seg l e,
       intl = IntlSegmenter seg /\ In l lyrics /\ isJapanese l = true /\
       seg (text l) = Throw e /\ words l = splitChars (text l) /\
       d = ConsoleWarn "Intl.Segmenter error" e) /\
  (forall seg l e,
     intl = IntlSegmenter seg -> In l lyrics -> isJapanese l = true ->
     seg (text l) = Throw e ->
     In (ConsoleWarn "Intl.Segmenter error" e) log) /\
  (List.length log <= List.length lyrics)%nat.
Proof.
  rewrite parseLRC_eq; intros [= <- <-].
  set (lines := splitOn LF s).
  assert (Hin : forall ls l,
            In l (sortBy byTime (flat_map (lineLyrics intl) ls)) <->
            exists line, In line ls /\ In l (lineLyrics intl line)).
  { intros ls l; rewrite <- in_flat_map; split; apply Permutation_in;
      [apply Permutation_sym|]; apply sortBy_perm. }
  assert (Hperm : Permutation (flat_map (lineLog intl) lines)
                    (flat_map (warningsOf intl)
                       (sortBy byTime (flat_map (lineLyrics intl) lines)))).
  { rewrite flat_map_lineLog; apply Permutation_flat_map, sortBy_perm. }
  split; [apply flat_map_lineLog|].
  split; [exact Hperm|].
  split; [rewrite (Permutation_length Hperm); apply warnings_count|].
  split; [|split; [|split]].
  - intros ->; clear Hperm; induction lines as [|line lines IH]; [reflexivity|].
    cbn [flat_map]; rewrite IH, app_nil_r.
    destruct (line_outcome IntlUndefined line) as [_ H|l _ H _|l seg e _ _ H];
      [assumption | assumption | discriminate].
  - intros d Hd; apply in_flat_map in Hd; destruct Hd as (line & Hline & Hd).
    destruct (line_outcome intl line) as [_ H|l _ H _|l seg e Hl H Hi Hj Hs];
      rewrite H in Hd; try destruct Hd as [<-|[]]; try destruct Hd.
    exists seg, l, e; repeat split; auto.
    + apply (Hin lines); exists line; rewrite Hl; simpl; auto.
    + assert (Hl' : In l (lineLyrics intl line)) by (rewrite Hl; now left).
      destruct (lineLyrics_inv intl _ _ Hl') as (m & log' & _ & _ & Ht & _ & Htx).
      rewrite <- Htx in Ht.
      apply tokenize_cases in Ht; destruct Ht as (Hk & _ & Hja).
      rewrite Hj in Hk; symmetry in Hk; specialize (Hja Hk).
      rewrite Hi in Hja; cbv iota in Hja; rewrite Hs in Hja; tauto.
  - intros seg l e Hi Hl Hj Hs; apply (Hin lines) in Hl.
    destruct Hl as (line & Hline & Hl).
    apply in_flat_map; exists line; split; [exact Hline|].
    destruct (line_outcome intl line) as [H _|l' H _ Hq|l' seg' e' H Hlog Hi' _ Hs'];
      rewrite H in Hl; try destruct Hl as [<-|[]]; try destruct Hl.
    + elim (Hq seg e Hi Hj Hs).
    + rewrite Hlog; left; rewrite Hi in Hi'; injection Hi' as <-.
      congruence.
  - rewrite <- (Permutation_length (sortBy_perm byTime _)).
    clear Hperm; induction lines as [|line lines IH]; [reflexivity|].
    cbn [flat_map]; rewrite !length_app.
    destruct (line_outcome intl line) as [H1 H2|l H1 H2 _|l seg e H1 H2 _ _ _];
      rewrite H1, H2; simpl; lia.
Qed.

Lemma warnings_match_failures_witness :
  [ConsoleWarn "Intl.Segmenter error" "RangeError"%string] =
    flat_map (warningsOf pickySegmenter)
             (inFileOrder pickySegmenter (kana_line ++ [LF] ++ kana_kanji_line)) /\
  List.length [ConsoleWarn "Intl.Segmenter error" "RangeError"%string] =
    List.length
      (filter (segmenterFails pickySegmenter)
         [mkLyricLine 1 [0x3042; 0x4E00] [[0x3042]; [0x4E00]] true;
          mkLyricLine 2 [0x3042; 0x3044] [[0x3042; 0x3044]] true]) /\
  In (ConsoleWarn "Intl.Segmenter error" "RangeError"%string)
     [ConsoleWarn "Intl.Segmenter error" "RangeError"%string].
Proof.
  destruct (warnings_match_failures pickySegmenter
              (kana_line ++ [LF] ++ kana_kanji_line)
              [mkLyricLine 1 [0x3042; 0x4E00] [[0x3042]; [0x4E00]] true;
               mkLyricLine 2 [0x3042; 0x3044] [[0x3042; 0x3044]] true]
              [ConsoleWarn "Intl.Segmenter error" "RangeError"%string])
    as (H1 & _ & H3 & _ & _ & H & _).
  - vm_compute; reflexivity.
  - split; [exact H1|]; split; [exact H3|].
    apply (H picky (mkLyricLine 1 [0x3042; 0x4E00] [[0x3042]; [0x4E00]] true)).
    + reflexivity.
    + left; reflexivity.
    + reflexivity.
    + vm_compute; reflexivity.
Defined.

(** * Properties of App.tsx *)

Section ActiveLineFacts.

Variable t : Q.

Lemma Qlt_bool_iff (a b : Q) : Qlt_bool a b = true <-> (a < b)%Q.
Proof.
  unfold Qlt_bool; rewrite negb_true_iff, <- not_true_iff_false, Qle_bool_iff.
  split; [apply Qnot_le_lt | apply Qlt_not_le].
Qed.

Lemma nth_error_next (pre : list LyricLine) (x : LyricLine)
    (rest : list LyricLine) :
  nth_error (pre ++ x :: rest) (List.length pre + 1) = hd_error rest.
Proof.
  rewrite nth_error_app2 by lia.
  replace (List.length pre + 1 - List.length pre)%nat with 1%nat by lia.
  now destruct rest.
Qed.

(** No line has started: the search fails. *)
Lemma findIndexFrom_future (all suf : list LyricLine) (i : nat) :
  Forall (fun l => (t < time l)%Q) suf ->
  findIndexFrom (App.isActiveLine all t) i suf = -1.
Proof.
  revert i; induction suf as [|x suf IH]; intros i H; [reflexivity|].
  inversion H as [|? ? Hx Hs]; subst; cbn [findIndexFrom].
  unfold App.isActiveLine at 1.
  destruct (Qle_bool (time x) t) eqn:E; [|apply IH, Hs].
  apply Qle_bool_iff in E; lra.
Qed.

(** The first line has started: the search stops at the last started
    line. *)
Lemma findIndexFrom_started (suf pre : list LyricLine) (x : LyricLine)
    (rest : list LyricLine) :
  suf = x :: rest ->
  StronglySorted timeLe suf ->
  (time x <= t)%Q ->
  exists k line,
    findIndexFrom (App.isActiveLine (pre ++ suf) t) (List.length pre) suf =
      Z.of_nat (List.length pre + k) /\
    nth_error suf k = Some line /\
    Forall (fun l => (time l <= t)%Q) (firstn (S k) suf) /\
    Forall (fun l => (t < time l)%Q) (skipn (S k) suf).
Proof.
  revert pre x rest; induction suf as [|a suf IH]; intros pre x rest E Hs Hx;
    [discriminate|].
  injection E as -> ->; cbn [findIndexFrom].
  unfold App.isActiveLine at 1; rewrite nth_error_next.
  assert (Hle : Qle_bool (time x) t = true) by now apply Qle_bool_iff.
  rewrite Hle; cbn [andb].
  inversion Hs as [|? ? Hs' Hall]; subst.
  destruct rest as [|y rest]; cbn [hd_error].
  - exists 0%nat, x; rewrite Nat.add_0_r; repeat split; repeat constructor; auto.
  - destruct (Qlt_bool t (time y)) eqn:Hy.
    + apply Qlt_bool_iff in Hy.
      exists 0%nat, x; rewrite Nat.add_0_r; repeat split;
        [repeat constructor; auto|].
      cbn [skipn]; inversion Hs' as [|? ? _ Hall']; subst.
      constructor; [exact Hy|].
      eapply Forall_impl; [|exact Hall']; unfold timeLe; intros z Hz; lra.
    + assert (Hy' : (time y <= t)%Q).
      { apply Qnot_lt_le; rewrite <- Qlt_bool_iff; congruence. }
      destruct (IH (pre ++ [x]) y rest eq_refl Hs' Hy')
        as (k & line & Hf & Hn & H1 & H2).
      rewrite <- app_assoc, length_app in Hf; cbn [app List.length] in Hf.
      replace (List.length pre + 1)%nat with (S (List.length pre)) in Hf by lia.
      exists (S k), line; repeat split; auto.
      * rewrite Hf; f_equal; lia.
      * change (firstn (S (S k)) (x :: y :: rest))
          with (x :: firstn (S k) (y :: rest)).
        constructor; assumption.
Qed.

End ActiveLineFacts.

(** The handler ends with the index that the search found. *)
Lemma onTimeUpdate_found (st : App.State) (audio : Audio.t) (k : nat) :
  App.audioRef st = Some audio ->
  findIndex (App.isActiveLine (App.lyrics st) (Audio.currentTime audio))
            (App.lyrics st) = Z.of_nat k ->
  App.currentLineIndex (App.onTimeUpdate st) = Z.of_nat k /\
  App.lyrics (App.onTimeUpdate st) = App.lyrics st /\
  App.currentTime (App.onTimeUpdate st) = Audio.currentTime audio.
Proof.
  intros Ha Hf; unfold App.onTimeUpdate; rewrite Ha.
  cbn [App.lyrics App.set_currentTime App.currentLineIndex]; rewrite Hf.
  destruct (negb (Z.of_nat k =? -1) && negb (Z.of_nat k =? App.currentLineIndex st))
    eqn:B; cbn [App.currentLineIndex App.set_currentLineIndex App.set_currentTime
                App.lyrics App.currentTime]; repeat split; auto.
  apply andb_false_iff in B; destruct B as [B|B];
    apply negb_false_iff, Z.eqb_eq in B; [lia | congruence].
Qed.

Lemma Sorted_timeLe_strong (l : list LyricLine) :
  Sorted timeLe l -> StronglySorted timeLe l.
Proof.
  apply Sorted_StronglySorted; intros a b c; unfold timeLe; apply Qle_trans.
Qed.

(** X11. On lyrics sorted by time whose first line has started, the
    handler of the audio element's time updates makes the active index the
    index of the last line that has started: every line up to it has a
    time at most the playback time and every later line a time beyond it.
    Lyrics stay as they are, and the playback time is recorded. *)
Theorem active_line_is_last_started (st : App.State) (audio : Audio.t)
    (first : LyricLine) :
  App.audioRef st = Some audio ->
  Sorted timeLe (App.lyrics st) ->
  hd_error (App.lyrics st) = Some first ->
  (time first <= Audio.currentTime audio)%Q ->
  exists i line,
    App.currentLineIndex (App.onTimeUpdate st) = Z.of_nat i /\
    nth_error (App.lyrics st) i = Some line /\
    Forall (fun l => (time l <= Audio.currentTime audio)%Q)
           (firstn (S i) (App.lyrics st)) /\
    Forall (fun l => (Audio.currentTime audio < time l)%Q)
           (skipn (S i) (App.lyrics st)) /\
    App.lyrics (App.onTimeUpdate st) = App.lyrics st /\
    App.currentTime (App.onTimeUpdate st) = Audio.currentTime audio.
Proof.
  intros Ha Hs Hf Ht.
  destruct (App.lyrics st) as [|x rest] eqn:E; [discriminate|].
  injection Hf as ->.
  destruct (findIndexFrom_started (Audio.currentTime audio) (first :: rest) []
              first rest eq_refl (Sorted_timeLe_strong _ Hs) Ht)
    as (k & line & Hf & Hn & H1 & H2).
  cbn [app List.length Nat.add] in Hf.
  destruct (onTimeUpdate_found st audio k Ha) as (Hi & Hl & Hc).
  { rewrite E; exact Hf. }
  exists k, line; rewrite Hi, Hl, Hc, E; repeat split; auto.
Qed.

Lemma active_line_is_last_started_witness :
  exists i line,
    App.currentLineIndex (App.onTimeUpdate (playing_at 1.7 three_lines)) = Z.of_nat i /\
    nth_error (App.lyrics (playing_at 1.7 three_lines)) i = Some line /\
    Forall (fun l => (time l <= Audio.currentTime (Audio.mk 1.7 false))%Q)
           (firstn (S i) (App.lyrics (playing_at 1.7 three_lines))) /\
    Forall (fun l => (Audio.currentTime (Audio.mk 1.7 false) < time l)%Q)
           (skipn (S i) (App.lyrics (playing_at 1.7 three_lines))) /\
    App.lyrics (App.onTimeUpdate (playing_at 1.7 three_lines)) =
      App.lyrics (playing_at 1.7 three_lines) /\
    App.currentTime (App.onTimeUpdate (playing_at 1.7 three_lines)) =
      Audio.currentTime (Audio.mk 1.7 false).
Proof.
  apply (active_line_is_last_started (playing_at 1.7 three_lines)
           (Audio.mk 1.7 false)
           (mkLyricLine 1 (js "a") [js "a"] false)).
  - reflexivity.
  - repeat constructor; unfold timeLe; cbn [time]; discriminate.
  - reflexivity.
  - cbn [time Audio.currentTime]; discriminate.
Defined.

(** X12. On lyrics sorted by time the search for the active line fails
    exactly when no line has started yet (in particular when there are no
    lyrics); the handler then leaves the active index at the value it had,
    which is 0 after start-up. *)
Theorem before_first_line_index_stays (st : App.State) (audio : Audio.t) :
  App.audioRef st = Some audio ->
  Sorted timeLe (App.lyrics st) ->
  (findIndex (App.isActiveLine (App.lyrics st) (Audio.currentTime audio))
             (App.lyrics st) = -1 <->
   Forall (fun l => (Audio.currentTime audio < time l)%Q) (App.lyrics st)) /\
  (Forall (fun l => (Audio.currentTime audio < time l)%Q) (App.lyrics st) ->
   App.currentLineIndex (App.onTimeUpdate st) = App.currentLineIndex st).
Proof.
  intros Ha Hs.
  assert (Hfut : Forall (fun l => (Audio.currentTime audio < time l)%Q) (App.lyrics st) ->
                 findIndex (App.isActiveLine (App.lyrics st) (Audio.currentTime audio))
                           (App.lyrics st) = -1).
  { intros H; now apply findIndexFrom_future. }
  split; [split; [|exact Hfut]|].
  - intros Hnone.
    assert (Hss : StronglySorted timeLe (App.lyrics st)).
    { apply Sorted_StronglySorted; [|exact Hs].
      intros a b c; unfold timeLe; apply Qle_trans. }
    destruct (App.lyrics st) as [|x rest] eqn:E; [constructor|].
    destruct (Qlt_le_dec (Audio.currentTime audio) (time x)) as [Hlt|Hle].
    + inversion Hss as [|? ? _ Hall]; subst; constructor; [exact Hlt|].
      eapply Forall_impl; [|exact Hall]; unfold timeLe; intros z Hz; lra.
    + destruct (findIndexFrom_started (Audio.currentTime audio) (x :: rest) []
                  x rest eq_refl Hss Hle) as (k & line & Hf & _).
      unfold findIndex in Hnone; cbn [app List.length] in Hf; lia.
  - intros H; unfold App.onTimeUpdate; rewrite Ha.
    cbn [App.lyrics App.set_currentTime].
    rewrite (Hfut H); reflexivity.
Qed.

Lemma before_first_line_index_stays_witness :
  (findIndex (App.isActiveLine (App.lyrics (playing_at 0.5 three_lines))
                               (Audio.currentTime (Audio.mk 0.5 false)))
             (App.lyrics (playing_at 0.5 three_lines)) = -1 <->
   Forall (fun l => (Audio.currentTime (Audio.mk 0.5 false) < time l)%Q)
          (App.lyrics (playing_at 0.5 three_lines))) /\
  (Forall (fun l => (Audio.currentTime (Audio.mk 0.5 false) < time l)%Q)
          (App.lyrics (playing_at 0.5 three_lines)) ->
   App.currentLineIndex (App.onTimeUpdate (playing_at 0.5 three_lines)) =
   App.currentLineIndex (playing_at 0.5 three_lines)).
Proof.
  apply (before_first_line_index_stays (playing_at 0.5 three_lines)
           (Audio.mk 0.5 false)).
  - reflexivity.
  - repeat constructor; unfold timeLe; cbn [time]; discriminate.
Defined.

(** X13. Loading a lyric file and then receiving a time update: whatever
    the file and the runtime, once the first parsed line has started the
    active index is the index of the last started line of the parsed
    lyrics.  The parser's order is what the lookup needs. *)
Theorem lookup_after_load (intl : IntlEnv) (st : App.State) (text : JSString)
    (audio : Audio.t) (first : LyricLine) :
  App.audioRef st = Some audio ->
  hd_error (lyricsOf (parseLRC intl text)) = Some first ->
  (time first <= Audio.currentTime audio)%Q ->
  exists i line,
    App.currentLineIndex (App.onTimeUpdate (App.onLrcLoad intl st text)) = Z.of_nat i /\
    nth_error (lyricsOf (parseLRC intl text)) i = Some line /\
    Forall (fun l => (time l <= Audio.currentTime audio)%Q)
           (firstn (S i) (lyricsOf (parseLRC intl text))) /\
    Forall (fun l => (Audio.currentTime audio < time l)%Q)
           (skipn (S i) (lyricsOf (parseLRC intl text))).
Proof.
  intros Ha Hf Ht.
  assert (Hs : Sorted timeLe (lyricsOf (parseLRC intl text))).
  { rewrite parseLRC_eq; apply sortBy_sorted. }
  destruct (lyricsOf (parseLRC intl text)) as [|x rest] eqn:E; [discriminate|].
  injection Hf as ->.
  destruct (findIndexFrom_started (Audio.currentTime audio) (first :: rest) []
              first rest eq_refl (Sorted_timeLe_strong _ Hs) Ht)
    as (k & line & Hf & Hn & H1 & H2).
  cbn [app List.length Nat.add] in Hf.
  destruct (onTimeUpdate_found (App.onLrcLoad intl st text) audio k Ha) as (Hi & _).
  { change (App.lyrics (App.onLrcLoad intl st text))
      with (lyricsOf (parseLRC intl text)).
    rewrite E; exact Hf. }
  exists k, line; rewrite Hi; auto.
Qed.

Lemma lookup_after_load_witness :
  exists i line,
    App.currentLineIndex
      (App.onTimeUpdate
         (App.onLrcLoad IntlUndefined
            (App.initialState (Audio.mk (Double.toDouble 1.1179999999999999) false) None)
            (js "[00:02.00]c" ++ [LF] ++ js "[00:01.118]a"))) = Z.of_nat i /\
    nth_error (lyricsOf (parseLRC IntlUndefined
                           (js "[00:02.00]c" ++ [LF] ++ js "[00:01.118]a"))) i = Some line /\
    Forall (fun l => (time l <= Audio.currentTime
                                  (Audio.mk (Double.toDouble 1.1179999999999999) false))%Q)
           (firstn (S i) (lyricsOf (parseLRC IntlUndefined
                                      (js "[00:02.00]c" ++ [LF] ++ js "[00:01.118]a")))) /\
    Forall (fun l => (Audio.currentTime
                        (Audio.mk (Double.toDouble 1.1179999999999999) false) < time l)%Q)
           (skipn (S i) (lyricsOf (parseLRC IntlUndefined
                                     (js "[00:02.00]c" ++ [LF] ++ js "[00:01.118]a")))).
Proof.
  apply (lookup_after_load IntlUndefined
           (App.initialState (Audio.mk (Double.toDouble 1.1179999999999999) false) None)
           (js "[00:02.00]c" ++ [LF] ++ js "[00:01.118]a")
           (Audio.mk (Double.toDouble 1.1179999999999999) false)
           (mkLyricLine (2517512191700107 # 2251799813685248) (js "a") [js "a"] false)).
  - reflexivity.
  - vm_compute; reflexivity.
  - vm_compute; discriminate.
Defined.

Section NotesFacts.

Lemma strictEq_eq (a b : JSString) : strictEq a b = true <-> a = b.
Proof.
  revert b; induction a as [|x a IH]; intros [|y b]; simpl;
    try (split; [discriminate | discriminate]); [tauto|].
  rewrite andb_true_iff, Z.eqb_eq, IH; split; [intros [-> ->] | intros [= -> ->]]; auto.
Qed.

Lemma strictEq_refl (a : JSString) : strictEq a a = true.
Proof. now apply strictEq_eq. Qed.

Lemma strictEq_neq (a b : JSString) : strictEq a b = false <-> a <> b.
Proof.
  rewrite <- strictEq_eq; destruct (strictEq a b); split; congruence.
Qed.

Lemma find_none_findIndex {A : Type} (q : A -> bool) (i : nat) (l : list A) :
  find q l = None ->
  findIndexFrom (fun y _ => q y) i l = -1 /\ Forall (fun y => q y = false) l.
Proof.
  revert i; induction l as [|x l IH]; intros i; simpl; [auto|].
  destruct (q x) eqn:E; [discriminate|].
  intros H; destruct (IH (S i) H); auto.
Qed.

Lemma find_some_findIndex {A : Type} (q : A -> bool) (i : nat) (l : list A)
    (x : A) :
  find q l = Some x ->
  exists pre post,
    l = pre ++ x :: post /\ q x = true /\
    Forall (fun y => q y = false) pre /\
    findIndexFrom (fun y _ => q y) i l = Z.of_nat (i + List.length pre).
Proof.
  revert i; induction l as [|a l IH]; intros i; simpl; [discriminate|].
  destruct (q a) eqn:E.
  - intros [= ->]; exists [], l; rewrite Nat.add_0_r; auto.
  - intros H; destruct (IH (S i) H) as (pre & post & -> & Hq & Hpre & Hf).
    exists (a :: pre), post; repeat split; auto.
    rewrite Hf; simpl; f_equal; lia.
Qed.

Lemma setIndex_middle {A : Type} (pre post : list A) (x n : A) :
  setIndex (List.length pre) n (pre ++ x :: post) = pre ++ n :: post.
Proof.
  induction pre as [|a pre IH]; simpl; congruence.
Qed.

Lemma find_app_none {A : Type} (q : A -> bool) (pre rest : list A) :
  Forall (fun y => q y = false) pre -> find q (pre ++ rest) = find q rest.
Proof.
  induction 1 as [|a pre Ha _ IH]; simpl; [reflexivity|].
  now rewrite Ha.
Qed.

Lemma find_all_false {A : Type} (q : A -> bool) (l : list A) :
  Forall (fun y => q y = false) l -> find q l = None.
Proof.
  induction 1 as [|a l Ha _ IH]; simpl; [reflexivity|].
  now rewrite Ha.
Qed.

Lemma find_app_some {A : Type} (q : A -> bool) (pre rest : list A) (x : A) :
  find q pre = Some x -> find q (pre ++ rest) = Some x.
Proof.
  induction pre as [|a pre IH]; simpl; [discriminate|].
  destruct (q a); auto.
Qed.

Lemma find_app {A : Type} (q : A -> bool) (pre rest : list A) :
  find q (pre ++ rest) =
  match find q pre with
  | Some x => Some x
  | None => find q rest
  end.
Proof.
  induction pre as [|a pre IH]; simpl; [reflexivity|].
  destruct (q a); auto.
Qed.

(** The list that [saveNoteToStorage] computes: the new note takes the
    place of the first note with its id, or goes to the front. *)
Lemma saved_notes (st : App.State) (n : Note.t) :
  match noteById (Note.id n) (App.notes st) with
  | Some old =>
      exists pre post,
        App.notes st = pre ++ old :: post /\
        Note.id old = Note.id n /\
        Forall (fun y => Note.id y <> Note.id n) pre /\
        App.notes (App.saveNoteToStorage st n) = pre ++ n :: post
  | None =>
      Forall (fun y => Note.id y <> Note.id n) (App.notes st) /\
      App.notes (App.saveNoteToStorage st n) = n :: App.notes st
  end.
Proof.
  change (App.notes (App.saveNoteToStorage st n))
    with (let existingIndex :=
            findIndex (fun y _ => strictEq (Note.id y) (Note.id n)) (App.notes st) in
          if 0 <=? existingIndex
          then setIndex (Z.to_nat existingIndex) n (App.notes st)
          else n :: App.notes st).
  unfold noteById, findIndex; cbv zeta.
  destruct (find _ (App.notes st)) as [old|] eqn:E.
  - destruct (find_some_findIndex _ 0 _ _ E) as (pre & post & Hl & Hq & Hpre & Hf).
    exists pre, post; rewrite Hf, Hl.
    apply strictEq_eq in Hq; repeat split; auto.
    + eapply Forall_impl; [|exact Hpre]; intros y; apply strictEq_neq.
    + destruct (Z.leb_spec 0 (Z.of_nat (0 + List.length pre))); [|lia].
      rewrite Nat2Z.id; apply setIndex_middle.
  - destruct (find_none_findIndex _ 0 _ E) as [-> Hall]; split; [|reflexivity].
    eapply Forall_impl; [|exact Hall]; intros y; apply strictEq_neq.
Qed.

(** The saved note is the first note with its id. *)
Lemma saved_note_found (st : App.State) (n : Note.t) :
  noteById (Note.id n) (App.notes (App.saveNoteToStorage st n)) = Some n.
Proof.
  pose proof (saved_notes st n) as H.
  destruct (noteById (Note.id n) (App.notes st)) as [old|].
  - destruct H as (pre & post & _ & _ & Hpre & ->).
    unfold noteById; rewrite find_app_none.
    + simpl; now rewrite strictEq_refl.
    + eapply Forall_impl; [|exact Hpre]; intros y; apply strictEq_neq.
  - destruct H as [_ ->]; unfold noteById; simpl; now rewrite strictEq_refl.
Qed.

End NotesFacts.

(** X14. After a note is saved, looking a note up by id finds the saved
    note under its own id and finds under every other id what was there
    before. *)
Theorem lookup_after_save (st : App.State) (n : Note.t) (id : JSString) :
  noteById id (App.notes (App.saveNoteToStorage st n)) =
  if strictEq (Note.id n) id then Some n else noteById id (App.notes st).
Proof.
  pose proof (saved_notes st n) as H.
  destruct (noteById (Note.id n) (App.notes st)) as [old|].
  - destruct H as (pre & post & Hl & Hid & Hpre & ->); rewrite Hl.
    unfold noteById; rewrite !find_app.
    destruct (strictEq (Note.id n) id) eqn:E.
    + apply strictEq_eq in E; subst id.
      rewrite find_all_false.
      * simpl; now rewrite strictEq_refl.
      * eapply Forall_impl; [|exact Hpre]; intros y; apply strictEq_neq.
    + simpl; rewrite Hid, E; reflexivity.
  - destruct H as [_ ->]; unfold noteById; simpl.
    now destruct (strictEq (Note.id n) id).
Qed.

(** X15. Saving a note whose id is already in the list puts it in the
    place of the first note with that id and leaves every other position
    as it is; saving a note with a new id puts it at the front.  The
    saved note becomes the selected note, and the toast is shown with a
    timer of 3000 ms to hide it. *)
Theorem save_replaces_in_place_or_prepends (st : App.State) (n : Note.t) :
  match noteById (Note.id n) (App.notes st) with
  | Some old =>
      exists pre post,
        App.notes st = pre ++ old :: post /\
        ~ In (Note.id n) (map Note.id pre) /\
        App.notes (App.saveNoteToStorage st n) = pre ++ n :: post
  | None => App.notes (App.saveNoteToStorage st n) = n :: App.notes st
  end /\
  App.selectedNote (App.saveNoteToStorage st n) = Some n /\
  App.show (App.toast (App.saveNoteToStorage st n)) = true /\
  App.timers (App.saveNoteToStorage st n) = App.timers st ++ [App.HideToast 3000].
Proof.
  split; [|repeat split].
  pose proof (saved_notes st n) as H.
  destruct (noteById (Note.id n) (App.notes st)) as [old|]; [|tauto].
  destruct H as (pre & post & Hl & _ & Hpre & Hs).
  exists pre, post; repeat split; auto.
  rewrite in_map_iff; intros (y & Hy & Hin).
  rewrite Forall_forall in Hpre; exact (Hpre y Hin Hy).
Qed.

Lemma find_filter {A : Type} (q r : A -> bool) (l : list A) :
  (forall y, q y = true -> r y = true) ->
  find q (filter r l) = find q l.
Proof.
  intros H; induction l as [|a l IH]; simpl; [reflexivity|].
  destruct (r a) eqn:R; simpl.
  - now rewrite IH.
  - destruct (q a) eqn:Q; [|exact IH].
    rewrite (H a Q) in R; discriminate.
Qed.

(** X16. After a note is deleted by id, no note is found under that id,
    and under every other id the lookup finds what it found before; the
    notes that stay keep their order. *)
Theorem lookup_after_delete (st : App.State) (id id' : JSString) :
  noteById id' (App.notes (App.deleteNote st id)) =
    (if strictEq id id' then None else noteById id' (App.notes st)) /\
  App.notes (App.deleteNote st id) =
    filter (fun n => negb (strictEq (Note.id n) id)) (App.notes st) /\
  Forall (fun n => Note.id n <> id) (App.notes (App.deleteNote st id)).
Proof.
  change (App.notes (App.deleteNote st id))
    with (filter (fun n => negb (strictEq (Note.id n) id)) (App.notes st)).
  repeat split.
  - unfold noteById; destruct (strictEq id id') eqn:E.
    + apply strictEq_eq in E; subst id'.
      apply find_all_false, Forall_forall; intros y Hy.
      apply filter_In in Hy; destruct Hy as [_ Hy].
      now apply negb_true_iff in Hy.
    + apply find_filter; intros y Hy.
      apply strictEq_eq in Hy; subst id'.
      apply negb_true_iff, strictEq_neq; apply strictEq_neq in E; congruence.
  - apply Forall_forall; intros y Hy.
    apply filter_In in Hy; destruct Hy as [_ Hy].
    now apply strictEq_neq, negb_true_iff.
Qed.

Lemma NoDup_ids_filter (r : Note.t -> bool) (l : list Note.t) :
  NoDup (map Note.id l) -> NoDup (map Note.id (filter r l)).
Proof.
  induction l as [|a l IH]; simpl; [auto|].
  intros H; inversion H as [|? ? Hn Hd]; subst.
  destruct (r a); simpl; [constructor|]; auto.
  rewrite in_map_iff in *; intros (y & Hy & Hin); apply Hn.
  exists y; split; [exact Hy|]; now apply filter_In in Hin.
Qed.

Lemma NoDup_ids_save (st : App.State) (n : Note.t) :
  NoDup (map Note.id (App.notes st)) ->
  NoDup (map Note.id (App.notes (App.saveNoteToStorage st n))).
Proof.
  intros Hd; pose proof (saved_notes st n) as H.
  destruct (noteById (Note.id n) (App.notes st)) as [old|].
  - destruct H as (pre & post & Hl & Hid & _ & ->).
    rewrite Hl in Hd; rewrite map_app in *; cbn [map] in *.
    now rewrite <- Hid.
  - destruct H as [Hall ->]; cbn [map]; constructor; [|exact Hd].
    rewrite in_map_iff; intros (y & Hy & Hin).
    rewrite Forall_forall in Hall; exact (Hall y Hin Hy).
Qed.

(** X17. Starting from a first visit with nothing stored, after any
    sequence of saves, deletions and reloads of the page the ids of the
    notes are pairwise distinct, and the stored list is the list of notes
    (or nothing is stored and there are no notes): a reload never changes
    the notes. *)
Theorem notes_invariants (ops : list NotesOp) (audio : Audio.t) :
  NoDup (map Note.id
           (App.notes (fold_left applyNotesOp ops (App.initialState audio None)))) /\
  (App.localStorage (fold_left applyNotesOp ops (App.initialState audio None)) =
     Some (App.notes (fold_left applyNotesOp ops (App.initialState audio None))) \/
   App.localStorage (fold_left applyNotesOp ops (App.initialState audio None)) = None /\
   App.notes (fold_left applyNotesOp ops (App.initialState audio None)) = []) /\
  App.notes (applyNotesOp (fold_left applyNotesOp ops (App.initialState audio None)) Reload) =
    App.notes (fold_left applyNotesOp ops (App.initialState audio None)).
Proof.
  assert (Hinv : forall ops st,
            NoDup (map Note.id (App.notes st)) ->
            (App.localStorage st = Some (App.notes st) \/
             App.localStorage st = None /\ App.notes st = []) ->
            NoDup (map Note.id (App.notes (fold_left applyNotesOp ops st))) /\
            (App.localStorage (fold_left applyNotesOp ops st) =
               Some (App.notes (fold_left applyNotesOp ops st)) \/
             App.localStorage (fold_left applyNotesOp ops st) = None /\
             App.notes (fold_left applyNotesOp ops st) = [])).
  { clear ops; induction ops as [|op ops IH]; intros st Hd Hs; [auto|].
    cbn [fold_left]; apply IH; destruct op as [n|id|]; cbn [applyNotesOp].
    - now apply NoDup_ids_save.
    - change (NoDup (map Note.id
                (filter (fun y => negb (strictEq (Note.id y) id)) (App.notes st)))).
      now apply NoDup_ids_filter.
    - unfold App.loadNotes; cbn [App.localStorage App.initialState].
      destruct Hs as [->|[-> _]]; [exact Hd | constructor].
    - left; reflexivity.
    - left; reflexivity.
    - unfold App.loadNotes; cbn [App.localStorage App.initialState].
      destruct Hs as [->|[-> _]]; [left|right]; auto. }
  destruct (Hinv ops (App.initialState audio None)) as [Hd Hs];
    [constructor | right; auto |].
  repeat split; auto.
  cbn [applyNotesOp]; unfold App.loadNotes; cbn [App.localStorage App.initialState].
  destruct Hs as [->|[-> ->]]; reflexivity.
Qed.

Lemma filter_other_ids (id : JSString) (l : list Note.t) :
  Forall (fun y => Note.id y <> id) l ->
  filter (fun y => negb (strictEq (Note.id y) id)) l = l.
Proof.
  induction 1 as [|y l Hy _ IH]; [reflexivity|].
  cbn [filter]; apply strictEq_neq in Hy; rewrite Hy; cbn [negb]; now rewrite IH.
Qed.

(** X18. Deleting a note right after it was saved under an id that no
    note had gives back the list of notes as it was before the save. *)
Theorem delete_undoes_fresh_save (st : App.State) (n : Note.t) :
  noteById (Note.id n) (App.notes st) = None ->
  App.notes (App.deleteNote (App.saveNoteToStorage st n) (Note.id n)) =
  App.notes st.
Proof.
  intros Hnew; pose proof (saved_notes st n) as H; rewrite Hnew in H.
  destruct H as [Hall Hs].
  change (filter (fun y => negb (strictEq (Note.id y) (Note.id n)))
                 (App.notes (App.saveNoteToStorage st n)) = App.notes st).
  rewrite Hs; cbn [filter]; rewrite strictEq_refl; cbn [negb].
  now apply filter_other_ids.
Qed.

(** X19. Saving the same note twice in a row is saving it once. *)
Theorem save_twice_is_save_once (st : App.State) (n : Note.t) :
  App.notes (App.saveNoteToStorage (App.saveNoteToStorage st n) n) =
  App.notes (App.saveNoteToStorage st n).
Proof.
  pose proof (saved_notes (App.saveNoteToStorage st n) n) as H.
  rewrite (saved_note_found st n) in H.
  destruct H as (pre & post & Hl & _ & _ & ->).
  now rewrite Hl.
Qed.

Lemma delete_undoes_fresh_save_witness :
  App.notes (App.deleteNote
               (App.saveNoteToStorage (App.initialState (Audio.mk 0 true) None)
                                      example_note)
               (Note.id example_note)) =
  App.notes (App.initialState (Audio.mk 0 true) None).
Proof.
  apply delete_undoes_fresh_save; reflexivity.
Defined.

Section WordClickFacts.

Lemma trimStart_all_ws (w : JSString) : onlyWhiteSpace w = true -> trimStart w = [].
Proof.
  unfold onlyWhiteSpace; induction w as [|c w IH]; simpl; [reflexivity|].
  destruct (isWhiteSpace c); [exact IH | discriminate].
Qed.

Lemma trim_all_ws (w : JSString) : onlyWhiteSpace w = true -> trim w = [].
Proof.
  intros H; unfold trim; now rewrite (trimStart_all_ws w H).
Qed.

Lemma trimStart_no_ws (w : JSString) : noWhiteSpace w = true -> trimStart w = w.
Proof.
  unfold noWhiteSpace; destruct w as [|c w]; simpl; [reflexivity|].
  now destruct (isWhiteSpace c).
Qed.

Lemma trim_no_ws (w : JSString) : noWhiteSpace w = true -> trim w = w.
Proof.
  intros H; unfold trim, trimEnd; rewrite (trimStart_no_ws w H).
  rewrite trimStart_no_ws; [apply rev_involutive|].
  unfold noWhiteSpace in *; rewrite forallb_forall in *.
  intros c Hc; apply H; now apply in_rev.
Qed.

Lemma cleanWord_chars (word : JSString) (c : CodeUnit) :
  In c (App.cleanWord word) -> In c word.
Proof.
  unfold App.cleanWord; intros Hc; apply filter_In in Hc.
  destruct Hc as [Hc _]; now apply trim_In.
Qed.

End WordClickFacts.

(** X20. The word handed to the lookup never holds one of the characters
    that [handleWordClick] strips, and holds characters of the clicked
    token only; for a token without white space, as the parser's splitting
    at white space gives them, it is the token without those characters
    and holds no white space either. *)
Theorem clean_word_shape (word : JSString) :
  Forall (fun c => isPunctuationFree c) (App.cleanWord word) /\
  (forall c, In c (App.cleanWord word) -> In c word) /\
  (noWhiteSpace word = true ->
     App.cleanWord word = filter (fun c => negb (App.isPunctuation c)) word /\
     noWhiteSpace (App.cleanWord word) = true).
Proof.
  unfold App.cleanWord, isPunctuationFree; repeat split.
  - apply Forall_forall; intros c Hc; apply filter_In in Hc.
    now apply negb_true_iff.
  - intros c Hc; apply filter_In in Hc; destruct Hc as [Hc _].
    now apply trim_In.
  - now rewrite trim_no_ws.
  - rewrite trim_no_ws by assumption.
    unfold noWhiteSpace in *; rewrite forallb_forall in *.
    intros c Hc; apply filter_In in Hc; destruct Hc as [Hc _]; auto.
Qed.

Lemma clean_word_shape_witness :
  App.cleanWord (js "(world!)") =
    filter (fun c => negb (App.isPunctuation c)) (js "(world!)") /\
  noWhiteSpace (App.cleanWord (js "(world!)")) = true.
Proof.
  destruct (clean_word_shape (js "(world!)")) as (_ & _ & H).
  apply H; reflexivity.
Defined.

(** X21. A click on a token that cleans to the empty word changes
    nothing.  Any other click opens the lookup for the cleaned word with
    the line as context and without a selected note, leaves lyrics and
    notes alone, and leaves the player not playing whenever there is an
    audio element; if it was playing, the element is paused. *)
Theorem word_click_outcome (st : App.State) (word contextLine : JSString) :
  (App.cleanWord word = [] -> App.handleWordClick st word contextLine = st) /\
  (App.cleanWord word <> [] ->
     App.selectedWordInfo (App.handleWordClick st word contextLine) =
       Some (App.mkWordInfo (App.cleanWord word) contextLine) /\
     App.selectedNote (App.handleWordClick st word contextLine) = None /\
     App.lyrics (App.handleWordClick st word contextLine) = App.lyrics st /\
     App.notes (App.handleWordClick st word contextLine) = App.notes st /\
     (forall audio, App.audioRef st = Some audio ->
        App.isPlaying (App.handleWordClick st word contextLine) = false /\
        App.audioRef (App.handleWordClick st word contextLine) =
          Some (if App.isPlaying st then Audio.pause audio else audio))).
Proof.
  unfold App.handleWordClick; split.
  - intros ->; reflexivity.
  - intros Hne; destruct (App.cleanWord word) as [|c w]; [now elim Hne|].
    cbn [List.length Nat.ltb Nat.leb].
    unfold App.pauseIfPlaying.
    destruct (App.audioRef st) as [a|] eqn:Ha.
    + destruct (App.isPlaying st) eqn:Hp;
        (do 4 (split; [reflexivity|]));
        intros audio [= <-]; cbn; rewrite ?Ha, ?Hp; auto.
    + do 4 (split; [reflexivity|]); discriminate.
Qed.

Lemma word_click_outcome_witness :
  App.handleWordClick (playing_at 1.7 three_lines) (js "?!") (js "a") =
    playing_at 1.7 three_lines /\
  App.selectedWordInfo (App.handleWordClick (playing_at 1.7 three_lines) (js "a,") (js "a")) =
    Some (App.mkWordInfo (App.cleanWord (js "a,")) (js "a")).
Proof.
  split.
  - destruct (word_click_outcome (playing_at 1.7 three_lines) (js "?!") (js "a")) as [H _].
    apply H; reflexivity.
  - destruct (word_click_outcome (playing_at 1.7 three_lines) (js "a,") (js "a")) as [_ H].
    apply H; discriminate.
Defined.

(** X22. A token made of white space only, as the per-character path of
    the parser gives for a space inside a Japanese line, and a token made
    only of the stripped characters, are never looked up: the click
    changes nothing. *)
Theorem blank_token_is_not_looked_up (st : App.State)
    (word contextLine : JSString) :
  onlyWhiteSpace word = true \/ forallb App.isPunctuation word = true ->
  App.handleWordClick st word contextLine = st.
Proof.
  intros H.
  assert (Hempty : App.cleanWord word = [] ->
                   App.handleWordClick st word contextLine = st).
  { unfold App.handleWordClick; intros ->; reflexivity. }
  apply Hempty.
  unfold App.cleanWord; destruct H as [H|H].
  - now rewrite trim_all_ws.
  - rewrite forallb_forall in H.
    destruct (filter _ (trim word)) as [|c w] eqn:E; [reflexivity|].
    assert (Hc : In c (filter (fun c => negb (App.isPunctuation c)) (trim word)))
      by (rewrite E; now left).
    apply filter_In in Hc; destruct Hc as [Hc Hp].
    apply trim_In, H in Hc; rewrite Hc in Hp; discriminate.
Qed.

Lemma blank_token_is_not_looked_up_witness :
  App.handleWordClick (playing_at 1.7 three_lines) [0x0020] [0x3042; 0x0020; 0x3044] =
  playing_at 1.7 three_lines.
Proof.
  apply blank_token_is_not_looked_up; left; reflexivity.
Defined.

(** X23. A parsed line that is not flagged Japanese is shown as clickable
    tokens unless its text tests as Chinese, in which case it is shown as
    one block. *)
Theorem block_display_means_chinese (intl : IntlEnv) (s : JSString)
    (lyrics : list LyricLine) (log : list Diagnostic) (l : LyricLine) :
  parseLRC intl s = (Ok lyrics, log) ->
  In l lyrics ->
  isJapanese l = false ->
  App.showsTokens l = negb (isChinese (text l)).
Proof.
  intros Hp Hin HJ.
  destruct (emitted_inv intl _ _ _ _ Hp Hin) as (x & log' & Hx & Hne & Htok).
  apply tokenize_cases in Htok; destruct Htok as (Hj & Hlatin & _).
  rewrite HJ in Hj; symmetry in Hj; destruct (Hlatin Hj) as [_ Hw].
  unfold App.showsTokens; rewrite Hw.
  destruct (isChinese (text l)); [reflexivity|].
  destruct (splitSpaces_trimmed x Hne) as [Hnil _]; rewrite <- Hx in Hnil.
  now destruct (splitSpaces (text l)).
Qed.

Lemma block_display_means_chinese_witness :
  App.showsTokens (mkLyricLine (5 # 2) [0x4F60; 0x597D] [] false) =
  negb (isChinese (text (mkLyricLine (5 # 2) [0x4F60; 0x597D] [] false))).
Proof.
  apply (block_display_means_chinese IntlUndefined hanzi_line
           [mkLyricLine (5 # 2) [0x4F60; 0x597D] [] false] []).
  - vm_compute; reflexivity.
  - left; reflexivity.
  - reflexivity.
Defined.

(** * Properties of the service and of the modal *)

Lemma truthy_nonempty (s : JSString) : truthy s = true <-> s <> [].
Proof.
  destruct s; simpl; split; congruence.
Qed.

(** X24. [getChatResponse] rejects only when the client cannot be built,
    and then nothing is logged.  With a client it always resolves with a
    string that is not empty: the reply when there is one, a stock
    sentence when the reply is missing or empty, and an apology when the
    request fails, in which case the failure is logged once. *)
Theorem chat_response_outcome (env : GeminiService.Env)
    (history : list ChatMessage.t) (newMessage wordContext : JSString) :
  match GeminiService.newGoogleGenAI env with
  | Some e =>
      GeminiService.getChatResponse env history newMessage wordContext =
        (Throw e, [])
  | None =>
      exists reply log,
        GeminiService.getChatResponse env history newMessage wordContext =
          (Ok reply, log) /\
        reply <> [] /\
        match GeminiService.chatSendMessage env
                (GeminiService.chatRequest history newMessage wordContext) with
        | Ok (Some t) =>
            log = [] /\
            reply = (if truthy t then t else GeminiService.noResponseGenerated)
        | Ok None => log = [] /\ reply = GeminiService.noResponseGenerated
        | Throw e =>
            log = [Async.ConsoleError (Some "Error in chat:"%string) e] /\
            reply = GeminiService.sorryError
        end
  end.
Proof.
  unfold GeminiService.getChatResponse.
  destruct (GeminiService.newGoogleGenAI env) as [e|]; [reflexivity|].
  destruct (GeminiService.chatSendMessage env _) as [[t|]|e]; cbn.
  - destruct (truthy t) eqn:T; eexists _, _; repeat split; try discriminate.
    now apply truthy_nonempty.
  - eexists _, _; repeat split; discriminate.
  - eexists _, _; repeat split; discriminate.
Qed.

(** X25. [getWordDefinition] resolves only with what [JSON.parse] made of
    a response text that is not empty, and then logs nothing.  When the
    client cannot be built it rejects without a log entry; every other
    failure (the request rejects, the text is missing or empty, the text
    does not parse) is logged once and rejects with that same error, a
    missing text being the error "No response from AI". *)
Theorem word_definition_outcome (env : GeminiService.Env)
    (word contextLine : JSString) :
  match GeminiService.getWordDefinition env word contextLine with
  | (Ok data, log) =>
      log = [] /\ GeminiService.newGoogleGenAI env = None /\
      exists text,
        GeminiService.generateContent env
          (GeminiService.definitionRequest word contextLine) = Ok (Some text) /\
        text <> [] /\ GeminiService.jsonParse env text = Ok data
  | (Throw e, log) =>
      match GeminiService.newGoogleGenAI env with
      | Some e' => e = e' /\ log = []
      | None =>
          log = [Async.ConsoleError (Some "Error fetching definition:"%string) e] /\
          match GeminiService.generateContent env
                  (GeminiService.definitionRequest word contextLine) with
          | Throw e' => e = e'
          | Ok None => e = "No response from AI"%string
          | Ok (Some text) =>
              if truthy text
              then GeminiService.jsonParse env text = Throw e
              else e = "No response from AI"%string
          end
      end
  end.
Proof.
  unfold GeminiService.getWordDefinition.
  destruct (GeminiService.newGoogleGenAI env) as [e|]; [cbn; auto|].
  destruct (GeminiService.generateContent env _) as [[text|]|e] eqn:G; cbn; auto.
  destruct (truthy text) eqn:T; cbn; auto.
  destruct (GeminiService.jsonParse env text) as [data|e] eqn:J; cbn; auto.
  repeat split; exists text; repeat split; auto.
  now apply truthy_nonempty.
Qed.

Section ModalFacts.

Lemma numberToString_nonempty (n : Z) : numberToString n <> [].
Proof.
  unfold numberToString.
  assert (H : forall d, NilZero.string_of_uint d <> EmptyString).
  { intros d; destruct d; simpl; discriminate. }
  destruct (Z.to_int n) as [d|d]; simpl; [|discriminate].
  specialize (H d); destruct (NilZero.string_of_uint d); [congruence | discriminate].
Qed.

Lemma splitSpaces_chars (txt t : JSString) (c : CodeUnit) :
  In t (splitSpaces txt) -> In c t -> In c txt.
Proof.
  intros Ht Hc.
  assert (H : In c (List.concat (splitSpaces txt))).
  { apply in_concat; eauto. }
  unfold splitSpaces in H; rewrite concat_splitWS in H.
  now apply filter_In in H.
Qed.

Lemma existsb_sub (p : CodeUnit -> bool) (s t : JSString) :
  existsb p s = false -> (forall c, In c t -> In c s) -> existsb p t = false.
Proof.
  intros Hs Hsub; destruct (existsb p t) eqn:E; [|reflexivity].
  apply existsb_exists in E; destruct E as (c & Hc & Hp).
  rewrite <- Hs; symmetry; apply existsb_exists; eauto.
Qed.

End ModalFacts.

(** X26. Opening a saved note from the sidebar shows its saved definition
    and chat at once and asks nothing of the service; clicking a word in
    the lyrics always starts a fetch for the cleaned word with its line as
    context, with the definition and the chat of the modal cleared. *)
Theorem modal_opening (app : App.State) (modal : WordDetailModal.State) :
  (forall note,
     Note.word note <> [] ->
     WordDetailModal.openEffect (modalProps (App.handleNoteClick app note)) modal =
       (WordDetailModal.mkState false (Some (Note.definitionData note))
          (Note.chatHistory note) (WordDetailModal.chatInput modal)
          (WordDetailModal.chatLoading modal),
        WordDetailModal.NoFetch)) /\
  (forall word contextLine,
     App.cleanWord word <> [] ->
     WordDetailModal.openEffect
       (modalProps (App.handleWordClick app word contextLine)) modal =
       (WordDetailModal.mkState true None [] (WordDetailModal.chatInput modal)
          (WordDetailModal.chatLoading modal),
        WordDetailModal.Fetch (App.cleanWord word) contextLine)).
Proof.
  split.
  - intros note Hw.
    unfold WordDetailModal.openEffect, modalProps, App.handleNoteClick; cbn.
    apply truthy_nonempty in Hw; rewrite Hw, strictEq_refl; reflexivity.
  - intros word contextLine Hw.
    unfold WordDetailModal.openEffect, modalProps, App.handleWordClick.
    destruct (App.cleanWord word) as [|c w]; [now elim Hw|]; cbn.
    reflexivity.
Qed.

Lemma modal_opening_witness :
  WordDetailModal.openEffect
    (modalProps (App.handleNoteClick (playing_at 1.7 three_lines) example_note))
    WordDetailModal.initialState =
    (WordDetailModal.mkState false (Some (Note.definitionData example_note))
       (Note.chatHistory example_note)
       (WordDetailModal.chatInput WordDetailModal.initialState)
       (WordDetailModal.chatLoading WordDetailModal.initialState),
     WordDetailModal.NoFetch) /\
  WordDetailModal.openEffect
    (modalProps (App.handleWordClick (playing_at 1.7 three_lines) (js "a,") (js "a")))
    WordDetailModal.initialState =
    (WordDetailModal.mkState true None []
       (WordDetailModal.chatInput WordDetailModal.initialState)
       (WordDetailModal.chatLoading WordDetailModal.initialState),
     WordDetailModal.Fetch (App.cleanWord (js "a,")) (js "a")).
Proof.
  destruct (modal_opening (playing_at 1.7 three_lines) WordDetailModal.initialState)
    as [H1 H2].
  split; [apply H1 | apply H2]; discriminate.
Defined.

(** X27. Saving twice from the modal that was opened by a click on a
    word makes one note, not two: the first save creates a note whose id
    is the time of that save, the second save reuses that id, and the
    list ends up with one new note at the front that carries the
    definition, chat and timestamp of the second save. *)
Theorem second_save_updates_the_same_note (app : App.State)
    (modal1 modal2 : WordDetailModal.State) (info : App.WordInfo)
    (dd1 dd2 : DefinitionData.t) (idNow1 ts1 idNow2 ts2 : Z) :
  App.selectedWordInfo app = Some info ->
  App.selectedNote app = None ->
  WordDetailModal.definitionData modal1 = Some dd1 ->
  WordDetailModal.definitionData modal2 = Some dd2 ->
  noteById (numberToString idNow1) (App.notes app) = None ->
  App.notes (saveFromModal idNow2 ts2 (saveFromModal idNow1 ts1 app modal1) modal2) =
    Note.mk (numberToString idNow1) (App.word info) dd2 (App.contextLine info)
            (WordDetailModal.chatHistory modal2) ts2 :: App.notes app.
Proof.
  intros Hinfo Hsel Hd1 Hd2 Hnew.
  set (note1 := Note.mk (numberToString idNow1) (App.word info) dd1
                        (App.contextLine info)
                        (WordDetailModal.chatHistory modal1) ts1).
  assert (E1 : saveFromModal idNow1 ts1 app modal1 = App.saveNoteToStorage app note1).
  { unfold saveFromModal, WordDetailModal.handleSave, modalProps.
    rewrite Hinfo, Hsel, Hd1; reflexivity. }
  rewrite E1.
  set (note2 := Note.mk (numberToString idNow1) (App.word info) dd2
                        (App.contextLine info)
                        (WordDetailModal.chatHistory modal2) ts2).
  assert (E2 : saveFromModal idNow2 ts2 (App.saveNoteToStorage app note1) modal2 =
               App.saveNoteToStorage (App.saveNoteToStorage app note1) note2).
  { unfold saveFromModal, WordDetailModal.handleSave, modalProps.
    change (App.selectedWordInfo (App.saveNoteToStorage app note1))
      with (App.selectedWordInfo app).
    change (App.selectedNote (App.saveNoteToStorage app note1)) with (Some note1).
    rewrite Hinfo, Hd2; cbn [WordDetailModal.initialData WordDetailModal.word
                             WordDetailModal.contextLine Note.id note1].
    pose proof (numberToString_nonempty idNow1) as Hne.
    apply truthy_nonempty in Hne; rewrite Hne; reflexivity. }
  rewrite E2.
  pose proof (saved_notes app note1) as S1.
  change (Note.id note1) with (numberToString idNow1) in S1; rewrite Hnew in S1.
  destruct S1 as [Hall S1].
  pose proof (saved_notes (App.saveNoteToStorage app note1) note2) as S2.
  change (Note.id note2) with (Note.id note1) in S2 at 1.
  rewrite (saved_note_found app note1) in S2.
  destruct S2 as (pre & post & Hl & _ & Hpre & ->).
  rewrite S1 in Hl.
  destruct pre as [|y pre].
  - injection Hl as <-; reflexivity.
  - injection Hl as <- _; inversion Hpre as [|? ? Hy _]; subst.
    now elim Hy.
Qed.

Lemma second_save_updates_the_same_note_witness :
  App.notes
    (saveFromModal 1700000005000 1700000005001
       (saveFromModal 1700000000000 1700000000001
          (App.handleWordClick (playing_at 1.7 three_lines) (js "world") (js "Hello world"))
          (WordDetailModal.mkState false (Some example_definition) [] [] false))
       (WordDetailModal.mkState false (Some example_definition)
          [ChatMessage.mk ChatMessage.user (js "why?")] [] false)) =
  Note.mk (numberToString 1700000000000)
          (App.word (App.mkWordInfo (js "world") (js "Hello world")))
          example_definition
          (App.contextLine (App.mkWordInfo (js "world") (js "Hello world")))
          (WordDetailModal.chatHistory
             (WordDetailModal.mkState false (Some example_definition)
                [ChatMessage.mk ChatMessage.user (js "why?")] [] false))
          1700000005001 ::
  App.notes (App.handleWordClick (playing_at 1.7 three_lines) (js "world") (js "Hello world")).
Proof.
  apply (second_save_updates_the_same_note _ _ _ _ example_definition example_definition);
    reflexivity.
Defined.

(** X28. Saving does not disturb the open modal: the effect that runs
    again because the selected note changed finds the note just saved,
    which holds the definition and the chat on display, so the modal
    state stays as it is and no request is made. *)
Theorem save_keeps_modal_state (app : App.State) (modal : WordDetailModal.State)
    (info : App.WordInfo) (dd : DefinitionData.t) (idNow timestampNow : Z) :
  App.selectedWordInfo app = Some info ->
  App.word info <> [] ->
  WordDetailModal.definitionData modal = Some dd ->
  WordDetailModal.loading modal = false ->
  WordDetailModal.openEffect
    (modalProps (saveFromModal idNow timestampNow app modal)) modal =
  (modal, WordDetailModal.NoFetch).
Proof.
  intros Hinfo Hw Hd Hl.
  unfold saveFromModal, WordDetailModal.handleSave; rewrite Hd.
  set (n := Note.mk _ _ _ _ _ _).
  assert (Hp : modalProps (App.saveNoteToStorage app n) =
               WordDetailModal.mkProps (App.word info) (App.contextLine info)
                                       true (Some n) (App.language app)).
  { unfold modalProps.
    change (App.selectedWordInfo (App.saveNoteToStorage app n))
      with (App.selectedWordInfo app).
    rewrite Hinfo; reflexivity. }
  assert (Hn : Note.word n = App.word info).
  { subst n; unfold modalProps; rewrite Hinfo; reflexivity. }
  rewrite Hp; unfold WordDetailModal.openEffect.
  cbn [WordDetailModal.isOpen WordDetailModal.word WordDetailModal.initialData
       WordDetailModal.contextLine andb].
  apply truthy_nonempty in Hw; rewrite Hw, Hn, strictEq_refl.
  subst n; cbn [Note.definitionData Note.chatHistory].
  destruct modal; cbn in *; subst; reflexivity.
Qed.

Lemma save_keeps_modal_state_witness :
  WordDetailModal.openEffect
    (modalProps
       (saveFromModal 1700000000000 1700000000001
          (App.handleWordClick (playing_at 1.7 three_lines) (js "world") (js "Hello world"))
          (WordDetailModal.mkState false (Some example_definition) [] [] false)))
    (WordDetailModal.mkState false (Some example_definition) [] [] false) =
  (WordDetailModal.mkState false (Some example_definition) [] [] false,
   WordDetailModal.NoFetch).
Proof.
  apply (save_keeps_modal_state _ _ (App.mkWordInfo (js "world") (js "Hello world"))
           example_definition); try reflexivity; discriminate.
Defined.

(** X29. A word clicked in a parsed line that is not flagged Japanese is
    spoken as English, or as Japanese when its definition has a furigana
    reading; it is never spoken as Chinese.  (A Chinese line has no
    tokens to click, and the tokens of any other such line hold neither
    Kana nor ideographs.) *)
Theorem speech_language_of_clicked_word (intl : IntlEnv) (s : JSString)
    (lyrics : list LyricLine) (log : list Diagnostic) (l : LyricLine)
    (t : JSString) (props : WordDetailModal.Props) (st : WordDetailModal.State) :
  parseLRC intl s = (Ok lyrics, log) ->
  In l lyrics ->
  In t (words l) ->
  isJapanese l = false ->
  App.cleanWord t <> [] ->
  WordDetailModal.word props = App.cleanWord t ->
  WordDetailModal.handlePlayAudio props st =
    Some (WordDetailModal.mkUtterance (App.cleanWord t)
            (if Async.truthyOpt
                  match WordDetailModal.definitionData st with
                  | Some d => DefinitionData.furigana d
                  | None => None
                  end
             then WordDetailModal.ja_JP
             else WordDetailModal.en_US)).
Proof.
  intros Hp Hin Ht HJ Hne Hw.
  destruct (emitted_inv intl _ _ _ _ Hp Hin) as (x & log' & _ & _ & Htok).
  apply tokenize_cases in Htok; destruct Htok as (Hj & Hlatin & _).
  rewrite HJ in Hj; symmetry in Hj; destruct (Hlatin Hj) as [_ Hwords].
  unfold isChinese in Hwords; rewrite Hj in Hwords; cbn [negb] in Hwords.
  rewrite andb_true_r in Hwords.
  destruct (hasChineseChars (text l)) eqn:Hc;
    rewrite Hwords in Ht; [destruct Ht|].
  assert (Hsub : forall c, In c (App.cleanWord t) -> In c (text l)).
  { intros c Hcw; apply (splitSpaces_chars (text l) t c Ht).
    now apply cleanWord_chars. }
  unfold WordDetailModal.handlePlayAudio; rewrite Hw.
  apply truthy_nonempty in Hne; rewrite Hne; cbn [negb].
  unfold hasJapanese, hasChineseChars in *.
  rewrite (existsb_sub isKana _ _ Hj Hsub), (existsb_sub isCJK _ _ Hc Hsub).
  reflexivity.
Qed.

Lemma speech_language_of_clicked_word_witness :
  WordDetailModal.handlePlayAudio
    (WordDetailModal.mkProps (App.cleanWord (js "world")) (js "Hello world") true None zh)
    (WordDetailModal.mkState false (Some example_definition) [] [] false) =
  Some (WordDetailModal.mkUtterance (App.cleanWord (js "world"))
          (if Async.truthyOpt
                match WordDetailModal.definitionData
                        (WordDetailModal.mkState false (Some example_definition) [] [] false) with
                | Some d => DefinitionData.furigana d
                | None => None
                end
           then WordDetailModal.ja_JP
           else WordDetailModal.en_US)).
Proof.
  apply (speech_language_of_clicked_word IntlUndefined (js "[00:01.50]Hello world")
           [mkLyricLine (3 # 2) (js "Hello world") [js "Hello"; js "world"] false] []
           (mkLyricLine (3 # 2) (js "Hello world") [js "Hello"; js "world"] false)).
  - vm_compute; reflexivity.
  - left; reflexivity.
  - right; left; reflexivity.
  - reflexivity.
  - discriminate.
  - reflexivity.
Defined.

(** X30. Sending a chat message.  A blank input changes nothing, asks
    nothing and logs nothing.  Otherwise the input is cleared and the
    spinner is off at the end in every case; with a client the history
    grows by the user's message followed by a reply that is not empty;
    without one it grows by the user's message only and the failure is
    logged.  The request that is made holds the new message twice: as the
    last entry of the history and as the message to send. *)
Theorem send_message_outcome (env : GeminiService.Env)
    (props : WordDetailModal.Props) (st : WordDetailModal.State) :
  (trim (WordDetailModal.chatInput st) = [] ->
     WordDetailModal.sendStart props st = None /\
     WordDetailModal.handleSendMessage env props st = (Ok st, [])) /\
  (trim (WordDetailModal.chatInput st) <> [] ->
     match GeminiService.newGoogleGenAI env with
     | None =>
         exists reply log,
           WordDetailModal.handleSendMessage env props st =
             (Ok (WordDetailModal.mkState
                    (WordDetailModal.loading st)
                    (WordDetailModal.definitionData st)
                    (WordDetailModal.chatHistory st ++
                     [ChatMessage.mk ChatMessage.user (WordDetailModal.chatInput st);
                      ChatMessage.mk ChatMessage.model reply])
                    [] false),
              log) /\
           reply <> [] /\ (List.length log <= 1)%nat
     | Some e =>
         WordDetailModal.handleSendMessage env props st =
           (Ok (WordDetailModal.mkState
                  (WordDetailModal.loading st)
                  (WordDetailModal.definitionData st)
                  (WordDetailModal.chatHistory st ++
                   [ChatMessage.mk ChatMessage.user (WordDetailModal.chatInput st)])
                  [] false),
            [Async.ConsoleError (Some "Chat error"%string) e])
     end /\
     exists st' call,
       WordDetailModal.sendStart props st = Some (st', call) /\
       ChatRequest.message
         (GeminiService.chatRequest (WordDetailModal.callHistory call)
            (WordDetailModal.callMessage call) (WordDetailModal.callWord call)) =
         WordDetailModal.chatInput st /\
       hd_error (rev (ChatRequest.history
                        (GeminiService.chatRequest (WordDetailModal.callHistory call)
                           (WordDetailModal.callMessage call)
                           (WordDetailModal.callWord call)))) =
         Some (ChatRequest.mkContent ChatMessage.user
                 [ChatRequest.mkPart (WordDetailModal.chatInput st)])).
Proof.
  unfold WordDetailModal.handleSendMessage, WordDetailModal.sendStart; split.
  - intros ->; cbn; auto.
  - intros Hne; apply truthy_nonempty in Hne; rewrite Hne; cbn [negb].
    split.
    + cbn [WordDetailModal.callHistory WordDetailModal.callMessage
           WordDetailModal.callWord].
      unfold GeminiService.getChatResponse.
      destruct (GeminiService.newGoogleGenAI env) as [e|]; [reflexivity|].
      destruct (GeminiService.chatSendMessage env _) as [[t|]|e]; cbn;
        rewrite <- app_assoc; cbn [app].
      * destruct (truthy t) eqn:T; eexists _, _; repeat split; auto;
          [now apply truthy_nonempty | discriminate].
      * eexists _, _; repeat split; auto; discriminate.
      * eexists _, _; repeat split; auto; discriminate.
    + eexists _, _; split; [reflexivity|].
      cbn; unfold GeminiService.historyForModel.
      rewrite map_app, rev_app_distr; auto.
Qed.

Lemma send_message_outcome_witness :
  (WordDetailModal.sendStart
     (WordDetailModal.mkProps (js "world") (js "Hello world") true None zh)
     (WordDetailModal.mkState false (Some example_definition) [] (js "  ") false) = None /\
   WordDetailModal.handleSendMessage answeringService
     (WordDetailModal.mkProps (js "world") (js "Hello world") true None zh)
     (WordDetailModal.mkState false (Some example_definition) [] (js "  ") false) =
   (Ok (WordDetailModal.mkState false (Some example_definition) [] (js "  ") false), [])) /\
  (exists reply log,
     WordDetailModal.handleSendMessage answeringService
       (WordDetailModal.mkProps (js "world") (js "Hello world") true None zh)
       (WordDetailModal.mkState false (Some example_definition) [] (js "why?") false) =
     (Ok (WordDetailModal.mkState false (Some example_definition)
            ([] ++ [ChatMessage.mk ChatMessage.user (js "why?");
                    ChatMessage.mk ChatMessage.model reply])
            [] false),
      log) /\
     reply <> [] /\ (List.length log <= 1)%nat).
Proof.
  split.
  - destruct (send_message_outcome answeringService
                (WordDetailModal.mkProps (js "world") (js "Hello world") true None zh)
                (WordDetailModal.mkState false (Some example_definition) [] (js "  ") false))
      as [H _].
    apply H; reflexivity.
  - destruct (send_message_outcome answeringService
                (WordDetailModal.mkProps (js "world") (js "Hello world") true None zh)
                (WordDetailModal.mkState false (Some example_definition) [] (js "why?") false))
      as [_ H].
    destruct H as [H _]; [discriminate | exact H].
Defined.
